(** * go-to-dashboard: generalized pod field matching

    A shallow embedding of the matching and URL-templating core of the
    plugin: [anchorPattern], [LoadConfig], [ValidateConfig],
    [Condition.Evaluate], [MenuItem.MatchesPod], [MenuItem.ResolveURL]
    (config.go); [NewPodData], [PodData.FetchPodJSON],
    [PodData.ResolvePath], [PodData.Labels], [PodData.FlattenPaths],
    [stringify], [FilterMenuItems] (pod.go); [colorForKey] and the pod
    context of [main] (main.go).

    Go strings are byte strings and are modelled by [string]; a
    [map[string]interface{}] is a [gmap string value]; a pointer that may
    be nil is an [option]; a nil-pointer dereference (a panic) is the
    [None] of an [option] result.  The parts of the Go runtime and
    standard library the program calls -- the [regexp] engine, the [%g]
    and [%v] verbs of [fmt], what [int64(f)] yields when [f] is out of
    range, the file system, [kubectl] and the JSON decoder -- are
    interfaces ([RegexpPkg], [GoRuntime], [Host], [ConfigJSON]); one
    concrete engine for a fragment of the RE2 syntax is given in
    [Module RE2]. *)

From Stdlib Require Import ZArith Lia Bool Ascii String.
From Stdlib Require Import Floats.SpecFloat Decimal DecimalString DecimalPos DecimalZ.
From stdpp Require Import base option list strings gmap fin_maps sorting.

Set Warnings "-register-all".
#[local] Open Scope string_scope.

(** ** The [strings] package: the four functions the program calls *)

Module GoStrings.

(** [strings.HasPrefix(s, prefix)]. *)
Definition HasPrefix (s pre : string) : bool := String.prefix pre s.

(** [strings.HasSuffix(s, suffix)]:
    [len(s) >= len(suffix) && s[len(s)-len(suffix):] == suffix]. *)
Definition HasSuffix (s suf : string) : bool :=
  (String.length suf <=? String.length s)%nat
  && String.eqb
       (String.substring (String.length s - String.length suf)
          (String.length suf) s)
       suf.

(** [strings.Split(s, sep)] for a one-byte separator (the program only
    splits on ["."]).  The result is never empty: [Split "" sep = [""]]. *)
Fixpoint Split (s : string) (sep : ascii) : list string :=
  match s with
  | EmptyString => [ EmptyString ]
  | String c s' =>
      if Ascii.eqb c sep then EmptyString :: Split s' sep
      else match Split s' sep with
           | seg :: segs => String c seg :: segs
           | [] => [ String c EmptyString ]
           end
  end.

(** [strings.Join(elems, sep)]. *)
Fixpoint Join (elems : list string) (sep : string) : string :=
  match elems with
  | [] => EmptyString
  | [e] => e
  | e :: rest => e ++ sep ++ Join rest sep
  end.

(** The byte [c] occurs in [s]. *)
Fixpoint ContainsByte (s : string) (c : ascii) : bool :=
  match s with
  | EmptyString => false
  | String c' s' => Ascii.eqb c' c || ContainsByte s' c
  end.

(** [strings.Index(s, substr)]: the position of the first occurrence. *)
Fixpoint Index (s sub : string) : option nat :=
  if String.prefix sub s then Some 0%nat
  else match s with
       | EmptyString => None
       | String _ s' => option_map S (Index s' sub)
       end.

(** The scan of [strings.ReplaceAll]: [skip] bytes of an occurrence that
    has just been replaced are still to be passed over. *)
Fixpoint replace_scan (old new : string) (skip : nat) (s : string) : string :=
  match s with
  | EmptyString => EmptyString
  | String c s' =>
      match skip with
      | S k => replace_scan old new k s'
      | O =>
          if String.prefix old s
          then new ++ replace_scan old new (String.length old - 1) s'
          else String c (replace_scan old new 0 s')
      end
  end.

(** [s[n:]]. *)
Fixpoint drop (n : nat) (s : string) : string :=
  match n, s with
  | S n', String _ s' => drop n' s'
  | _, _ => s
  end.

(** [s[:n]]. *)
Definition take (n : nat) (s : string) : string := String.substring 0 n s.

(** [strings.ReplaceAll(s, old, new)]: the non-overlapping occurrences of
    [old], leftmost first, are replaced by [new].  [old] is non-empty at
    the only call site (["$VALUE"]); for an empty [old] Go inserts [new]
    around every UTF-8 sequence, which is not modelled: [s] is returned. *)
Definition ReplaceAll (s old new : string) : string :=
  match old with
  | EmptyString => s
  | String _ _ => replace_scan old new 0 s
  end.

End GoStrings.

(** ** The [sort] package: [sort.Strings] *)

Module GoSort.

(** The order of Go's [<] on strings: byte by byte. *)
Definition string_le (a b : string) : Prop := String.leb a b = true.

#[export] Instance string_le_dec : RelDecision string_le.
Proof. intros a b. unfold string_le. apply _. Defined.

(** [sort.Strings(a)]: [a] in increasing order.  Strings that compare
    equal are equal, so the result does not depend on the algorithm. *)
Definition Strings (a : list string) : list string := merge_sort string_le a.

End GoSort.

(** ** The [hash/fnv] package: the 32-bit FNV-1a hash *)

Module FNV.

#[local] Open Scope Z_scope.

Definition offset32 : Z := 2166136261.
Definition prime32 : Z := 16777619.

(** [fnv.New32a()]: the state is the hash so far, a [uint32]. *)
Definition New32a : Z := offset32.

(** [h.Write(data)]. *)
Fixpoint Write (hash : Z) (data : string) : Z :=
  match data with
  | EmptyString => hash
  | String c rest =>
      Write ((Z.lxor hash (Z.of_nat (nat_of_ascii c)) * prime32) mod 2 ^ 32)
        rest
  end.

(** [h.Sum32()]. *)
Definition Sum32 (hash : Z) : Z := hash.

End FNV.

(** ** [float64] and [int64] *)

Module Float64.

#[local] Open Scope Z_scope.

(** IEEE 754 binary64, as the Standard Library specifies it: a sign, a
    mantissa [m] and an exponent [e] stand for [m * 2^e]. *)
Definition prec : Z := 53.
Definition emax : Z := 1024.

Definition float64 : Type := spec_float.

(** A well-formed finite binary64: what [encoding/json] decodes a JSON
    number to (it rejects numbers that overflow). *)
Definition is_float64 (f : float64) : bool :=
  match f with
  | S754_zero _ => true
  | S754_finite _ m e => bounded prec emax m e
  | _ => false
  end.

Definition min_int64 : Z := - 2 ^ 63.
Definition max_int64 : Z := 2 ^ 63 - 1.

Definition in_int64 (z : Z) : bool := (min_int64 <=? z) && (z <=? max_int64).

(** Two's-complement wrap-around into the [int64] range. *)
Definition wrap_int64 (z : Z) : Z := (z - min_int64) mod 2 ^ 64 + min_int64.

(** The integer part of a finite float (the fraction is discarded,
    truncation towards zero). *)
Definition truncate (f : float64) : option Z :=
  match f with
  | S754_zero _ => Some 0
  | S754_finite s m e => Some (cond_Zopp s (Z.shiftl (Z.pos m) e))
  | _ => None
  end.

(** Whether a finite float has an integral value: shifting the mantissa
    by the exponent and back loses no bit. *)
Definition is_integral (f : float64) : bool :=
  match f with
  | S754_zero _ => true
  | S754_finite _ m e => Z.pos m =? Z.shiftl (Z.shiftl (Z.pos m) e) (- e)
  | _ => false
  end.

(** The value of an integral float. *)
Definition Zvalue (f : float64) : Z := default 0 (truncate f).

(** The conversion [float64(i)] of an [int64]: round to nearest, ties to
    even. *)
Definition float64_of_int64 (i : Z) : float64 :=
  binary_normalize prec emax i 0 false.

(** The comparison [f == g] of two [float64]. *)
Definition eqb (f g : float64) : bool := SFeqb f g.

(** A bound on the exponent of a finite float. *)
Definition exponent_le (f : float64) (b : Z) : Prop :=
  match f with
  | S754_finite _ _ e => e <= b
  | _ => True
  end.

(** Some floats used in examples: 2^63, 2^64, 2.5, 8080 and -0. *)
Definition two_pow_63 : float64 := S754_finite false 4503599627370496 11.
Definition two_pow_64 : float64 := S754_finite false 4503599627370496 12.
Definition two_and_a_half : float64 := S754_finite false 5629499534213120 (-51).
Definition f8080 : float64 := float64_of_int64 8080.
Definition minus_zero : float64 := S754_zero true.

End Float64.

Export Float64(float64).

(** ** Decoded JSON: the dynamic type of an [interface{}] after
    [json.Unmarshal] *)

Inductive value : Type :=
  | VNull                           (* nil *)
  | VBool (b : bool)                (* bool *)
  | VNum (f : float64)              (* float64 *)
  | VStr (s : string)               (* string *)
  | VArr (l : list value)           (* []interface{} *)
  | VMap (m : gmap string value).   (* map[string]interface{} *)

(** ** What the Go runtime and the [fmt] package decide *)

Class GoRuntime : Type := {
  (** [int64(f)] when the truncation of [f] is not an [int64], or [f] is
      not finite: the language leaves the result to the implementation. *)
  int64_overflow : float64 -> Z;
  (** [fmt.Sprintf("%g", f)]. *)
  fmt_g : float64 -> string;
  (** [fmt.Sprintf("%v", v)] for the remaining dynamic types: maps and
      slices. *)
  fmt_v : value -> string;
  (** Neither verb prints nothing: [%g] prints at least a digit, [%v]
      prints at least [[]] or [map[]]. *)
  fmt_g_nonempty : forall f, fmt_g f <> "";
  fmt_v_slice_nonempty : forall l, fmt_v (VArr l) <> "";
  fmt_v_map_nonempty : forall m, fmt_v (VMap m) <> "";
}.

(** [fmt.Sprintf("%d", i)] for an [int64]. *)
Definition fmt_d (i : Z) : string := NilZero.string_of_int (Z.to_int i).

(** Decimal integer text: an optional minus sign and one or more decimal
    digits, nothing else (no fraction, no exponent). *)
Definition is_digit (c : ascii) : bool :=
  (48 <=? nat_of_ascii c)%nat && (nat_of_ascii c <=? 57)%nat.

Fixpoint all_digits (s : string) : bool :=
  match s with
  | EmptyString => true
  | String c s' => is_digit c && all_digits s'
  end.

Definition is_decimal_text (s : string) : bool :=
  match s with
  | EmptyString => false
  | String "-" (String c s') => all_digits (String c s')
  | String c s' => all_digits (String c s')
  end.

(** [fmt.Sprintf("%t", b)]. *)
Definition fmt_t (b : bool) : string := if b then "true" else "false".

(** The conversion [int64(f)]. *)
Definition int64_of_float64 `{GoRuntime} (f : float64) : Z :=
  match Float64.truncate f with
  | Some z =>
      if Float64.in_int64 z then z
      else Float64.wrap_int64 (int64_overflow f)
  | None => Float64.wrap_int64 (int64_overflow f)
  end.

(** ** What the operating system and [encoding/json] decide *)

Class Host : Type := {
  (** The error values of [os], [os/exec] and [encoding/json]. *)
  OSError : Type;
  JSONError : Type;
  (** [os.ReadFile(path)]. *)
  ReadFile : string -> OSError + string;
  (** [exec.Command(name, args...)] run by [Output] with [Stderr] set to a
      buffer: the standard output, or the error and the content of the
      buffer. *)
  Output : string -> list string -> OSError * string + string;
  (** [json.Unmarshal(data, &parsed)] for a nil
      [parsed map[string]interface{}]. *)
  Unmarshal : string -> JSONError + gmap string value;
  (** [strings.TrimSpace]. *)
  TrimSpace : string -> string;
}.

(** ** pod.go *)

(** [PodData]; a nil [Parsed] map reads like the empty map. *)
Record PodData : Type := {
  Name : string;
  Namespace : string;
  RawJSON : string;
  Parsed : gmap string value;
}.

(** The loop of [ResolvePath]: [current] and the [parts] still to walk. *)
Fixpoint walk (current : value) (parts : list string) : option value :=
  match parts with
  | [] => Some current
  | part :: rest =>
      match current with
      | VMap m =>
          match m !! part with
          | Some next => walk next rest
          | None => None
          end
      | _ => None
      end
  end.

(** [(p *PodData) ResolvePath(path)]: [Some v] is [(v, true)], [None] is
    [(nil, false)]. *)
Definition ResolvePath (p : PodData) (path : string) : option value :=
  walk (VMap (Parsed p)) (GoStrings.Split path ".").

(** [stringify(v)]. *)
Definition stringify `{GoRuntime} (v : value) : string :=
  match v with
  | VStr val => val
  | VNum val =>
      if Float64.eqb val (Float64.float64_of_int64 (int64_of_float64 val))
      then fmt_d (int64_of_float64 val)
      else fmt_g val
  | VBool val => fmt_t val
  | VNull => ""
  | _ => fmt_v v
  end.

(** [NewPodData(name, namespace)]; [None] is the nil pointer. *)
Definition NewPodData (name namespace : string) : option PodData :=
  if String.eqb name "" then None
  else Some {| Name := name; Namespace := namespace;
               RawJSON := ""; Parsed := ∅ |}.

(** The errors of [FetchPodJSON]: the error of the command, alone or
    wrapped with what the command wrote to its standard error, or the
    error of the decoder. *)
Inductive FetchError `{Host} : Type :=
  | ErrKubectl (err : OSError)
  | ErrKubectlStderr (err : OSError) (msg : string)
  | ErrUnmarshal (err : JSONError).

Section Fetch.
Context `{Host}.

(** The arguments [FetchPodJSON] passes to [kubectl]. *)
Definition kubectl_args (p : PodData) : list string :=
  let args := ["get"; "pod"; Name p; "-o"; "json"] in
  if negb (String.eqb (Namespace p) "") then (args ++ ["-n"; Namespace p])%list
  else args.

(** [(p *PodData) FetchPodJSON()]: the pod as the call leaves it behind
    its pointer, and the returned error. *)
Definition FetchPodJSON (p : PodData) : PodData * option FetchError :=
  match Output "kubectl" (kubectl_args p) with
  | inl (err, stderr) =>
      let msg := TrimSpace stderr in
      if negb (String.eqb msg "") then (p, Some (ErrKubectlStderr err msg))
      else (p, Some (ErrKubectl err))
  | inr out =>
      let p := {| Name := Name p; Namespace := Namespace p;
                  RawJSON := out; Parsed := Parsed p |} in
      match Unmarshal out with
      | inl err => (p, Some (ErrUnmarshal err))
      | inr parsed =>
          ({| Name := Name p; Namespace := Namespace p;
              RawJSON := RawJSON p; Parsed := parsed |}, None)
      end
  end.

End Fetch.

Section Pod.
Context `{GoRuntime}.

(** [(p *PodData) Labels()]. *)
Definition Labels (p : PodData) : gmap string string :=
  match ResolvePath p "metadata.labels" with
  | Some (VMap m) => stringify <$> m
  | _ => ∅
  end.

(** [flattenRecurse(prefix, val, out)]: the slice behind [out] after the
    call.  Go ranges over a map in an unspecified order; the model takes
    the order of [map_fold]. *)
Fixpoint flattenRecurse (prefix : string) (val : value) (out : list string)
    {struct val} : list string :=
  match val with
  | VMap v =>
      map_fold
        (fun k child out =>
           let path := if negb (String.eqb prefix "") then prefix ++ "." ++ k
                       else k in
           flattenRecurse path child out)
        out v
  | VArr v =>
      (fix elements (i : nat) (l : list value) (out : list string)
         : list string :=
         match l with
         | [] => out
         | child :: rest =>
             elements (S i) rest
               (flattenRecurse (prefix ++ "." ++ fmt_d (Z.of_nat i)) child out)
         end) 0%nat v out
  | _ => (out ++ [(prefix ++ " = " ++ stringify val)%string])%list
  end.

(** [(p *PodData) FlattenPaths()]. *)
Definition FlattenPaths (p : PodData) : list string :=
  GoSort.Strings (flattenRecurse "" (VMap (Parsed p)) []).

End Pod.

(** ** config.go *)

(** The [regexp] package: [regexp.Compile] ([None] is a non-nil error,
    whose text is not kept) and [Regexp.MatchString].  [Module RE2]
    below gives an instance. *)
Class RegexpPkg : Type := {
  Regexp : Type;
  Compile : string -> option Regexp;
  MatchString : Regexp -> string -> bool;
}.

(** [Condition]; [keyRe] and [valueRe] are nil until [ValidateConfig]
    stores the compiled patterns. *)
Record Condition `{RegexpPkg} : Type := {
  Path : string;
  KeyPattern : string;
  ValuePattern : string;
  Invert : bool;
  keyRe : option Regexp;
  valueRe : option Regexp;
}.

Record ItemFilters `{RegexpPkg} : Type := {
  Conditions : list Condition;
}.

(** [TemplateVar]; its [Path] field is [TVPath] here. *)
Record TemplateVar : Type := {
  TVPath : string;
  URLAppend : string;
}.

Record MenuItem `{RegexpPkg} : Type := {
  Description : string;
  Title : string;
  URL : string;
  Filters : ItemFilters;
  TemplateVars : list TemplateVar;
}.

Record Config `{RegexpPkg} : Type := {
  MenuItems : list MenuItem;
}.

(** The errors [ValidateConfig] returns, with the indices, title and
    pattern their messages carry. *)
Inductive ConfigError : Type :=
  | ErrNoMenuItems
  | ErrEmptyTitle (i : nat)
  | ErrEmptyURL (i : nat) (title : string)
  | ErrEmptyConditionPath (i : nat) (title : string) (j : nat)
  | ErrInvalidKeyPattern (i : nat) (title : string) (j : nat) (pattern : string)
  | ErrInvalidValuePattern (i : nat) (title : string) (j : nat) (pattern : string)
  | ErrEmptyTemplatePath (i : nat) (title : string) (j : nat)
  | ErrEmptyURLAppend (i : nat) (title : string) (j : nat).

(** [anchorPattern(p)]. *)
Definition anchorPattern (p : string) : string :=
  let p := if negb (GoStrings.HasPrefix p "^") then "^" ++ p else p in
  let p := if negb (GoStrings.HasSuffix p "$") then p ++ "$" else p in
  p.

(** The default applied to an omitted pattern. *)
Definition default_pattern (p : string) : string :=
  if String.eqb p "" then ".*" else p.

Section Config.
Context `{RegexpPkg}.

Definition set_patterns (c : Condition) (kp vp : string) : Condition :=
  {| Path := Path c; KeyPattern := kp; ValuePattern := vp;
     Invert := Invert c; keyRe := keyRe c; valueRe := valueRe c |}.

Definition set_keyRe (c : Condition) (re : Regexp) : Condition :=
  {| Path := Path c; KeyPattern := KeyPattern c;
     ValuePattern := ValuePattern c; Invert := Invert c;
     keyRe := Some re; valueRe := valueRe c |}.

Definition set_valueRe (c : Condition) (re : Regexp) : Condition :=
  {| Path := Path c; KeyPattern := KeyPattern c;
     ValuePattern := ValuePattern c; Invert := Invert c;
     keyRe := keyRe c; valueRe := Some re |}.

Definition set_Invert (c : Condition) (b : bool) : Condition :=
  {| Path := Path c; KeyPattern := KeyPattern c;
     ValuePattern := ValuePattern c; Invert := b;
     keyRe := keyRe c; valueRe := valueRe c |}.

Definition set_Conditions (item : MenuItem) (cs : list Condition) : MenuItem :=
  {| Description := Description item; Title := Title item; URL := URL item;
     Filters := {| Conditions := cs |}; TemplateVars := TemplateVars item |}.

(** The body of the loop over [item.Filters.Conditions] in
    [ValidateConfig], for condition [j] of item [i]: the condition as the
    body leaves it, and the error it returns, if any. *)
Definition validate_condition (i : nat) (title : string) (j : nat)
    (cond : Condition) : Condition * option ConfigError :=
  if String.eqb (Path cond) "" then
    (cond, Some (ErrEmptyConditionPath i title j))
  else
    let cond := set_patterns cond (default_pattern (KeyPattern cond))
                  (default_pattern (ValuePattern cond)) in
    match Compile (anchorPattern (KeyPattern cond)) with
    | None => (cond, Some (ErrInvalidKeyPattern i title j (KeyPattern cond)))
    | Some re =>
        let cond := set_keyRe cond re in
        match Compile (anchorPattern (ValuePattern cond)) with
        | None =>
            (cond, Some (ErrInvalidValuePattern i title j (ValuePattern cond)))
        | Some re => (set_valueRe cond re, None)
        end
    end.

(** The loop over the conditions of item [i], from index [j] on; it stops
    at the first error and leaves the later conditions as they are. *)
Fixpoint validate_conditions (i : nat) (title : string) (j : nat)
    (conds : list Condition) : list Condition * option ConfigError :=
  match conds with
  | [] => ([], None)
  | cond :: rest =>
      match validate_condition i title j cond with
      | (cond', Some err) => (cond' :: rest, Some err)
      | (cond', None) =>
          let '(rest', err) := validate_conditions i title (S j) rest in
          (cond' :: rest', err)
      end
  end.

(** The loop over [item.TemplateVars], from index [j] on. *)
Fixpoint validate_templateVars (i : nat) (title : string) (j : nat)
    (tvs : list TemplateVar) : option ConfigError :=
  match tvs with
  | [] => None
  | tv :: rest =>
      if String.eqb (TVPath tv) "" then Some (ErrEmptyTemplatePath i title j)
      else if String.eqb (URLAppend tv) "" then
        Some (ErrEmptyURLAppend i title j)
      else validate_templateVars i title (S j) rest
  end.

(** The body of the loop over [cfg.MenuItems], for item [i]. *)
Definition validate_item (i : nat) (item : MenuItem)
    : MenuItem * option ConfigError :=
  if String.eqb (Title item) "" then (item, Some (ErrEmptyTitle i))
  else if String.eqb (URL item) "" then
    (item, Some (ErrEmptyURL i (Title item)))
  else
    let '(conds, err) :=
      validate_conditions i (Title item) 0 (Conditions (Filters item)) in
    let item := set_Conditions item conds in
    match err with
    | Some e => (item, Some e)
    | None => (item, validate_templateVars i (Title item) 0 (TemplateVars item))
    end.

(** The loop over [cfg.MenuItems], from index [i] on. *)
Fixpoint validate_items (i : nat) (items : list MenuItem)
    : list MenuItem * option ConfigError :=
  match items with
  | [] => ([], None)
  | item :: rest =>
      match validate_item i item with
      | (item', Some err) => (item' :: rest, Some err)
      | (item', None) =>
          let '(rest', err) := validate_items (S i) rest in
          (item' :: rest', err)
      end
  end.

(** [ValidateConfig(cfg)]: the configuration as the call leaves it behind
    its pointer, and the returned error ([None] is nil). *)
Definition ValidateConfig (cfg : Config) : Config * option ConfigError :=
  if (length (MenuItems cfg) =? 0)%nat then (cfg, Some ErrNoMenuItems)
  else
    let '(items, err) := validate_items 0 (MenuItems cfg) in
    ({| MenuItems := items |}, err).

Context `{GoRuntime}.

(** The loop of [matchMap] over the entries of the map. *)
Fixpoint match_entries (c : Condition) (kvs : list (string * value))
    : option bool :=
  match kvs with
  | [] => Some false
  | (k, v) :: rest =>
      kre ← keyRe c;
      if MatchString kre k then
        vre ← valueRe c;
        if MatchString vre (stringify v) then Some true
        else match_entries c rest
      else match_entries c rest
  end.

(** [(c *Condition) matchMap(m)].  Go ranges over a map in an unspecified
    order; the model takes the entries in the order of [map_to_list]. *)
Definition matchMap (c : Condition) (m : gmap string value) : option bool :=
  match_entries c (map_to_list m).

(** [(c *Condition) matchArray(arr)]. *)
Fixpoint matchArray (c : Condition) (arr : list value) : option bool :=
  match arr with
  | [] => Some false
  | v :: rest =>
      vre ← valueRe c;
      if MatchString vre (stringify v) then Some true
      else matchArray c rest
  end.

(** [(c *Condition) Evaluate(pd)]; a nil [pd] is dereferenced by
    [ResolvePath]. *)
Definition Evaluate (c : Condition) (pd : option PodData) : option bool :=
  p ← pd;
  matched ←
    match ResolvePath p (Path c) with
    | None | Some VNull => Some false
    | Some (VMap v) => matchMap c v
    | Some (VArr v) => matchArray c v
    | Some val => vre ← valueRe c; Some (MatchString vre (stringify val))
    end;
  Some (if Invert c then negb matched else matched).

(** The loop of [MatchesPod] over the conditions. *)
Fixpoint all_pass (conds : list Condition) (pd : option PodData)
    : option bool :=
  match conds with
  | [] => Some true
  | c :: rest =>
      b ← Evaluate c pd;
      if negb b then Some false else all_pass rest pd
  end.

(** [(item MenuItem) MatchesPod(pd)]. *)
Definition MatchesPod (item : MenuItem) (pd : option PodData) : option bool :=
  all_pass (Conditions (Filters item)) pd.

(** [(tv TemplateVar) resolve(pd)]. *)
Definition resolve (tv : TemplateVar) (pd : option PodData) : string :=
  match pd with
  | None => ""
  | Some p =>
      match ResolvePath p (TVPath tv) with
      | None => ""
      | Some val => stringify val
      end
  end.

(** One iteration of the loop of [ResolveURL]. *)
Definition append_templateVar (pd : option PodData) (url : string)
    (tv : TemplateVar) : string :=
  let val := resolve tv pd in
  if String.eqb val "" then url
  else url ++ GoStrings.ReplaceAll (URLAppend tv) "$VALUE" val.

(** [(item MenuItem) ResolveURL(pd)]. *)
Definition ResolveURL (item : MenuItem) (pd : option PodData) : string :=
  fold_left (append_templateVar pd) (TemplateVars item) (URL item).

(** The loop of [FilterMenuItems]: [filtered] is the slice built so far. *)
Fixpoint filter_loop (filtered items : list MenuItem) (pd : option PodData)
    : option (list MenuItem) :=
  match items with
  | [] => Some filtered
  | item :: rest =>
      match pd with
      | None =>
          if (length (Conditions (Filters item)) =? 0)%nat
          then filter_loop (filtered ++ [item])%list rest pd
          else filter_loop filtered rest pd
      | Some _ =>
          b ← MatchesPod item pd;
          if (b : bool) then filter_loop (filtered ++ [item])%list rest pd
          else filter_loop filtered rest pd
      end
  end.

(** [FilterMenuItems(items, pd)]. *)
Definition FilterMenuItems (items : list MenuItem) (pd : option PodData)
    : option (list MenuItem) :=
  filter_loop [] items pd.

End Config.

(** ** config.go, continued: [LoadConfig] *)

(** [json.Unmarshal(data, &cfg)] for a zero [cfg Config]. *)
Class ConfigJSON `{RegexpPkg} `{Host} : Type := {
  Unmarshal_Config : string -> JSONError + Config;
}.

(** The errors of [LoadConfig]: ["read config: ..."], ["parse config:
    ..."], or the error of [ValidateConfig]. *)
Inductive LoadError `{Host} : Type :=
  | ErrReadConfig (err : OSError)
  | ErrParseConfig (err : JSONError)
  | ErrInvalidConfig (err : ConfigError).

(** [LoadConfig(path)]. *)
Definition LoadConfig `{ConfigJSON} (path : string)
    : Config * option LoadError :=
  match ReadFile path with
  | inl err => ({| MenuItems := [] |}, Some (ErrReadConfig err))
  | inr data =>
      match Unmarshal_Config data with
      | inl err => ({| MenuItems := [] |}, Some (ErrParseConfig err))
      | inr cfg =>
          match ValidateConfig cfg with
          | (_, Some err) =>
              ({| MenuItems := [] |}, Some (ErrInvalidConfig err))
          | (cfg, None) => (cfg, None)
          end
      end
  end.

(** ** main.go *)

(** The escape character, written [\033] in the source. *)
Definition esc : string := String (ascii_of_nat 27) "".

(** [labelColors]: ten ANSI colors. *)
Definition labelColors : list string :=
  [ esc ++ "[38;5;204m"; esc ++ "[38;5;114m"; esc ++ "[38;5;209m";
    esc ++ "[38;5;75m"; esc ++ "[38;5;219m"; esc ++ "[38;5;186m";
    esc ++ "[38;5;80m"; esc ++ "[38;5;147m"; esc ++ "[38;5;174m";
    esc ++ "[38;5;115m" ].

Definition colorReset : string := esc ++ "[0m".

(** [colorForKey(key)]; [None] is an index out of range. *)
Definition colorForKey (key : string) : option string :=
  let h := FNV.Write FNV.New32a key in
  labelColors !! Z.to_nat (FNV.Sum32 h mod Z.of_nat (length labelColors)).

Section Main.
Context `{Host}.

(** [main], the pod context: [NewPodData] and, for a pod, [FetchPodJSON],
    whose error [main] reports and goes on. *)
Definition main_pod (pod namespace : string)
    : option PodData * option FetchError :=
  match NewPodData pod namespace with
  | None => (None, None)
  | Some pd => let '(pd, err) := FetchPodJSON pd in (Some pd, err)
  end.

End Main.

(** ** A [regexp] engine for a fragment of the RE2 syntax

    Modelled from the documentation of Go's [regexp/syntax]: literals,
    [.], [^], [$], escaped punctuation, the repetitions [*], [+], [?]
    (and their non-greedy forms), alternation [|], and the groups [(...)]
    and [(?:...)], under the default flags of [regexp.Compile] ([^] and
    [$] match at the beginning and the end of the text, [.] does not match
    a newline).  A pattern that uses anything else (a [[] or a [{], so
    character classes and counted repetition; flag groups and named
    groups; a backslash followed by a letter or a digit; non-ASCII bytes)
    is outside the fragment, and this engine rejects it.  Text is
    matched byte by byte, which agrees with Go on ASCII text. *)

Module RE2.

Inductive re : Type :=
  | Empty                     (* the empty match *)
  | Lit (c : ascii)           (* a literal byte *)
  | AnyCharNotNL              (* . *)
  | BeginText                 (* ^ *)
  | EndText                   (* $ *)
  | Cat (r1 r2 : re)
  | Alt (r1 r2 : re)
  | Star (r : re)
  | Plus (r : re)
  | Quest (r : re).

(** *** Parsing, with the operator stack of [regexp/syntax] *)

(** One nesting level: the alternatives already closed by a [|] and the
    items of the current concatenation, both latest first. *)
Record frame : Type := { alts : list re; items : list re }.

Definition empty_frame : frame := {| alts := []; items := [] |}.

Definition push_item (r : re) (f : frame) : frame :=
  {| alts := alts f; items := r :: items f |}.

(** The items [rs], given latest first, concatenated in front of [tail]. *)
Definition wrap (rs : list re) (tail : re) : re :=
  fold_left (fun acc r' => Cat r' acc) rs tail.

(** The concatenation of items given latest first. *)
Definition concat_items (rs : list re) : re :=
  match rs with
  | [] => Empty
  | r :: rs' => wrap rs' r
  end.

(** The alternation of alternatives given latest first. *)
Definition alternate (rs : list re) (last : re) : re :=
  fold_left (fun acc r' => Alt r' acc) rs last.

Definition close_frame (f : frame) : re :=
  alternate (alts f) (concat_items (items f)).

Definition is_alnum (c : ascii) : bool :=
  let n := nat_of_ascii c in
  ((48 <=? n) && (n <=? 57) || (65 <=? n) && (n <=? 90)
   || (97 <=? n) && (n <=? 122))%nat.

Definition is_ascii (c : ascii) : bool := (nat_of_ascii c <? 128)%nat.

(** What the previous token was: not a repetition, a repetition operator
    (a [?] may still make it non-greedy), or a completed repetition. *)
Inductive rep_state : Type := NoRep | RepOp | RepDone.

Definition apply_rep (c : ascii) (r : re) : re :=
  if Ascii.eqb c "*" then Star r
  else if Ascii.eqb c "+" then Plus r
  else Quest r.

(** The parse loop: [cur] is the innermost open level, [stack] the
    enclosing ones.  [None] is a syntax error (or a pattern outside the
    fragment). *)
Fixpoint parse_loop (s : string) (cur : frame) (stack : list frame)
    (rep : rep_state) : option re :=
  match s with
  | EmptyString =>
      match stack with
      | [] => Some (close_frame cur)
      | _ :: _ => None                       (* missing closing ) *)
      end
  | String c s' =>
      if Ascii.eqb c "(" then
        match s' with
        | String "?" (String ":" s'') =>
            parse_loop s'' empty_frame (cur :: stack) NoRep
        | String "?" _ => None               (* flags: outside the fragment *)
        | _ => parse_loop s' empty_frame (cur :: stack) NoRep
        end
      else if Ascii.eqb c ")" then
        match stack with
        | [] => None                         (* unexpected ) *)
        | f :: stack' =>
            parse_loop s' (push_item (close_frame cur) f) stack' NoRep
        end
      else if Ascii.eqb c "|" then
        parse_loop s'
          {| alts := concat_items (items cur) :: alts cur; items := [] |}
          stack NoRep
      else if Ascii.eqb c "*" || Ascii.eqb c "+" || Ascii.eqb c "?" then
        match rep, items cur with
        | NoRep, r :: rs =>
            parse_loop s' {| alts := alts cur; items := apply_rep c r :: rs |}
              stack RepOp
        | NoRep, [] => None                  (* missing argument *)
        | RepOp, _ =>
            if Ascii.eqb c "?" then parse_loop s' cur stack RepDone
            else None                        (* nested repetition *)
        | RepDone, _ => None                 (* nested repetition *)
        end
      else if Ascii.eqb c "\" then
        match s' with
        | String e s'' =>
            if is_ascii e && negb (is_alnum e)
            then parse_loop s'' (push_item (Lit e) cur) stack NoRep
            else None                        (* outside the fragment *)
        | EmptyString => None                (* trailing backslash *)
        end
      else if Ascii.eqb c "[" || Ascii.eqb c "{" || negb (is_ascii c) then
        None                                 (* outside the fragment *)
      else if Ascii.eqb c "." then
        parse_loop s' (push_item AnyCharNotNL cur) stack NoRep
      else if Ascii.eqb c "^" then
        parse_loop s' (push_item BeginText cur) stack NoRep
      else if Ascii.eqb c "$" then
        parse_loop s' (push_item EndText cur) stack NoRep
      else parse_loop s' (push_item (Lit c) cur) stack NoRep
  end.

Definition parse (s : string) : option re := parse_loop s empty_frame [] NoRep.

(** *** Matching *)

Definition newline : ascii := ascii_of_nat 10.

(** [accepts r bot s k]: [r] matches a prefix of the rest [s] of the text
    ([bot] tells whether [s] is the whole text) and the continuation [k]
    accepts what follows.  A repetition only iterates on a match that
    consumed text, so [length s] iterations are enough. *)
Fixpoint accepts (r : re) (bot : bool) (s : string)
    (k : bool -> string -> bool) {struct r} : bool :=
  match r with
  | Empty => k bot s
  | Lit c =>
      match s with
      | String c' s' => Ascii.eqb c c' && k false s'
      | EmptyString => false
      end
  | AnyCharNotNL =>
      match s with
      | String c' s' => negb (Ascii.eqb c' newline) && k false s'
      | EmptyString => false
      end
  | BeginText => bot && k bot s
  | EndText => String.eqb s "" && k bot s
  | Cat r1 r2 => accepts r1 bot s (fun b t => accepts r2 b t k)
  | Alt r1 r2 => accepts r1 bot s k || accepts r2 bot s k
  | Star r1 =>
      (fix iterate (n : nat) (b : bool) (t : string) {struct n} : bool :=
         k b t ||
         match n with
         | O => false
         | S n' =>
             accepts r1 b t
               (fun b' t' =>
                  (String.length t' <? String.length t)%nat && iterate n' b' t')
         end) (String.length s) bot s
  | Plus r1 =>
      accepts r1 bot s
        (fun b0 t0 =>
           (fix iterate (n : nat) (b : bool) (t : string) {struct n} : bool :=
              k b t ||
              match n with
              | O => false
              | S n' =>
                  accepts r1 b t
                    (fun b' t' =>
                       (String.length t' <? String.length t)%nat
                       && iterate n' b' t')
              end) (String.length t0) b0 t0)
  | Quest r1 => accepts r1 bot s k || k bot s
  end.

(** A match of [r] that starts at the current position. *)
Definition match_here (r : re) (bot : bool) (s : string) : bool :=
  accepts r bot s (fun _ _ => true).

(** A match of [r] that starts at some position of [s]. *)
Fixpoint search (r : re) (bot : bool) (s : string) : bool :=
  match_here r bot s ||
  match s with
  | EmptyString => false
  | String _ s' => search r false s'
  end.

(** [re.MatchString(s)]: the text contains a match. *)
Definition match_string (r : re) (s : string) : bool := search r true s.

(** The whole text [s] is a match of [r]. *)
Definition full_match (r : re) (s : string) : bool :=
  accepts r true s (fun _ t => String.eqb t "").

#[export] Instance engine : RegexpPkg :=
  {| Regexp := re; Compile := parse; MatchString := match_string |}.

(** *** Sources without operators *)

(** A byte that stands for itself in a pattern. *)
Definition is_plain (c : ascii) : bool :=
  negb (Ascii.eqb c "(" || Ascii.eqb c ")" || Ascii.eqb c "|"
        || Ascii.eqb c "*" || Ascii.eqb c "+" || Ascii.eqb c "?"
        || Ascii.eqb c "\" || Ascii.eqb c "[" || Ascii.eqb c "{"
        || negb (is_ascii c)
        || Ascii.eqb c "." || Ascii.eqb c "^" || Ascii.eqb c "$").

Fixpoint all_plain (s : string) : bool :=
  match s with
  | EmptyString => true
  | String c s' => is_plain c && all_plain s'
  end.

(** The bytes of [s], one literal each, in front of [tail]. *)
Fixpoint literal (s : string) (tail : re) : re :=
  match s with
  | EmptyString => tail
  | String c s' => Cat (Lit c) (literal s' tail)
  end.

(** The frame after the parse loop has read the plain bytes of [s]. *)
Fixpoint push_literal (s : string) (f : frame) : frame :=
  match s with
  | EmptyString => f
  | String c s' => push_literal s' (push_item (Lit c) f)
  end.

End RE2.

(** ** A runtime for the examples

    linux/amd64: a conversion [int64(f)] that overflows yields the
    "integer indefinite" value [-2^63].  The verbs [%g] and [%v] are
    tabulated on the values the examples print, as Go prints them; on
    every other value they print a placeholder. *)

Definition amd64_fmt_g (f : float64) : string :=
  if Float64.eqb f Float64.two_pow_64 then "1.8446744073709552e+19"
  else if Float64.eqb f Float64.two_pow_63 then "9.223372036854776e+18"
  else if Float64.eqb f Float64.two_and_a_half then "2.5"
  else "?".

Definition amd64_fmt_v (v : value) : string :=
  match v with
  | VArr [] => "[]"
  | VArr [VStr a] => "[" ++ a ++ "]"
  | VArr [VStr a; VStr b] => "[" ++ a ++ " " ++ b ++ "]"
  | VMap m => if (size m =? 0)%nat then "map[]" else "map[?]"
  | _ => "[?]"
  end.

#[export] Program Instance amd64 : GoRuntime :=
  {| int64_overflow := fun _ => Float64.min_int64;
     fmt_g := amd64_fmt_g;
     fmt_v := amd64_fmt_v |}.
Next Obligation.
  intros f. unfold amd64_fmt_g.
  repeat match goal with |- context [if ?b then _ else _] => destruct b end;
    discriminate.
Qed.
Next Obligation.
  intros l. destruct l as [|[] [|[] []]]; discriminate.
Qed.
Next Obligation.
  intros m. simpl. destruct (size m =? 0)%nat; discriminate.
Qed.

(** ** Specifications *)

(** The relation [ResolvePath] computes: from [current], the segments
    lead to the value [v] through maps only. *)
Inductive reaches : value -> list string -> value -> Prop :=
  | reaches_here (v : value) : reaches v [] v
  | reaches_step (m : gmap string value) (seg : string) (rest : list string)
      (next v : value) :
      m !! seg = Some next -> reaches next rest v ->
      reaches (VMap m) (seg :: rest) v.

(** The first error of a list of checks. *)
Fixpoint first_error (checks : list (option ConfigError)) : option ConfigError :=
  match checks with
  | [] => None
  | Some e :: _ => Some e
  | None :: rest => first_error rest
  end.

(** The concatenation of a list of strings. *)
Definition concat_strings (l : list string) : string :=
  fold_right String.append "" l.

(** A template variable is well-formed. *)
Definition tv_ok (tv : TemplateVar) : Prop :=
  TVPath tv <> "" /\ URLAppend tv <> "".

(** The error of template variable [j] of item [i], if it has one. *)
Definition tv_error (i : nat) (title : string) (j : nat) (tv : TemplateVar)
    : option ConfigError :=
  if String.eqb (TVPath tv) "" then Some (ErrEmptyTemplatePath i title j)
  else if String.eqb (URLAppend tv) "" then Some (ErrEmptyURLAppend i title j)
  else None.

Section Specifications.
Context `{RegexpPkg}.

(** Both patterns of a condition are compiled. *)
Definition compiled (c : Condition) : Prop :=
  is_Some (keyRe c) /\ is_Some (valueRe c).

(** A condition is well-formed: its path is not empty and its patterns,
    once defaulted and anchored, compile. *)
Definition cond_ok (c : Condition) : Prop :=
  Path c <> ""
  /\ is_Some (Compile (anchorPattern (default_pattern (KeyPattern c))))
  /\ is_Some (Compile (anchorPattern (default_pattern (ValuePattern c)))).

Definition item_ok (item : MenuItem) : Prop :=
  Title item <> "" /\ URL item <> ""
  /\ Forall cond_ok (Conditions (Filters item))
  /\ Forall tv_ok (TemplateVars item).

(** The error of condition [j] of item [i], if it has one: the path is
    checked first, then the key pattern, then the value pattern. *)
Definition cond_error (i : nat) (title : string) (j : nat) (c : Condition)
    : option ConfigError :=
  if String.eqb (Path c) "" then Some (ErrEmptyConditionPath i title j)
  else
    match Compile (anchorPattern (default_pattern (KeyPattern c))),
          Compile (anchorPattern (default_pattern (ValuePattern c))) with
    | None, _ =>
        Some (ErrInvalidKeyPattern i title j (default_pattern (KeyPattern c)))
    | Some _, None =>
        Some (ErrInvalidValuePattern i title j
                (default_pattern (ValuePattern c)))
    | Some _, Some _ => None
    end.

(** The error of item [i], if it has one: title, url, the conditions in
    order, then the template variables in order. *)
Definition item_error (i : nat) (item : MenuItem) : option ConfigError :=
  if String.eqb (Title item) "" then Some (ErrEmptyTitle i)
  else if String.eqb (URL item) "" then Some (ErrEmptyURL i (Title item))
  else
    match first_error
            (imap (cond_error i (Title item)) (Conditions (Filters item))) with
    | Some e => Some e
    | None => first_error (imap (tv_error i (Title item)) (TemplateVars item))
    end.

(** The error of a configuration, if it has one. *)
Definition config_error (cfg : Config) : option ConfigError :=
  match MenuItems cfg with
  | [] => Some ErrNoMenuItems
  | items => first_error (imap item_error items)
  end.

(** A condition with its patterns defaulted and compiled. *)
Definition compiled_condition (c : Condition) : Condition :=
  {| Path := Path c;
     KeyPattern := default_pattern (KeyPattern c);
     ValuePattern := default_pattern (ValuePattern c);
     Invert := Invert c;
     keyRe := Compile (anchorPattern (default_pattern (KeyPattern c)));
     valueRe := Compile (anchorPattern (default_pattern (ValuePattern c))) |}.

Definition compiled_item (item : MenuItem) : MenuItem :=
  set_Conditions item (map compiled_condition (Conditions (Filters item))).

(** What [ValidateConfig] may have done to a condition: nothing but
    defaulting a pattern source and storing a compiled pattern. *)
Definition pattern_state_only (c c' : Condition) : Prop :=
  Path c' = Path c /\ Invert c' = Invert c
  /\ (KeyPattern c' = KeyPattern c
      \/ KeyPattern c = "" /\ KeyPattern c' = ".*")
  /\ (ValuePattern c' = ValuePattern c
      \/ ValuePattern c = "" /\ ValuePattern c' = ".*")
  /\ (keyRe c' = keyRe c
      \/ keyRe c' = Compile (anchorPattern (KeyPattern c')))
  /\ (valueRe c' = valueRe c
      \/ valueRe c' = Compile (anchorPattern (ValuePattern c'))).

(** A configuration without the pattern state of its conditions. *)
Definition erase_condition (c : Condition) : string * bool :=
  (Path c, Invert c).

Definition erase_item (item : MenuItem)
    : string * string * string * list (string * bool) * list TemplateVar :=
  (Description item, Title item, URL item,
   map erase_condition (Conditions (Filters item)), TemplateVars item).

Definition erase_config (cfg : Config) :=
  map erase_item (MenuItems cfg).

Context `{GoRuntime}.

(** What a template variable contributes to the URL. *)
Definition fragment (pd : option PodData) (tv : TemplateVar) : string :=
  match pd with
  | None => ""
  | Some p =>
      match ResolvePath p (TVPath tv) with
      | None | Some VNull | Some (VStr EmptyString) => ""
      | Some val =>
          GoStrings.ReplaceAll (URLAppend tv) "$VALUE" (stringify val)
      end
  end.

End Specifications.

(** A value that is a map. *)
Definition is_map (v : value) : bool :=
  match v with
  | VMap _ => true
  | _ => false
  end.

(** A value that is neither a map nor a slice. *)
Definition is_scalar (v : value) : bool :=
  match v with
  | VMap _ | VArr _ => false
  | _ => true
  end.

(** The size of a value, to reason by induction on values nested in maps
    and slices. *)
Fixpoint value_size (v : value) : nat :=
  match v with
  | VMap m => S (map_fold (fun _ child n => value_size child + n) 0 m)
  | VArr l => S (foldr (fun child n => value_size child + n) 0 l)
  | _ => 1
  end.

Section FlattenSpec.
Context `{GoRuntime}.

(** [flattenRecurse] with the maps ranged over in any order. *)
Inductive flattens : string -> value -> list string -> list string -> Prop :=
  | flattens_map (prefix : string) (m : gmap string value)
      (kvs : list (string * value)) (out out' : list string) :
      kvs ≡ₚ map_to_list m ->
      flattens_entries prefix kvs out out' ->
      flattens prefix (VMap m) out out'
  | flattens_slice (prefix : string) (l : list value) (out out' : list string) :
      flattens_elements prefix 0 l out out' ->
      flattens prefix (VArr l) out out'
  | flattens_scalar (prefix : string) (v : value) (out : list string) :
      is_scalar v = true ->
      flattens prefix v out (out ++ [prefix ++ " = " ++ stringify v])
with flattens_entries
  : string -> list (string * value) -> list string -> list string -> Prop :=
  | flattens_entries_nil (prefix : string) (out : list string) :
      flattens_entries prefix [] out out
  | flattens_entries_cons (prefix k : string) (child : value)
      (rest : list (string * value)) (out out1 out2 : list string) :
      flattens (if negb (String.eqb prefix "") then prefix ++ "." ++ k else k)
        child out out1 ->
      flattens_entries prefix rest out1 out2 ->
      flattens_entries prefix ((k, child) :: rest) out out2
with flattens_elements
  : string -> nat -> list value -> list string -> list string -> Prop :=
  | flattens_elements_nil (prefix : string) (i : nat) (out : list string) :
      flattens_elements prefix i [] out out
  | flattens_elements_cons (prefix : string) (i : nat) (child : value)
      (rest : list value) (out out1 out2 : list string) :
      flattens (prefix ++ "." ++ fmt_d (Z.of_nat i)) child out out1 ->
      flattens_elements prefix (S i) rest out1 out2 ->
      flattens_elements prefix i (child :: rest) out out2.

Scheme flattens_ind' := Minimality for flattens Sort Prop
  with flattens_entries_ind' := Minimality for flattens_entries Sort Prop
  with flattens_elements_ind' := Minimality for flattens_elements Sort Prop.

Combined Scheme flattens_mutind
  from flattens_ind', flattens_entries_ind', flattens_elements_ind'.

End FlattenSpec.

Section FlattenLoops.
Context `{GoRuntime}.

(** The path [flattenRecurse] gives the entry [k] of a map, the path it
    gives element [i] of a slice, and its two loops. *)
Definition child_path (prefix k : string) : string :=
  if negb (String.eqb prefix "") then prefix ++ "." ++ k else k.

Definition index_path (prefix : string) (i : nat) : string :=
  prefix ++ "." ++ fmt_d (Z.of_nat i).

Definition flatten_entry (prefix k : string) (child : value)
    (out : list string) : list string :=
  flattenRecurse (child_path prefix k) child out.

Definition flatten_elements (prefix : string)
    : nat -> list value -> list string -> list string :=
  fix elements (i : nat) (l : list value) (out : list string) : list string :=
    match l with
    | [] => out
    | child :: rest =>
        elements (S i) rest (flattenRecurse (index_path prefix i) child out)
    end.

End FlattenLoops.

Section Filters.
Context `{RegexpPkg} `{GoRuntime}.

(** Every condition of the item is inverted. *)
Definition all_inverted (item : MenuItem) : bool :=
  forallb Invert (Conditions (Filters item)).

(** Whether the loop of [FilterMenuItems] keeps an item. *)
Definition kept (pd : option PodData) (item : MenuItem) : Prop :=
  match pd with
  | None => length (Conditions (Filters item)) = 0%nat
  | Some _ => MatchesPod item pd = Some true
  end.

#[export] Instance kept_dec (pd : option PodData) (item : MenuItem) :
  Decision (kept pd item).
Proof. unfold kept. destruct pd; apply _. Defined.

End Filters.

(** ** Example data: the pods and the configuration of config_test.go *)

Module Examples.

#[local] Existing Instance RE2.engine.

Definition obj (fields : list (string * value)) : value :=
  VMap (list_to_map fields).

Definition pod (fields : list (string * value)) : PodData :=
  {| Name := "test-pod"; Namespace := "default"; RawJSON := "";
     Parsed := list_to_map fields |}.

Definition podNginxProd : PodData :=
  pod [ ("apiVersion", VStr "v1"); ("kind", VStr "Pod");
        ("metadata",
          obj [ ("name", VStr "nginx-abc123");
                ("namespace", VStr "production");
                ("labels",
                  obj [ ("app", VStr "nginx"); ("env", VStr "production");
                        ("team", VStr "platform") ]);
                ("annotations",
                  obj [ ("prometheus.io/scrape", VStr "true");
                        ("prometheus.io/port", VStr "9090") ]) ]);
        ("spec",
          obj [ ("nodeName", VStr "prod-pool-node-01");
                ("containers",
                  VArr [ obj [ ("name", VStr "nginx");
                               ("image", VStr "nginx:1.25") ];
                         obj [ ("name", VStr "sidecar");
                               ("image", VStr "envoy:1.28") ] ]);
                ("restartPolicy", VStr "Always") ]);
        ("status",
          obj [ ("phase", VStr "Running");
                ("conditions",
                  VArr [ obj [ ("type", VStr "Ready");
                               ("status", VStr "True") ] ]) ]) ].

Definition podRedisStaging : PodData :=
  pod [ ("apiVersion", VStr "v1"); ("kind", VStr "Pod");
        ("metadata",
          obj [ ("name", VStr "redis-xyz789");
                ("namespace", VStr "staging");
                ("labels",
                  obj [ ("app", VStr "redis"); ("env", VStr "staging") ]) ]);
        ("spec",
          obj [ ("nodeName", VStr "staging-node-03");
                ("containers",
                  VArr [ obj [ ("name", VStr "redis");
                               ("image", VStr "redis:7") ] ]) ]);
        ("status", obj [ ("phase", VStr "Running") ]) ].

Definition podNoLabels : PodData :=
  pod [ ("apiVersion", VStr "v1"); ("kind", VStr "Pod");
        ("metadata",
          obj [ ("name", VStr "bare-pod"); ("namespace", VStr "default") ]);
        ("spec", obj [ ("nodeName", VStr "default-node-01") ]);
        ("status", obj [ ("phase", VStr "Pending") ]) ].

(** A pod with an explicit null, an empty label value, numbers, a boolean
    and a list of strings. *)
Definition podOddValues : PodData :=
  pod [ ("metadata",
          obj [ ("name", VStr "odd");
                ("deletionTimestamp", VNull);
                ("labels", obj [ ("app", VStr ""); ("tier", VStr "web") ]);
                ("finalizers", VArr [ VStr "a/b"; VStr "c/d" ]) ]);
        ("spec",
          obj [ ("priority", VNum Float64.f8080);
                ("weight", VNum Float64.two_and_a_half);
                ("big", VNum Float64.two_pow_64);
                ("hostNetwork", VBool true) ]) ].

(** A pod whose JSON has an empty key. *)
Definition podEmptyKey : PodData :=
  pod [ ("", VStr "x"); ("a", obj [ ("", obj [ ("b", VStr "y") ]) ]) ].

(** A condition as [encoding/json] decodes it: nothing compiled yet. *)
Definition cond (path kp vp : string) (inv : bool) : Condition :=
  {| Path := path; KeyPattern := kp; ValuePattern := vp; Invert := inv;
     keyRe := None; valueRe := None |}.

Definition menu_item (title url : string) (conds : list Condition)
    (tvs : list TemplateVar) : MenuItem :=
  {| Description := ""; Title := title; URL := url;
     Filters := {| Conditions := conds |}; TemplateVars := tvs |}.

(** [mustCompileCondition] of the tests. *)
Definition mustCompileCondition (c : Condition) : option Condition :=
  match ValidateConfig {| MenuItems := [menu_item "test" "http://test" [c] []] |} with
  | ({| MenuItems := [item] |}, None) => head (Conditions (Filters item))
  | _ => None
  end.

(** The configuration of [TestEndToEnd_MultiPodFilterAndResolve]. *)
Definition endToEnd : Config :=
  {| MenuItems :=
       [ menu_item "Nginx Prod Dashboard" "https://grafana.example.com/nginx"
           [ cond "metadata.labels" "app" "nginx" false;
             cond "metadata.labels" "env" "production" false ] [];
         menu_item "Any App Dashboard" "https://grafana.example.com/apps"
           [ cond "metadata.labels" "app" "" false ]
           [ {| TVPath := "metadata.labels.app"; URLAppend := "?app=$VALUE" |} ];
         menu_item "Running Pods Only" "https://example.com/running"
           [ cond "status.phase" "" "Running" false ] [];
         menu_item "Prod Nodes" "https://example.com/nodes"
           [ cond "spec.nodeName" "" "prod-.*" false ]
           [ {| TVPath := "spec.nodeName"; URLAppend := "?node=$VALUE" |} ];
         menu_item "Always Visible" "https://google.com" [] [] ] |}.

(** A configuration whose second item has a pattern that does not
    compile, after one that does. *)
Definition brokenConfig : Config :=
  {| MenuItems :=
       [ menu_item "first" "http://a" [ cond "metadata.labels" "app" "" true ] [];
         menu_item "second" "http://b"
           [ cond "status.phase" "" "Running" false;
             cond "metadata.labels" "ok" "(unclosed" false;
             cond "" "" "" false ]
           [ {| TVPath := ""; URLAppend := "" |} ];
         menu_item "" "" [] [] ] |}.

(** The configuration of the test case "no items". *)
Definition noItems : Config := {| MenuItems := [] |}.

(** Two compiled conditions and the validated items of [endToEnd]. *)
Definition appNginx : Condition :=
  compiled_condition (cond "metadata.labels" "app" "nginx" false).

Definition hasLabelsApp : Condition :=
  compiled_condition (cond "metadata.labels" "app" "" false).

Definition endToEndItems : list MenuItem :=
  MenuItems (ValidateConfig endToEnd).1.

Definition nginxProdItem : MenuItem :=
  compiled_item
    (menu_item "Nginx Prod Dashboard" "https://grafana.example.com/nginx"
       [ cond "metadata.labels" "app" "nginx" false;
         cond "metadata.labels" "env" "production" false ] []).

(** A pod whose only label key contains, but is not, [app]. *)
Definition podApplication : PodData :=
  pod [ ("metadata",
          obj [ ("name", VStr "p");
                ("labels", obj [ ("application", VStr "x") ]) ]) ].

(** Validate a lone condition, then evaluate it. *)
Definition evaluate (c : Condition) (pd : PodData) : option bool :=
  c' ← mustCompileCondition c; Evaluate c' (Some pd).

(** [strings.TrimSpace] on ASCII text. *)
Definition is_space (c : ascii) : bool :=
  let n := nat_of_ascii c in
  (n =? 32)%nat || ((9 <=? n)%nat && (n <=? 13)%nat).

Fixpoint trim_left (s : string) : string :=
  match s with
  | EmptyString => EmptyString
  | String c s' => if is_space c then trim_left s' else s
  end.

Fixpoint trim_right (s : string) : string :=
  match s with
  | EmptyString => EmptyString
  | String c s' =>
      match trim_right s' with
      | EmptyString => if is_space c then EmptyString else String c EmptyString
      | t => String c t
      end
  end.

(** A host on which [kubectl] cannot reach the cluster and there is no
    configuration file. *)
#[export] Instance kubectl_down : Host :=
  {| OSError := string;
     JSONError := string;
     ReadFile := fun _ => inl "open config.json: no such file or directory";
     Output := fun _ _ =>
       inl ("exit status 1",
            "Unable to connect to the server" ++ String (ascii_of_nat 10) "");
     Unmarshal := fun _ => inl "unexpected end of JSON input";
     TrimSpace := fun s => trim_right (trim_left s) |}.

(** A pod without data. *)
Definition podNoData : PodData := pod [].

(** A small pod. *)
Definition podSmall : PodData :=
  pod [ ("a", VStr "x"); ("b", obj [ ("c", VBool true) ]) ].

(** JSON text: a name or a string in double quotes. *)
Definition quoted (s : string) : string :=
  String (ascii_of_nat 34) s ++ String (ascii_of_nat 34) "".

(** The JSON of [podSmall] and of a configuration with one item. *)
Definition podSmallJSON : string :=
  "{" ++ quoted "a" ++ ":" ++ quoted "x" ++ ","
      ++ quoted "b" ++ ":{" ++ quoted "c" ++ ":true}}".

Definition alwaysVisible : Config :=
  {| MenuItems := [ menu_item "Always Visible" "https://google.com" [] [] ] |}.

Definition alwaysVisibleJSON : string :=
  "{" ++ quoted "menuItems" ++ ":[{"
      ++ quoted "title" ++ ":" ++ quoted "Always Visible" ++ ","
      ++ quoted "url" ++ ":" ++ quoted "https://google.com" ++ "}]}".

(** A host with the configuration file in place, on which [kubectl]
    finds the pod [small] of the namespace [default]; the decoders are
    tabulated on the two texts. *)
#[export] Instance cluster : Host :=
  {| OSError := string;
     JSONError := string;
     ReadFile := fun path =>
       if String.eqb path "config.json" then inr alwaysVisibleJSON
       else inl "no such file or directory";
     Output := fun name args =>
       if String.eqb name "kubectl"
          && bool_decide
               (args = ["get"; "pod"; "small"; "-o"; "json"; "-n"; "default"])
       then inr podSmallJSON
       else inl ("exit status 1",
                 "Error from server (NotFound)" ++ String (ascii_of_nat 10) "");
     Unmarshal := fun data =>
       if String.eqb data podSmallJSON then inr (Parsed podSmall)
       else inl "invalid character";
     TrimSpace := fun s => trim_right (trim_left s) |}.

#[export] Instance cluster_config : @ConfigJSON RE2.engine cluster :=
  @Build_ConfigJSON RE2.engine cluster
    (fun data =>
       if String.eqb data alwaysVisibleJSON then inr alwaysVisible
       else inl "invalid character").

#[export] Instance kubectl_down_config : @ConfigJSON RE2.engine kubectl_down :=
  @Build_ConfigJSON RE2.engine kubectl_down
    (fun _ => inl "unexpected end of JSON input").

End Examples.

(** * Properties *)

(** ** The [strings] functions *)

Module GoStringsFacts.
Import GoStrings.

Lemma Split_nonempty (s : string) (sep : ascii) : Split s sep <> [].
Proof.
  destruct s as [|c s]; simpl; [discriminate|].
  destruct (Ascii.eqb c sep); [discriminate|].
  destruct (Split s sep); discriminate.
Qed.

(** Splitting around an occurrence of the separator. *)
Lemma Split_app (s t : string) (sep : ascii) :
  Split (s ++ String sep t) sep = (Split s sep ++ Split t sep)%list.
Proof.
  induction s as [|c s IH]; simpl.
  - rewrite Ascii.eqb_refl. reflexivity.
  - destruct (Ascii.eqb c sep); rewrite IH; [reflexivity|].
    pose proof (Split_nonempty s sep) as Hne.
    destruct (Split s sep) as [|seg segs]; [contradiction|reflexivity].
Qed.

(** No segment contains the separator. *)
Lemma Split_segments (s : string) (sep : ascii) :
  Forall (fun seg => ContainsByte seg sep = false) (Split s sep).
Proof.
  induction s as [|c s IH]; simpl.
  - repeat constructor.
  - destruct (Ascii.eqb c sep) eqn:E.
    + constructor; [reflexivity|assumption].
    + destruct (Split s sep) as [|seg segs].
      * repeat constructor. simpl. rewrite E. reflexivity.
      * inversion IH; subst. constructor; [|assumption].
        simpl. rewrite E. assumption.
Qed.

(** Joining the segments gives the string back. *)
Lemma Join_Split (s : string) (sep : ascii) :
  Join (Split s sep) (String sep EmptyString) = s.
Proof.
  induction s as [|c s IH]; simpl; [reflexivity|].
  destruct (Ascii.eqb c sep) eqn:E.
  - apply Ascii.eqb_eq in E. subst c.
    pose proof (Split_nonempty s sep) as Hne.
    destruct (Split s sep) as [|seg segs]; [contradiction|].
    change (Join (EmptyString :: seg :: segs) (String sep EmptyString))
      with (String sep (Join (seg :: segs) (String sep EmptyString))).
    rewrite IH. reflexivity.
  - pose proof (Split_nonempty s sep) as Hne.
    destruct (Split s sep) as [|seg [|seg' segs]]; [contradiction| |].
    + simpl in *. rewrite IH. reflexivity.
    + change (Join (String c seg :: seg' :: segs) (String sep EmptyString))
        with (String c (Join (seg :: seg' :: segs) (String sep EmptyString))).
      rewrite IH. reflexivity.
Qed.

(** A string without the separator is its own single segment. *)
Lemma Split_single (s : string) (sep : ascii) :
  ContainsByte s sep = false -> Split s sep = [s].
Proof.
  induction s as [|c s IH]; simpl; [reflexivity|].
  intros Hc. apply orb_false_iff in Hc as [Hc1 Hc2].
  rewrite Hc1, (IH Hc2). reflexivity.
Qed.

Lemma drop_0 (s : string) : drop 0 s = s.
Proof. destruct s; reflexivity. Qed.

(** Skipping [k] bytes in the scan is scanning the rest. *)
Lemma replace_scan_skip (old new : string) (k : nat) (s : string) :
  replace_scan old new k s = replace_scan old new 0 (drop k s).
Proof.
  revert k. induction s as [|c s IH]; intros k.
  - destruct k; reflexivity.
  - destruct k as [|k]; [reflexivity|]. simpl. apply IH.
Qed.

(** [ReplaceAll] by occurrences: without an occurrence of [old] the
    string is unchanged; otherwise the text before the first occurrence
    is kept, [new] stands for the occurrence, and the replacement goes on
    after it. *)
Lemma ReplaceAll_Index (s old new : string) :
  old <> EmptyString ->
  match Index s old with
  | None => ReplaceAll s old new = s
  | Some i =>
      ReplaceAll s old new
      = take i s ++ new ++ ReplaceAll (drop (i + String.length old) s) old new
  end.
Proof.
  intros Hold. destruct old as [|o old]; [contradiction|]. clear Hold.
  unfold ReplaceAll.
  induction s as [|c s IH].
  - reflexivity.
  - cbn [Index replace_scan].
    destruct (String.prefix (String o old) (String c s)) eqn:E.
    + rewrite replace_scan_skip. cbn [String.length Nat.sub Nat.add drop take
        String.substring String.append].
      rewrite Nat.sub_0_r. reflexivity.
    + destruct (Index s (String o old)) as [i|]; cbn [option_map].
      * rewrite IH. reflexivity.
      * rewrite IH. reflexivity.
Qed.

(** [HasSuffix] for a one-byte suffix looks at the last byte. *)
Lemma HasSuffix_cons (a : ascii) (s : string) (c : ascii) :
  HasSuffix (String a s) (String c "")
  = match s with
    | EmptyString => Ascii.eqb a c
    | String _ _ => HasSuffix s (String c "")
    end.
Proof.
  unfold HasSuffix. destruct s as [|b s]; cbn [String.length].
  - cbn. destruct (Ascii.eqb a c); reflexivity.
  - cbn [Nat.leb Nat.sub].
    change (String.substring (S (String.length s)) 1 (String a (String b s)))
      with (String.substring (String.length s) 1 (String b s)).
    rewrite Nat.sub_0_r. reflexivity.
Qed.

Lemma HasSuffix_app_last (s : string) (c : ascii) :
  HasSuffix (s ++ String c "") (String c "") = true.
Proof.
  induction s as [|a s IH].
  - change ("" ++ String c "") with (String c "").
    rewrite HasSuffix_cons. apply Ascii.eqb_refl.
  - change (String a s ++ String c "") with (String a (s ++ String c "")).
    rewrite HasSuffix_cons.
    destruct (s ++ String c "") eqn:E; [|exact IH].
    destruct s; discriminate.
Qed.

Lemma HasPrefix_cons (c : ascii) (s : string) :
  HasPrefix (String c s) (String c "") = true.
Proof.
  unfold HasPrefix. cbn [String.prefix].
  destruct (Ascii.ascii_dec c c); [|contradiction]. destruct s; reflexivity.
Qed.

Lemma HasPrefix_app (s t : string) (c : ascii) :
  HasPrefix s (String c "") = true ->
  HasPrefix (s ++ t) (String c "") = true.
Proof.
  unfold HasPrefix. destruct s as [|a s]; [discriminate|].
  change (String a s ++ t) with (String a (s ++ t)).
  cbn [String.prefix]. destruct (Ascii.ascii_dec c a); [|discriminate].
  intros _. destruct (s ++ t); reflexivity.
Qed.

End GoStringsFacts.

(** ** Decimal text *)

Lemma all_digits_string_of_uint (d : Decimal.uint) :
  all_digits (NilEmpty.string_of_uint d) = true.
Proof. induction d; simpl; auto. Qed.

Lemma fmt_d_nonempty (i : Z) : fmt_d i <> "".
Proof.
  unfold fmt_d. destruct i as [|p|p]; simpl; [discriminate| |discriminate].
  pose proof (DecimalPos.Unsigned.to_uint_nonnil p) as Hn.
  destruct (Pos.to_uint p); [contradiction|..]; discriminate.
Qed.

(** [%d] prints decimal integer text, and the text reads back as the
    integer. *)
Lemma fmt_d_decimal (i : Z) :
  is_decimal_text (fmt_d i) = true
  /\ Z.of_int <$> NilZero.int_of_string (fmt_d i) = Some i.
Proof.
  split.
  - unfold fmt_d. destruct i as [|p|p]; simpl; [reflexivity| |].
    + pose proof (DecimalPos.Unsigned.to_uint_nonnil p) as Hn.
      pose proof (all_digits_string_of_uint (Pos.to_uint p)) as Hd.
      destruct (Pos.to_uint p); [contradiction|..]; exact Hd.
    + pose proof (DecimalPos.Unsigned.to_uint_nonnil p) as Hn.
      pose proof (all_digits_string_of_uint (Pos.to_uint p)) as Hd.
      destruct (Pos.to_uint p); [contradiction|..]; exact Hd.
  - unfold fmt_d. rewrite NilZero.isi.
    + simpl. rewrite DecimalZ.of_to. reflexivity.
    + destruct i as [|p|p]; simpl; try discriminate.
      intros [= Hp]. exact (DecimalPos.Unsigned.to_uint_nonnil p Hp).
    + destruct i as [|p|p]; simpl; try discriminate.
      intros [= Hp]. exact (DecimalPos.Unsigned.to_uint_nonnil p Hp).
Qed.

(** ** [float64]: converting an integral value to [int64] and back *)

Module Float64Facts.
Import Float64.

#[local] Open Scope Z_scope.

Lemma iter_pos_Pos_iter {A : Type} (f : A -> A) (n : positive) (x : A) :
  SpecFloat.iter_pos f n x = Pos.iter f x n.
Proof.
  revert x. induction n as [n IH|n IH|]; intros x; simpl.
  - rewrite !IH, <- !Pos.iter_swap. reflexivity.
  - rewrite !IH. reflexivity.
  - reflexivity.
Qed.

Lemma shiftl_pos_iter (m k : positive) :
  Z.shiftl (Z.pos m) (Z.pos k) = Z.pos (Pos.iter xO m k).
Proof.
  unfold Z.shiftl. induction k as [|k IH] using Pos.peano_ind.
  - reflexivity.
  - rewrite !Pos.iter_succ, IH. reflexivity.
Qed.

Lemma digits2_pos_iter (m k : positive) :
  Z.pos (digits2_pos (Pos.iter xO m k)) = Z.pos (digits2_pos m) + Z.pos k.
Proof.
  induction k as [|k IH] using Pos.peano_ind.
  - simpl. lia.
  - rewrite Pos.iter_succ. simpl digits2_pos. lia.
Qed.

(** Shifting out [k] zero bits is exact. *)
Lemma shr_1_iter (m k : positive) :
  Pos.iter shr_1
    {| shr_m := Z.pos (Pos.iter xO m k); shr_r := false; shr_s := false |} k
  = {| shr_m := Z.pos m; shr_r := false; shr_s := false |}.
Proof.
  induction k as [|k IH] using Pos.peano_ind.
  - reflexivity.
  - rewrite Pos.iter_succ_r, Pos.iter_succ. simpl. exact IH.
Qed.

(** A mantissa whose [k] low bits survive a shift right and back. *)
Lemma integral_mantissa (m k : positive) :
  Z.pos m = Z.shiftl (Z.shiftl (Z.pos m) (Z.neg k)) (Z.pos k) ->
  exists q, Z.shiftl (Z.pos m) (Z.neg k) = Z.pos q /\ m = Pos.iter xO q k.
Proof.
  intros Hm.
  destruct (Z.shiftl (Z.pos m) (Z.neg k)) as [|q|q] eqn:E.
  - rewrite Z.shiftl_0_l in Hm. discriminate.
  - exists q. split; [reflexivity|]. rewrite shiftl_pos_iter in Hm. congruence.
  - exfalso. pose proof (Z.shiftl_nonneg (Z.pos m) (Z.neg k)) as Hn.
    rewrite E in Hn. lia.
Qed.

Lemma bounded_canonical (m : positive) (e : Z) :
  bounded prec emax m e = true ->
  fexp prec emax (Z.pos (digits2_pos m) + e) = e /\ e <= emax - prec.
Proof.
  unfold bounded, canonical_mantissa. intros Hb.
  apply andb_true_iff in Hb as [Hc He].
  apply Z.eqb_eq in Hc. apply Z.leb_le in He. auto.
Qed.

(** Rounding a canonical mantissa leaves it alone. *)
Lemma binary_round_aux_canonical (s : bool) (m : positive) (e : Z) :
  bounded prec emax m e = true ->
  binary_round_aux prec emax s (Z.pos m) e loc_Exact = S754_finite s m e.
Proof.
  intros Hb. destruct (bounded_canonical m e Hb) as [Hc He].
  unfold binary_round_aux, shr_fexp. simpl Zdigits2.
  rewrite Hc, Z.sub_diag. simpl shr. cbv beta iota zeta.
  cbn [shr_m shr_r shr_s loc_of_shr_record round_nearest_even Zdigits2].
  rewrite Hc, Z.sub_diag. simpl shr. cbv beta iota zeta. cbn [shr_m].
  apply Z.leb_le in He. rewrite He. reflexivity.
Qed.

(** [float64(i)] of the value [i] of an integral float is that float. *)
Lemma float64_of_int64_Zvalue (s : bool) (m : positive) (e : Z) :
  bounded prec emax m e = true ->
  is_integral (S754_finite s m e) = true ->
  float64_of_int64 (Zvalue (S754_finite s m e)) = S754_finite s m e.
Proof.
  intros Hb Hi. destruct (bounded_canonical m e Hb) as [Hc He].
  unfold is_integral in Hi. apply Z.eqb_eq in Hi.
  change (Zvalue (S754_finite s m e))
    with (cond_Zopp s (Z.shiftl (Z.pos m) e)).
  unfold float64_of_int64.
  destruct e as [|k|k].
  - rewrite Z.shiftl_0_r.
    assert (binary_normalize prec emax (cond_Zopp s (Z.pos m)) 0 false
            = binary_round prec emax s m 0) as -> by (destruct s; reflexivity).
    unfold binary_round. rewrite Hc.
    change (shl_align m 0 0) with (m, 0). cbv beta iota.
    apply binary_round_aux_canonical; assumption.
  - rewrite shiftl_pos_iter.
    assert (binary_normalize prec emax
              (cond_Zopp s (Z.pos (Pos.iter xO m k))) 0 false
            = binary_round prec emax s (Pos.iter xO m k) 0) as ->
      by (destruct s; reflexivity).
    unfold binary_round.
    rewrite Z.add_0_r, digits2_pos_iter, Hc.
    change (shl_align (Pos.iter xO m k) 0 (Z.pos k)) with (Pos.iter xO m k, 0).
    cbv beta iota.
    unfold binary_round_aux, shr_fexp. simpl Zdigits2.
    rewrite Z.add_0_r, digits2_pos_iter, Hc. simpl shr.
    rewrite iter_pos_Pos_iter, shr_1_iter. cbv beta iota zeta.
    cbn [shr_m shr_r shr_s loc_of_shr_record round_nearest_even Zdigits2].
    change (0 + (Z.pos k - 0)) with (Z.pos k).
    rewrite Hc, Z.sub_diag. simpl shr. cbv beta iota zeta. cbn [shr_m].
    apply Z.leb_le in He. rewrite He. reflexivity.
  - simpl Z.opp in Hi. destruct (integral_mantissa m k Hi) as [q [Hq Hm]].
    rewrite Hq.
    assert (binary_normalize prec emax (cond_Zopp s (Z.pos q)) 0 false
            = binary_round prec emax s q 0) as -> by (destruct s; reflexivity).
    unfold binary_round.
    assert (Z.pos (digits2_pos q) + 0 = Z.pos (digits2_pos m) + Z.neg k) as ->.
    { rewrite Hm, digits2_pos_iter. lia. }
    rewrite Hc.
    change (shl_align q 0 (Z.neg k)) with (Pos.iter xO q k, Z.neg k).
    cbv beta iota. rewrite <- Hm.
    apply binary_round_aux_canonical; assumption.
Qed.

Lemma eqb_refl_finite (s : bool) (m : positive) (e : Z) :
  eqb (S754_finite s m e) (S754_finite s m e) = true.
Proof.
  unfold eqb, SFeqb, SFcompare.
  destruct s; rewrite Z.compare_refl, Pos.compare_cont_refl; reflexivity.
Qed.

(** The test [val == float64(int64(val))] succeeds on every well-formed
    integral float. *)
Lemma eqb_float64_of_int64_Zvalue (f : float64) :
  is_float64 f = true -> is_integral f = true ->
  eqb f (float64_of_int64 (Zvalue f)) = true.
Proof.
  destruct f as [s|s| |s m e]; try discriminate.
  - intros _ _. destruct s; reflexivity.
  - intros Hf Hi. simpl in Hf.
    rewrite (float64_of_int64_Zvalue s m e Hf Hi). apply eqb_refl_finite.
Qed.

(** *** No [int64] converts to [2^64] *)

Lemma digits2_pos_bounds (p : positive) :
  2 ^ (Z.pos (digits2_pos p) - 1) <= Z.pos p < 2 ^ Z.pos (digits2_pos p).
Proof.
  induction p as [p IH|p IH|]; cbn [digits2_pos].
  - rewrite Pos2Z.inj_succ.
    replace (Z.succ (Z.pos (digits2_pos p)) - 1)
      with (Z.succ (Z.pos (digits2_pos p) - 1)) by lia.
    rewrite !Z.pow_succ_r by lia. lia.
  - rewrite Pos2Z.inj_succ.
    replace (Z.succ (Z.pos (digits2_pos p)) - 1)
      with (Z.succ (Z.pos (digits2_pos p) - 1)) by lia.
    rewrite !Z.pow_succ_r by lia. lia.
  - simpl. lia.
Qed.

Lemma Zdigits2_le (m : Z) :
  0 <= m <= 2 ^ prec -> Zdigits2 m <= prec + 1.
Proof.
  unfold prec. intros Hm. destruct m as [|q|q]; cbn [Zdigits2]; try lia.
  pose proof (digits2_pos_bounds q) as [Hlo _].
  destruct (Z_le_gt_dec (Z.pos (digits2_pos q)) 54) as [|Hgt]; [assumption|].
  exfalso.
  assert (2 ^ 54 <= 2 ^ (Z.pos (digits2_pos q) - 1)) as Hp
    by (apply Z.pow_le_mono_r; lia).
  assert (2 ^ 53 < 2 ^ 54) by (apply Z.pow_lt_mono_r; lia). lia.
Qed.

(** One shift halves a non-negative mantissa. *)
Lemma shr_1_m (mrs : shr_record) :
  0 <= shr_m mrs ->
  shr_m (shr_1 mrs) = shr_m mrs / 2 /\ 0 <= shr_m (shr_1 mrs).
Proof.
  destruct mrs as [m r s]. cbn [shr_m]. intros Hm.
  destruct m as [|[p|p|]|p]; cbn [shr_1 shr_m]; try lia;
    (split; [rewrite <- Z.div2_div; reflexivity|lia]).
Qed.

Lemma shr_1_iter_m (k : positive) (mrs : shr_record) :
  0 <= shr_m mrs ->
  shr_m (Pos.iter shr_1 mrs k) = shr_m mrs / 2 ^ Z.pos k
  /\ 0 <= shr_m (Pos.iter shr_1 mrs k).
Proof.
  intros Hm. induction k as [|k [IH1 IH2]] using Pos.peano_ind.
  - cbn [Pos.iter]. rewrite Z.pow_1_r. apply shr_1_m. exact Hm.
  - rewrite Pos.iter_succ. destruct (shr_1_m _ IH2) as [H1 H2].
    split; [|exact H2].
    rewrite H1, IH1, Pos2Z.inj_succ, Z.pow_succ_r by lia.
    rewrite Z.div_div by lia. f_equal. lia.
Qed.

Lemma round_nearest_even_bounds (m : Z) (l : location) :
  m <= round_nearest_even m l <= m + 1.
Proof.
  destruct l as [|[]]; cbn [round_nearest_even]; try lia.
  destruct (Z.even m); lia.
Qed.

Lemma shr_exponent (mrs : shr_record) (e n : Z) :
  n <= 1 -> snd (shr mrs e n) <= e + 1.
Proof. intros Hn. destruct n; cbn [shr snd]; lia. Qed.

(** Rounding raises the exponent by at most one above the canonical
    exponent of the mantissa. *)
Lemma binary_round_aux_exponent (s : bool) (q : positive) (e : Z) :
  - 1000 <= e ->
  exponent_le (binary_round_aux prec emax s (Z.pos q) e loc_Exact)
    (Z.max e (Z.pos (digits2_pos q) + e - prec) + 1).
Proof.
  intros He. pose proof (digits2_pos_bounds q) as [Hlo Hhi].
  set (D := Z.pos (digits2_pos q)) in *.
  assert (fexp prec emax (D + e) = D + e - prec) as Hf
    by (unfold fexp, emin, prec, emax; subst D; lia).
  unfold binary_round_aux, shr_fexp.
  cbn [Zdigits2 shr_record_of_loc]. fold D. rewrite Hf.
  destruct (shr {| shr_m := Z.pos q; shr_r := false; shr_s := false |} e
              (D + e - prec - e)) as [mrs' e'] eqn:E1.
  assert (0 <= shr_m mrs' < 2 ^ prec /\ e' = Z.max e (D + e - prec))
    as [Hm' He'].
  { unfold shr in E1. destruct (D + e - prec - e) as [|k|k] eqn:En.
    - injection E1 as <- <-. cbn [shr_m].
      replace D with prec in Hhi by lia. lia.
    - injection E1 as <- <-. rewrite iter_pos_Pos_iter.
      destruct (shr_1_iter_m k
                  {| shr_m := Z.pos q; shr_r := false; shr_s := false |})
        as [Hm Hpos]; [cbn; lia|]. cbn [shr_m] in Hm.
      split; [|lia]. rewrite Hm. split; [lia|].
      apply Z.div_lt_upper_bound; [lia|].
      rewrite <- Z.pow_add_r by (unfold prec in *; lia).
      replace (Z.pos k + prec) with D by lia. exact Hhi.
    - injection E1 as <- <-. cbn [shr_m]. split; [|lia]. split; [lia|].
      assert (2 ^ D < 2 ^ prec)
        by (apply Z.pow_lt_mono_r; unfold prec in *; lia).
      lia. }
  pose proof (round_nearest_even_bounds (shr_m mrs') (loc_of_shr_record mrs'))
    as Hr.
  set (m1 := round_nearest_even (shr_m mrs') (loc_of_shr_record mrs')) in *.
  assert (0 <= m1 <= 2 ^ prec) as Hm1.
  { clearbody m1. clear - Hm' Hr. lia. }
  pose proof (Zdigits2_le m1 Hm1) as Hd.
  assert (fexp prec emax (Zdigits2 m1 + e') - e' <= 1) as Hn2
    by (unfold fexp, emin, prec, emax in *; lia).
  pose proof (shr_exponent {| shr_m := m1; shr_r := false; shr_s := false |}
                e' _ Hn2) as He''.
  destruct (shr {| shr_m := m1; shr_r := false; shr_s := false |} e'
              (fexp prec emax (Zdigits2 m1 + e') - e')) as [mrs'' e''].
  cbn [snd] in He''.
  destruct (shr_m mrs''); cbn [exponent_le]; try exact I.
  destruct (e'' <=? emax - prec); cbn [exponent_le]; [|exact I].
  lia.
Qed.

Lemma eqb_two_pow_64_small (f : float64) :
  exponent_le f 11 -> eqb two_pow_64 f = false.
Proof.
  destruct f as [s|s| |s m e]; cbn [exponent_le]; intros He.
  - destruct s; reflexivity.
  - destruct s; reflexivity.
  - reflexivity.
  - unfold eqb, SFeqb, two_pow_64, SFcompare.
    destruct s; [reflexivity|].
    destruct (Z.compare_spec 12 e); (lia || reflexivity).
Qed.

Lemma eqb_two_pow_64_negative (p : positive) :
  eqb two_pow_64 (binary_round prec emax true p 0) = false.
Proof.
  unfold binary_round, binary_round_aux.
  destruct (shl_align _ _ _) as [mz ez].
  destruct (shr_fexp _ _ _ _ _) as [mrs' e'].
  destruct (shr_fexp _ _ _ _ _) as [mrs'' e''].
  destruct (shr_m mrs''); try reflexivity.
  destruct (e'' <=? emax - prec); reflexivity.
Qed.

(** Whatever [int64] the conversion of [2^64] yields, converting it back
    does not give [2^64]. *)
Lemma float64_of_int64_below_two_pow_64 (z : Z) :
  in_int64 z = true -> eqb two_pow_64 (float64_of_int64 z) = false.
Proof.
  unfold in_int64, min_int64, max_int64. intros Hz.
  apply andb_true_iff in Hz as [Hlo Hhi].
  apply Z.leb_le in Hlo. apply Z.leb_le in Hhi.
  unfold float64_of_int64. destruct z as [|p|p]; cbn [binary_normalize].
  - reflexivity.
  - apply eqb_two_pow_64_small. unfold binary_round.
    pose proof (digits2_pos_bounds p) as [Hdlo Hdhi].
    assert (Z.pos (digits2_pos p) <= 63) as HD.
    { destruct (Z_le_gt_dec (Z.pos (digits2_pos p)) 63) as [|Hgt];
        [assumption|].
      exfalso. assert (2 ^ 63 <= 2 ^ (Z.pos (digits2_pos p) - 1))
        by (apply Z.pow_le_mono_r; lia). lia. }
    set (D := Z.pos (digits2_pos p)) in *.
    assert (fexp prec emax (D + 0) = D - prec) as ->
      by (unfold fexp, emin, prec, emax; subst D; lia).
    unfold shl_align.
    destruct (D - prec - 0) as [|k|k] eqn:Ek.
    + pose proof (binary_round_aux_exponent false p 0 ltac:(lia)) as Hb.
      fold D in Hb. unfold prec in *.
      destruct (binary_round_aux _ _ _ _ _ _); cbn [exponent_le] in *;
        try exact I.
      lia.
    + pose proof (binary_round_aux_exponent false p 0 ltac:(lia)) as Hb.
      fold D in Hb. unfold prec in *.
      destruct (binary_round_aux _ _ _ _ _ _); cbn [exponent_le] in *;
        try exact I.
      lia.
    + pose proof (binary_round_aux_exponent false (Pos.iter xO p k) (D - prec)
                    ltac:(unfold prec; lia)) as Hb.
      rewrite digits2_pos_iter in Hb. fold D in Hb. unfold prec in *.
      destruct (binary_round_aux _ _ _ _ _ _); cbn [exponent_le] in *;
        try exact I.
      lia.
  - apply eqb_two_pow_64_negative.
Qed.

Lemma wrap_int64_in_int64 (z : Z) : in_int64 (wrap_int64 z) = true.
Proof.
  unfold in_int64, wrap_int64, min_int64, max_int64.
  pose proof (Z.mod_pos_bound (z - - 2 ^ 63) (2 ^ 64) ltac:(lia)) as Hm.
  apply andb_true_iff. split; [apply Z.leb_le|apply Z.leb_le]; lia.
Qed.

End Float64Facts.

(** ** [stringify] *)

Section Stringify.
Context `{GoRuntime}.

(** The conversion [int64(f)] is exact when the value of [f] fits. *)
Lemma int64_of_float64_exact (f : float64) :
  Float64.is_float64 f = true ->
  Float64.in_int64 (Float64.Zvalue f) = true ->
  int64_of_float64 f = Float64.Zvalue f.
Proof.
  intros Hf Hr. unfold int64_of_float64, Float64.Zvalue in *.
  destruct f as [s|s| |s m e]; try discriminate; simpl in *.
  - reflexivity.
  - rewrite Hr. reflexivity.
Qed.

(** An integral number that fits in an [int64] is printed by [%d]. *)
Lemma stringify_integral (f : float64) :
  Float64.is_float64 f = true ->
  Float64.is_integral f = true ->
  Float64.in_int64 (Float64.Zvalue f) = true ->
  stringify (VNum f) = fmt_d (Float64.Zvalue f).
Proof.
  intros Hf Hi Hr. unfold stringify.
  rewrite (int64_of_float64_exact f Hf Hr).
  rewrite (Float64Facts.eqb_float64_of_int64_Zvalue f Hf Hi). reflexivity.
Qed.

(** Whatever the implementation does on overflow, [2^64] is printed by
    [%g], not by [%d]. *)
Lemma stringify_two_pow_64 :
  stringify (VNum Float64.two_pow_64) = fmt_g Float64.two_pow_64.
Proof.
  unfold stringify.
  assert (int64_of_float64 Float64.two_pow_64
          = Float64.wrap_int64 (int64_overflow Float64.two_pow_64)) as ->
    by reflexivity.
  rewrite Float64Facts.float64_of_int64_below_two_pow_64
    by apply Float64Facts.wrap_int64_in_int64.
  reflexivity.
Qed.

(** Only nil and the empty string are rendered as the empty string. *)
Lemma stringify_empty (v : value) :
  stringify v = "" <-> v = VNull \/ v = VStr "".
Proof.
  split.
  - destruct v as [|b|f|s|l|m]; simpl.
    + auto.
    + destruct b; discriminate.
    + destruct (Float64.eqb _ _); intros He; exfalso.
      * exact (fmt_d_nonempty _ He).
      * exact (fmt_g_nonempty _ He).
    + intros ->. auto.
    + intros He. exfalso. exact (fmt_v_slice_nonempty _ He).
    + intros He. exfalso. exact (fmt_v_map_nonempty _ He).
  - intros [-> | ->]; reflexivity.
Qed.

(** C8, amended: [stringify] maps a string to itself, a boolean to
    [true] or [false], nil (an explicit null, and the value of an absent
    path) to the empty string, and every integral-valued number that fits
    in an [int64] (from [-2^63] to [2^63 - 1]) to its decimal integer
    text, which has no fractional part and no exponent. *)
Theorem stringify_scalars :
  (forall s : string, stringify (VStr s) = s)
  /\ (forall b : bool, stringify (VBool b) = if b then "true" else "false")
  /\ stringify VNull = ""
  /\ (forall f : float64,
        Float64.is_float64 f = true ->
        Float64.is_integral f = true ->
        Float64.in_int64 (Float64.Zvalue f) = true ->
        stringify (VNum f) = fmt_d (Float64.Zvalue f)
        /\ is_decimal_text (stringify (VNum f)) = true
        /\ Z.of_int <$> NilZero.int_of_string (stringify (VNum f))
           = Some (Float64.Zvalue f)).
Proof.
  repeat split; try reflexivity.
  - apply stringify_integral; assumption.
  - rewrite stringify_integral by assumption. apply fmt_d_decimal.
  - rewrite stringify_integral by assumption. apply fmt_d_decimal.
Qed.

End Stringify.

Lemma stringify_scalars_witness :
  Float64.is_float64 Float64.f8080 = true
  /\ Float64.is_integral Float64.f8080 = true
  /\ Float64.in_int64 (Float64.Zvalue Float64.f8080) = true
  /\ stringify (VNum Float64.f8080) = "8080".
Proof.
  split; [reflexivity|]. split; [reflexivity|]. split; [reflexivity|].
  destruct (@stringify_scalars amd64) as (_ & _ & _ & Hnum).
  destruct (Hnum Float64.f8080 eq_refl eq_refl eq_refl) as (-> & _).
  reflexivity.
Defined.

(** C8 as stated fails: [2^64] is an integral-valued [float64], its
    conversion to [int64] overflows, the test [val == float64(int64(val))]
    fails and the number is printed by [%g], with an exponent. *)
Lemma stringify_integral_beyond_int64 :
  Float64.is_float64 Float64.two_pow_64 = true
  /\ Float64.is_integral Float64.two_pow_64 = true
  /\ Float64.Zvalue Float64.two_pow_64 = (2 ^ 64)%Z
  /\ @stringify amd64 (VNum Float64.two_pow_64) = "1.8446744073709552e+19"
  /\ is_decimal_text (@stringify amd64 (VNum Float64.two_pow_64)) = false
  /\ @stringify amd64 (VNum Float64.two_pow_64) <> fmt_d (2 ^ 64).
Proof. vm_compute. repeat split. discriminate. Qed.

(** ** [ResolvePath] *)

(** The loop computes the relation [reaches]. *)
Lemma walk_reaches (cur : value) (segs : list string) (v : value) :
  walk cur segs = Some v <-> reaches cur segs v.
Proof.
  split.
  - revert cur. induction segs as [|seg rest IH]; intros cur; simpl.
    + intros [= ->]. constructor.
    + destruct cur as [| | | | |m]; try discriminate.
      destruct (m !! seg) as [next|] eqn:E; [|discriminate].
      intros Hw. eapply reaches_step; eauto.
  - induction 1 as [v|m seg rest next v Hm _ IH]; simpl.
    + reflexivity.
    + rewrite Hm. exact IH.
Qed.

(** Resolving [p.q] is resolving [p] and walking on along [q]. *)
Lemma walk_app (cur : value) (segs1 segs2 : list string) :
  walk cur (segs1 ++ segs2) = walk cur segs1 ≫= fun v => walk v segs2.
Proof.
  revert cur. induction segs1 as [|seg rest IH]; intros cur; simpl.
  - reflexivity.
  - destruct cur as [| | | | |m]; try reflexivity.
    destruct (m !! seg); [apply IH|reflexivity].
Qed.

(** C5, amended: [ResolvePath] splits the path on ['.'] and walks the
    segments from left to right, looking every segment up as a map key,
    an empty segment like any other (the empty path is one empty
    segment).  It fails as soon as the current value is not a map or the
    key is missing; when all segments are consumed it returns the value
    at that place, found, also when that value is an explicit null. *)
Theorem ResolvePath_walks_segments (pd : PodData) (path : string) :
  let segs := GoStrings.Split path "." in
  (GoStrings.Join segs "." = path /\ segs <> []
   /\ Forall (fun seg => GoStrings.ContainsByte seg "." = false) segs)
  /\ (forall v, ResolvePath pd path = Some v
                <-> reaches (VMap (Parsed pd)) segs v)
  /\ (forall cur seg rest,
        (forall m, cur <> VMap m) -> walk cur (seg :: rest) = None)
  /\ (forall m seg rest,
        m !! seg = None -> walk (VMap m) (seg :: rest) = None)
  /\ (forall m seg rest next,
        m !! seg = Some next -> walk (VMap m) (seg :: rest) = walk next rest)
  /\ (forall cur, walk cur [] = Some cur)
  /\ (forall q : string,
        ResolvePath pd (path ++ "." ++ q)
        = ResolvePath pd path ≫= fun v => walk v (GoStrings.Split q "."))
  /\ (forall v, GoStrings.ContainsByte path "." = false ->
        Parsed pd !! path = Some v -> ResolvePath pd path = Some v).
Proof.
  cbv zeta. repeat apply conj.
  - apply GoStringsFacts.Join_Split.
  - apply GoStringsFacts.Split_nonempty.
  - apply GoStringsFacts.Split_segments.
  - intros v. apply walk_reaches.
  - intros cur seg rest Hcur. destruct cur; try reflexivity.
    exfalso. eapply Hcur. reflexivity.
  - intros m seg rest Hm. simpl. rewrite Hm. reflexivity.
  - intros m seg rest next Hm. simpl. rewrite Hm. reflexivity.
  - reflexivity.
  - intros q. unfold ResolvePath.
    change (path ++ "." ++ q) with (path ++ String "." q).
    rewrite GoStringsFacts.Split_app. apply walk_app.
  - intros v Hdot Hv. unfold ResolvePath.
    rewrite (GoStringsFacts.Split_single _ _ Hdot). simpl.
    rewrite Hv. reflexivity.
Qed.

Lemma ResolvePath_walks_segments_witness :
  (GoStrings.ContainsByte "" "." = false
   /\ Parsed Examples.podEmptyKey !! "" = Some (VStr "x")
   /\ ResolvePath Examples.podEmptyKey "" = Some (VStr "x"))
  /\ ((forall m, VStr "x" <> VMap m) /\ walk (VStr "x") ["b"] = None)
  /\ ((∅ : gmap string value) !! "b" = None /\ walk (VMap ∅) ["b"] = None)
  /\ (Parsed Examples.podEmptyKey !! "" = Some (VStr "x")
      /\ walk (VMap (Parsed Examples.podEmptyKey)) ["" ; "b"]
         = walk (VStr "x") ["b"]).
Proof.
  destruct (ResolvePath_walks_segments Examples.podEmptyKey "")
    as (_ & _ & Hnotmap & Hmissing & Hstep & _ & _ & Hkey).
  split; [|split; [|split]].
  - split; [reflexivity|]. split; [reflexivity|].
    apply Hkey; reflexivity.
  - assert (forall m, VStr "x" <> VMap m) as Hx by (intros m; discriminate).
    split; [exact Hx|]. apply Hnotmap. exact Hx.
  - split; [reflexivity|]. apply Hmissing. reflexivity.
  - split; [reflexivity|]. apply Hstep. reflexivity.
Defined.

(** C5 as stated fails: the empty path, and a path with an empty
    segment, are found when the JSON has an empty key. *)
Lemma ResolvePath_empty_segment_found :
  ResolvePath Examples.podEmptyKey "" = Some (VStr "x")
  /\ ResolvePath Examples.podEmptyKey "a..b" = Some (VStr "y").
Proof. split; reflexivity. Qed.

(** An explicit null is found. *)
Example ResolvePath_explicit_null :
  ResolvePath Examples.podOddValues "metadata.deletionTimestamp" = Some VNull
  /\ ResolvePath Examples.podOddValues "metadata.missing" = None.
Proof. split; reflexivity. Qed.

(** [TestResolvePath]. *)
Example TestResolvePath :
  ResolvePath Examples.podNginxProd "metadata.name" = Some (VStr "nginx-abc123")
  /\ (exists m, ResolvePath Examples.podNginxProd "metadata.labels" = Some (VMap m)
                /\ m !! "app" = Some (VStr "nginx"))
  /\ ResolvePath Examples.podNginxProd "status.phase" = Some (VStr "Running")
  /\ (exists l, ResolvePath Examples.podNginxProd "spec.containers" = Some (VArr l)
                /\ length l = 2%nat)
  /\ ResolvePath Examples.podNginxProd "metadata.nonexistent" = None
  /\ ResolvePath Examples.podNginxProd "metadata.labels.app.deep" = None.
Proof.
  repeat apply conj; try reflexivity.
  - eexists. split; reflexivity.
  - eexists. split; reflexivity.
Qed.

(** ** [Evaluate], [MatchesPod], [FilterMenuItems] *)

Section Matching.
Context `{RegexpPkg} `{GoRuntime}.

(** With both patterns compiled the loop of [matchMap] does not panic
    and finds whether some entry matches. *)
Lemma match_entries_compiled (c : Condition) (kre vre : Regexp)
    (kvs : list (string * value)) :
  keyRe c = Some kre -> valueRe c = Some vre ->
  match_entries c kvs
  = Some (existsb (fun kv => MatchString kre kv.1
                             && MatchString vre (stringify kv.2)) kvs).
Proof.
  intros Hk Hv. induction kvs as [|[k v] rest IH]; simpl.
  - reflexivity.
  - rewrite Hk, Hv. simpl.
    destruct (MatchString kre k); simpl; [|exact IH].
    destruct (MatchString vre (stringify v)); simpl; [reflexivity|exact IH].
Qed.

Lemma matchMap_compiled (c : Condition) (kre vre : Regexp)
    (m : gmap string value) :
  keyRe c = Some kre -> valueRe c = Some vre ->
  exists b : bool,
    matchMap c m = Some b
    /\ (b = true <->
        exists k v, m !! k = Some v /\ MatchString kre k = true
                    /\ MatchString vre (stringify v) = true).
Proof.
  intros Hk Hv. eexists. split.
  - unfold matchMap. apply match_entries_compiled; eassumption.
  - rewrite existsb_exists. split.
    + intros ([k v] & Hin & Hm). apply andb_true_iff in Hm as [Hmk Hmv].
      exists k, v. split; [|auto].
      apply elem_of_map_to_list. apply list_elem_of_In. exact Hin.
    + intros (k & v & Hl & Hmk & Hmv). exists (k, v). split.
      * apply list_elem_of_In. apply elem_of_map_to_list. exact Hl.
      * simpl. rewrite Hmk, Hmv. reflexivity.
Qed.

Lemma matchArray_compiled (c : Condition) (vre : Regexp) (arr : list value) :
  valueRe c = Some vre ->
  exists b : bool,
    matchArray c arr = Some b
    /\ (b = true <->
        exists v, v ∈ arr /\ MatchString vre (stringify v) = true).
Proof.
  intros Hv. induction arr as [|v rest (b & Hb & Hspec)]; simpl.
  - exists false. split; [reflexivity|]. split; [discriminate|].
    intros (v & Hin & _). inversion Hin.
  - rewrite Hv. simpl. destruct (MatchString vre (stringify v)) eqn:E.
    + exists true. split; [reflexivity|]. split; [|reflexivity].
      intros _. exists v. split; [left|exact E].
    + exists b. split; [exact Hb|]. rewrite Hspec. split.
      * intros (w & Hin & Hw). exists w. split; [right; exact Hin|exact Hw].
      * intros (w & Hin & Hw). exists w. split; [|exact Hw].
        apply elem_of_cons in Hin as [-> | Hin]; [congruence|exact Hin].
Qed.

(** C1: [Evaluate] dispatches on what the path resolves to.  Missing or
    null: the base is false.  A map: the base is true iff some entry has
    a key matching the key pattern and a stringified value matching the
    value pattern.  A sequence: iff some element's stringified value
    matches the value pattern.  A scalar: the match of the value pattern
    on the stringified value.  The result is the base, negated when
    [Invert] is set. *)
Theorem Evaluate_dispatch (c : Condition) (pd : PodData) (kre vre : Regexp) :
  keyRe c = Some kre -> valueRe c = Some vre ->
  exists base : bool,
    Evaluate c (Some pd) = Some (if Invert c then negb base else base)
    /\ match ResolvePath pd (Path c) with
       | None | Some VNull => base = false
       | Some (VMap m) =>
           base = true <->
           exists k v, m !! k = Some v /\ MatchString kre k = true
                       /\ MatchString vre (stringify v) = true
       | Some (VArr l) =>
           base = true <->
           exists v, v ∈ l /\ MatchString vre (stringify v) = true
       | Some v => base = MatchString vre (stringify v)
       end.
Proof.
  intros Hk Hv. unfold Evaluate. simpl.
  destruct (ResolvePath pd (Path c)) as [[|b|f|s|l|m]|] eqn:E.
  - exists false. split; reflexivity.
  - eexists. rewrite Hv. simpl. split; reflexivity.
  - eexists. rewrite Hv. simpl. split; reflexivity.
  - eexists. rewrite Hv. simpl. split; reflexivity.
  - destruct (matchArray_compiled c vre l Hv) as (b & Hb & Hspec).
    exists b. rewrite Hb. simpl. split; [reflexivity|exact Hspec].
  - destruct (matchMap_compiled c kre vre m Hk Hv) as (b & Hb & Hspec).
    exists b. rewrite Hb. simpl. split; [reflexivity|exact Hspec].
  - exists false. split; reflexivity.
Qed.

(** A compiled condition evaluates without a panic on any pod. *)
Lemma Evaluate_total (c : Condition) (pd : PodData) :
  compiled c -> is_Some (Evaluate c (Some pd)).
Proof.
  intros [[kre Hk] [vre Hv]]. unfold Evaluate. simpl.
  destruct (ResolvePath pd (Path c)) as [[|b|f|s|l|m]|]; try rewrite Hv;
    simpl; eauto.
  - destruct (matchArray_compiled c vre l Hv) as (b & -> & _). simpl. eauto.
  - destruct (matchMap_compiled c kre vre m Hk Hv) as (b & -> & _).
    simpl. eauto.
Qed.

Lemma match_entries_set_Invert (c : Condition) (b : bool)
    (kvs : list (string * value)) :
  match_entries (set_Invert c b) kvs = match_entries c kvs.
Proof.
  induction kvs as [|[k v] rest IH]; simpl; [reflexivity|].
  rewrite IH. reflexivity.
Qed.

Lemma matchArray_set_Invert (c : Condition) (b : bool) (arr : list value) :
  matchArray (set_Invert c b) arr = matchArray c arr.
Proof.
  induction arr as [|v rest IH]; simpl; [reflexivity|].
  rewrite IH. reflexivity.
Qed.

(** C7: evaluating with [Invert] set is the negation of evaluating with
    [Invert] cleared: the two calls panic together or return opposite
    booleans; on a compiled condition and a pod they return; and when
    the path does not resolve the inverted condition yields true. *)
Theorem Evaluate_invert_negates (c : Condition) (pd : option PodData) :
  Evaluate (set_Invert c true) pd = negb <$> Evaluate (set_Invert c false) pd
  /\ (forall p, pd = Some p -> compiled c ->
        exists b, Evaluate (set_Invert c false) pd = Some b
                  /\ Evaluate (set_Invert c true) pd = Some (negb b))
  /\ (forall p, pd = Some p -> ResolvePath p (Path c) = None ->
        Evaluate (set_Invert c false) pd = Some false
        /\ Evaluate (set_Invert c true) pd = Some true).
Proof.
  assert (Evaluate (set_Invert c true) pd
          = negb <$> Evaluate (set_Invert c false) pd) as Hneg.
  { destruct pd as [p|]; [|reflexivity]. unfold Evaluate. simpl.
    destruct (ResolvePath p (Path c)) as [[|b|f|s|l|m]|]; simpl;
      try reflexivity.
    - destruct (valueRe c); reflexivity.
    - destruct (valueRe c); reflexivity.
    - destruct (valueRe c); reflexivity.
    - rewrite !matchArray_set_Invert.
      destruct (matchArray c l); reflexivity.
    - unfold matchMap. rewrite !match_entries_set_Invert.
      destruct (match_entries c (map_to_list m)); reflexivity. }
  split; [exact Hneg|]. split.
  - intros p -> Hc.
    destruct (Evaluate_total (set_Invert c false) p Hc) as [b Hb].
    exists b. split; [exact Hb|]. rewrite Hneg, Hb. reflexivity.
  - intros p -> Hr. unfold Evaluate. simpl. rewrite Hr. split; reflexivity.
Qed.

#[local] Arguments Evaluate : simpl never.
#[local] Arguments MatchesPod : simpl never.

(** The loop of [MatchesPod] on compiled conditions. *)
Lemma all_pass_compiled (conds : list Condition) (pd : PodData) :
  Forall compiled conds ->
  exists b : bool,
    all_pass conds (Some pd) = Some b
    /\ (b = true <->
        forall c, c ∈ conds -> Evaluate c (Some pd) = Some true).
Proof.
  induction 1 as [|c rest Hc _ (b & Hb & Hspec)]; simpl.
  - exists true. split; [reflexivity|]. split; [|reflexivity].
    intros _ c Hin. inversion Hin.
  - destruct (Evaluate_total c pd Hc) as [[|] Hev]; rewrite Hev; simpl.
    + exists b. split; [exact Hb|]. rewrite Hspec. split.
      * intros Hall c' Hin.
        apply elem_of_cons in Hin as [-> | Hin]; [exact Hev|auto].
      * intros Hall c' Hin. apply Hall. right. exact Hin.
    + exists false. split; [reflexivity|]. split; [discriminate|].
      intros Hall. specialize (Hall c (list_elem_of_here _ _)). congruence.
Qed.

(** The loop stops at the first condition that fails. *)
Lemma all_pass_short_circuit (cs1 cs2 : list Condition) (c : Condition)
    (pd : option PodData) :
  Forall (fun c' => Evaluate c' pd = Some true) cs1 ->
  Evaluate c pd = Some false ->
  all_pass (cs1 ++ c :: cs2) pd = Some false.
Proof.
  intros Hpre Hc. induction Hpre as [|c' rest Hc' _ IH]; simpl.
  - rewrite Hc. reflexivity.
  - rewrite Hc'. simpl. exact IH.
Qed.

(** The slice built so far only grows at its end. *)
Lemma filter_loop_acc (filtered items : list MenuItem) (pd : option PodData) :
  filter_loop filtered items pd
  = (fun kept => (filtered ++ kept)%list) <$> filter_loop [] items pd.
Proof.
  revert filtered. induction items as [|item rest IH]; intros filtered; simpl.
  - rewrite app_nil_r. reflexivity.
  - destruct pd as [p|].
    + destruct (MatchesPod item (Some p)) as [[|]|]; simpl.
      * rewrite (IH (filtered ++ [item])%list), (IH [item]).
        destruct (filter_loop [] rest (Some p)); simpl; [|reflexivity].
        rewrite <- app_assoc. reflexivity.
      * apply IH.
      * reflexivity.
    + destruct (length (Conditions (Filters item)) =? 0)%nat.
      * rewrite (IH (filtered ++ [item])%list), (IH [item]).
        destruct (filter_loop [] rest None); simpl; [|reflexivity].
        rewrite <- app_assoc. reflexivity.
      * apply IH.
Qed.

(** Without a pod the loop keeps the items that have no condition. *)
Lemma filter_loop_nil_pod (items : list MenuItem) :
  filter_loop [] items None
  = Some (filter (fun it => length (Conditions (Filters it)) = 0%nat) items).
Proof.
  induction items as [|item rest IH]; simpl; [reflexivity|].
  destruct (length (Conditions (Filters item)) =? 0)%nat eqn:E.
  - rewrite filter_loop_acc, IH. simpl.
    apply Nat.eqb_eq in E. rewrite filter_cons_True by exact E. reflexivity.
  - rewrite IH. apply Nat.eqb_neq in E.
    rewrite filter_cons_False by exact E. reflexivity.
Qed.

(** C2: an item matches iff all its conditions evaluate to true; the
    loop stops at the first false one; an item without conditions
    matches whatever the pod; and without a pod [FilterMenuItems] keeps
    exactly the items without conditions, whatever the conditions of the
    others (inverted or not). *)
Theorem MatchesPod_all_conditions (item : MenuItem) (pd : PodData) :
  (Forall compiled (Conditions (Filters item)) ->
   exists b : bool,
     MatchesPod item (Some pd) = Some b
     /\ (b = true <->
         forall c, c ∈ Conditions (Filters item) ->
                   Evaluate c (Some pd) = Some true))
  /\ (forall cs1 c cs2,
        Conditions (Filters item) = (cs1 ++ c :: cs2)%list ->
        Forall (fun c' => Evaluate c' (Some pd) = Some true) cs1 ->
        Evaluate c (Some pd) = Some false ->
        MatchesPod item (Some pd) = Some false)
  /\ (Conditions (Filters item) = [] ->
      forall pd', MatchesPod item pd' = Some true)
  /\ (forall items,
        FilterMenuItems items None
        = Some (filter (fun it => length (Conditions (Filters it)) = 0%nat)
                  items)).
Proof.
  repeat apply conj.
  - apply all_pass_compiled.
  - intros cs1 c cs2 Hcs Hpre Hc. unfold MatchesPod. rewrite Hcs.
    apply all_pass_short_circuit; assumption.
  - intros Hnil pd'. unfold MatchesPod. rewrite Hnil. reflexivity.
  - apply filter_loop_nil_pod.
Qed.

(** What [FilterMenuItems] returns is a sublist of its input. *)
Lemma filter_loop_sublist (items out : list MenuItem) (pd : option PodData) :
  filter_loop [] items pd = Some out -> out `sublist_of` items.
Proof.
  revert out. induction items as [|item rest IH]; intros out; simpl.
  - intros [= <-]. constructor.
  - destruct pd as [p|].
    + destruct (MatchesPod item (Some p)) as [[|]|]; simpl; [| |discriminate].
      * rewrite filter_loop_acc.
        destruct (filter_loop [] rest (Some p)) as [kept|]; [|discriminate].
        intros [= <-]. simpl. apply sublist_skip. apply IH. reflexivity.
      * intros Hout. apply sublist_cons. apply IH. exact Hout.
    + destruct (length (Conditions (Filters item)) =? 0)%nat.
      * rewrite filter_loop_acc.
        destruct (filter_loop [] rest None) as [kept|]; [|discriminate].
        intros [= <-]. simpl. apply sublist_skip. apply IH. reflexivity.
      * intros Hout. apply sublist_cons. apply IH. exact Hout.
Qed.

Lemma filter_loop_total (items : list MenuItem) (pd : option PodData) :
  pd = None
  \/ Forall (fun it => Forall compiled (Conditions (Filters it))) items ->
  is_Some (filter_loop [] items pd).
Proof.
  intros [-> | Hc].
  - rewrite filter_loop_nil_pod. eauto.
  - destruct pd as [p|]; [|rewrite filter_loop_nil_pod; eauto].
    induction Hc as [|item rest Hitem _ IH]; simpl; [eauto|].
    destruct (all_pass_compiled _ p Hitem) as (b & Hb & _).
    unfold MatchesPod. rewrite Hb. simpl.
    destruct b; [|exact IH].
    rewrite filter_loop_acc. destruct IH as [kept ->]. simpl. eauto.
Qed.

(** C9: [FilterMenuItems] returns a subsequence of its input: entries of
    the input, each position at most once, in the order of the input.
    It returns (no panic) without a pod, and with a pod when the
    conditions are compiled. *)
Theorem FilterMenuItems_sublist (items : list MenuItem) (pd : option PodData) :
  (forall out, FilterMenuItems items pd = Some out -> out `sublist_of` items)
  /\ (pd = None
      \/ Forall (fun it => Forall compiled (Conditions (Filters it))) items ->
      is_Some (FilterMenuItems items pd)).
Proof.
  split.
  - intros out. apply filter_loop_sublist.
  - apply filter_loop_total.
Qed.

End Matching.

(** *** The theorems at the pods of the tests *)

Lemma Evaluate_dispatch_witness :
  exists kre vre,
    keyRe Examples.appNginx = Some kre
    /\ valueRe Examples.appNginx = Some vre
    /\ Evaluate Examples.appNginx (Some Examples.podNginxProd) = Some true.
Proof.
  eexists. eexists. split; [reflexivity|]. split; [reflexivity|].
  destruct (Evaluate_dispatch Examples.appNginx Examples.podNginxProd _ _
              eq_refl eq_refl) as (base & Hev & Hspec).
  rewrite Hev.
  change (ResolvePath Examples.podNginxProd (Path Examples.appNginx))
    with (Some (Examples.obj [ ("app", VStr "nginx");
                               ("env", VStr "production");
                               ("team", VStr "platform") ])) in Hspec.
  cbv beta iota in Hspec.
  assert (base = true) as ->.
  { apply Hspec. exists "app", (VStr "nginx").
    split; [reflexivity|]. split; reflexivity. }
  reflexivity.
Defined.

Lemma Evaluate_invert_negates_witness :
  (ResolvePath Examples.podNoLabels (Path Examples.appNginx) = None
   /\ Evaluate (set_Invert Examples.appNginx true) (Some Examples.podNoLabels)
      = Some true)
  /\ (compiled Examples.appNginx
      /\ Evaluate (set_Invert Examples.appNginx true)
           (Some Examples.podNginxProd)
         = Some false).
Proof.
  split.
  - split; [reflexivity|].
    destruct (Evaluate_invert_negates Examples.appNginx
                (Some Examples.podNoLabels)) as (_ & _ & Hmissing).
    apply (Hmissing Examples.podNoLabels); reflexivity.
  - assert (compiled Examples.appNginx) as Hc
      by (split; eexists; reflexivity).
    split; [exact Hc|].
    destruct (Evaluate_invert_negates Examples.appNginx
                (Some Examples.podNginxProd)) as (_ & Hcompiled & _).
    destruct (Hcompiled Examples.podNginxProd eq_refl Hc) as (b & Hb & ->).
    change (Evaluate (set_Invert Examples.appNginx false)
              (Some Examples.podNginxProd)) with (Some true) in Hb.
    injection Hb as <-. reflexivity.
Defined.

Lemma MatchesPod_all_conditions_witness :
  Forall compiled (Conditions (Filters Examples.nginxProdItem))
  /\ MatchesPod Examples.nginxProdItem (Some Examples.podNginxProd) = Some true
  /\ MatchesPod Examples.nginxProdItem (Some Examples.podRedisStaging)
     = Some false
  /\ MatchesPod (Examples.menu_item "Always Visible" "https://google.com" [] [])
       None
     = Some true.
Proof.
  assert (Forall compiled (Conditions (Filters Examples.nginxProdItem))) as Hc.
  { repeat constructor; eexists; reflexivity. }
  split; [exact Hc|]. split; [|split].
  - destruct (MatchesPod_all_conditions Examples.nginxProdItem
                Examples.podNginxProd) as (Hall & _).
    destruct (Hall Hc) as (b & -> & Hb). f_equal. apply Hb.
    intros c Hin. simpl in Hin.
    apply elem_of_cons in Hin as [-> | Hin]; [reflexivity|].
    apply elem_of_cons in Hin as [-> | Hin]; [reflexivity|].
    inversion Hin.
  - destruct (MatchesPod_all_conditions Examples.nginxProdItem
                Examples.podRedisStaging) as (_ & Hfirst & _).
    apply (Hfirst [] _ _ eq_refl); [constructor|reflexivity].
  - destruct (MatchesPod_all_conditions
                (Examples.menu_item "Always Visible" "https://google.com" [] [])
                Examples.podNginxProd) as (_ & _ & Hempty & _).
    apply Hempty. reflexivity.
Defined.

Lemma FilterMenuItems_sublist_witness :
  (exists out,
     FilterMenuItems Examples.endToEndItems (Some Examples.podRedisStaging)
     = Some out
     /\ map Title out
        = ["Any App Dashboard"; "Running Pods Only"; "Always Visible"]
     /\ out `sublist_of` Examples.endToEndItems)
  /\ (Forall (fun it => Forall compiled (Conditions (Filters it)))
        [Examples.nginxProdItem]
      /\ is_Some (FilterMenuItems [Examples.nginxProdItem]
                    (Some Examples.podNoLabels))).
Proof.
  split.
  - exists (omap (fun i => Examples.endToEndItems !! i) [1; 2; 4]%nat).
    assert (FilterMenuItems Examples.endToEndItems
              (Some Examples.podRedisStaging)
            = Some (omap (fun i => Examples.endToEndItems !! i) [1; 2; 4]%nat))
      as Hout by reflexivity.
    split; [exact Hout|]. split; [reflexivity|].
    apply (FilterMenuItems_sublist Examples.endToEndItems
             (Some Examples.podRedisStaging)).
    exact Hout.
  - assert (Forall (fun it => Forall compiled (Conditions (Filters it)))
              [Examples.nginxProdItem]) as Hc
      by (repeat constructor; eexists; reflexivity).
    split; [exact Hc|].
    apply (FilterMenuItems_sublist [Examples.nginxProdItem]
             (Some Examples.podNoLabels)).
    right. exact Hc.
Defined.

(** ** [ResolveURL] *)

Lemma append_empty_r (s : string) : s ++ "" = s.
Proof.
  induction s as [|c s IH]; [reflexivity|].
  change (String c s ++ "") with (String c (s ++ "")).
  rewrite IH. reflexivity.
Qed.

Lemma append_assoc (s t u : string) : (s ++ t) ++ u = s ++ (t ++ u).
Proof.
  induction s as [|c s IH]; [reflexivity|].
  change (String c ((s ++ t) ++ u) = String c (s ++ (t ++ u))).
  rewrite IH. reflexivity.
Qed.

Section Templates.
Context `{RegexpPkg} `{GoRuntime}.

(** What [resolve] returns is empty exactly when there is no pod, the
    path does not resolve, or it resolves to nil or to the empty
    string. *)
Lemma resolve_empty (tv : TemplateVar) (pd : option PodData) :
  resolve tv pd = "" <->
  pd = None
  \/ exists p, pd = Some p
       /\ (ResolvePath p (TVPath tv) = None
           \/ ResolvePath p (TVPath tv) = Some VNull
           \/ ResolvePath p (TVPath tv) = Some (VStr "")).
Proof.
  unfold resolve. destruct pd as [p|]; [|split; auto].
  destruct (ResolvePath p (TVPath tv)) as [v|] eqn:E.
  - rewrite stringify_empty. split.
    + intros [-> | ->]; right; exists p; auto.
    + intros [Hn | (p' & [= <-] & [Hr | [Hr | Hr]])];
        [congruence|congruence|left; congruence|right; congruence].
  - split; [|reflexivity]. intros _. right. exists p. auto.
Qed.

(** One iteration of the loop appends the fragment. *)
Lemma append_templateVar_fragment (pd : option PodData) (url : string)
    (tv : TemplateVar) :
  append_templateVar pd url tv = url ++ fragment pd tv.
Proof.
  unfold append_templateVar, fragment, resolve.
  destruct pd as [p|]; simpl; [|rewrite append_empty_r; reflexivity].
  destruct (ResolvePath p (TVPath tv)) as [v|];
    simpl; [|rewrite append_empty_r; reflexivity].
  destruct (String.eqb_spec (stringify v) "") as [He|Hne].
  - apply stringify_empty in He as [-> | ->];
      rewrite append_empty_r; reflexivity.
  - destruct v as [|b|f|[|c s]|l|m]; try reflexivity;
      exfalso; apply Hne; reflexivity.
Qed.

Lemma fold_append_templateVar (pd : option PodData) (tvs : list TemplateVar)
    (url : string) :
  fold_left (append_templateVar pd) tvs url
  = url ++ concat_strings (map (fragment pd) tvs).
Proof.
  revert url. induction tvs as [|tv rest IH]; intros url; simpl.
  - rewrite append_empty_r. reflexivity.
  - rewrite IH, append_templateVar_fragment, append_assoc. reflexivity.
Qed.

(** C3, amended: [ResolveURL] starts from the item's URL and appends, in
    declaration order, the fragment of each template variable.  A
    template variable is skipped (its fragment is empty, no error) if
    and only if there is no pod, its path does not resolve, or its path
    resolves to nil or to the empty string; otherwise every occurrence
    of [$VALUE] in [urlAppend] is replaced by the stringified value.
    Without a pod the URL is returned unchanged. *)
Theorem ResolveURL_fragments (item : MenuItem) (pd : option PodData) :
  ResolveURL item pd
  = URL item ++ concat_strings (map (fragment pd) (TemplateVars item))
  /\ (forall tv,
        resolve tv pd = "" <->
        pd = None
        \/ exists p, pd = Some p
             /\ (ResolvePath p (TVPath tv) = None
                 \/ ResolvePath p (TVPath tv) = Some VNull
                 \/ ResolvePath p (TVPath tv) = Some (VStr "")))
  /\ (forall tv,
        fragment pd tv
        = if String.eqb (resolve tv pd) "" then ""
          else GoStrings.ReplaceAll (URLAppend tv) "$VALUE" (resolve tv pd))
  /\ (forall s new : string,
        match GoStrings.Index s "$VALUE" with
        | None => GoStrings.ReplaceAll s "$VALUE" new = s
        | Some i =>
            GoStrings.ReplaceAll s "$VALUE" new
            = GoStrings.take i s ++ new
              ++ GoStrings.ReplaceAll (GoStrings.drop (i + 6) s) "$VALUE" new
        end)
  /\ (pd = None -> ResolveURL item pd = URL item).
Proof.
  repeat apply conj.
  - apply fold_append_templateVar.
  - intros tv. apply resolve_empty.
  - intros tv.
    symmetry. exact (append_templateVar_fragment pd "" tv).
  - intros s new.
    apply (GoStringsFacts.ReplaceAll_Index s "$VALUE" new). discriminate.
  - intros ->. unfold ResolveURL.
    rewrite fold_append_templateVar.
    induction (TemplateVars item) as [|tv rest IH]; simpl.
    + apply append_empty_r.
    + exact IH.
Qed.

End Templates.

Lemma ResolveURL_fragments_witness :
  ResolveURL
    (Examples.menu_item "test" "https://example.com" []
       [ {| TVPath := "metadata.labels.app"; URLAppend := "?app=$VALUE" |};
         {| TVPath := "metadata.labels.nonexistent"; URLAppend := "?x=$VALUE" |};
         {| TVPath := "metadata.name"; URLAppend := "&pod=$VALUE&p=$VALUE" |} ])
    (Some Examples.podNginxProd)
  = "https://example.com?app=nginx&pod=nginx-abc123&p=nginx-abc123"
  /\ ResolveURL
       (Examples.menu_item "test" "https://example.com" []
          [ {| TVPath := "metadata.labels.app"; URLAppend := "?app=$VALUE" |} ])
       None
     = "https://example.com".
Proof.
  split.
  - destruct (ResolveURL_fragments
                (Examples.menu_item "test" "https://example.com" []
                   [ {| TVPath := "metadata.labels.app";
                        URLAppend := "?app=$VALUE" |};
                     {| TVPath := "metadata.labels.nonexistent";
                        URLAppend := "?x=$VALUE" |};
                     {| TVPath := "metadata.name";
                        URLAppend := "&pod=$VALUE&p=$VALUE" |} ])
                (Some Examples.podNginxProd)) as (-> & _).
    reflexivity.
  - apply ResolveURL_fragments. reflexivity.
Defined.

(** C3 as stated fails: a label whose value is the empty string
    resolves, to a value that is not null, and yet its fragment is
    skipped. *)
Lemma ResolveURL_skips_empty_string :
  ResolvePath Examples.podOddValues "metadata.labels.app" = Some (VStr "")
  /\ ResolveURL
       (Examples.menu_item "test" "https://example.com" []
          [ {| TVPath := "metadata.labels.app"; URLAppend := "?app=$VALUE" |} ])
       (Some Examples.podOddValues)
     = "https://example.com"
  /\ "https://example.com"
     <> "https://example.com"
        ++ GoStrings.ReplaceAll "?app=$VALUE" "$VALUE" (stringify (VStr "")).
Proof. split; [reflexivity|]. split; [reflexivity|]. discriminate. Qed.

(** ** [ValidateConfig] *)

Lemma first_error_None (checks : list (option ConfigError)) :
  first_error checks = None <-> Forall (fun e => e = None) checks.
Proof.
  induction checks as [|[e|] rest IH]; simpl.
  - split; [constructor|reflexivity].
  - split; [discriminate|]. intros Hall. inversion Hall; discriminate.
  - rewrite IH. split.
    + intros Hall. constructor; [reflexivity|exact Hall].
    + intros Hall. inversion Hall; assumption.
Qed.

(** Checks that pass do not hide the first error. *)
Lemma first_error_app (checks1 checks2 : list (option ConfigError)) :
  Forall (fun e => e = None) checks1 ->
  first_error (checks1 ++ checks2) = first_error checks2.
Proof.
  induction 1 as [|e rest -> _ IH]; simpl; [reflexivity|exact IH].
Qed.

Lemma imap_None {A : Type} (f : nat -> A -> option ConfigError) (l : list A) :
  Forall (fun e => e = None) (imap f l)
  <-> forall k x, l !! k = Some x -> f k x = None.
Proof.
  rewrite Forall_forall. split.
  - intros Hall k x Hk. apply Hall.
    apply elem_of_lookup_imap. exists k, x. auto.
  - intros Hall e He. apply elem_of_lookup_imap in He as (k & x & -> & Hk).
    eapply Hall. exact Hk.
Qed.

Lemma default_pattern_cases (p : string) :
  default_pattern p = p \/ p = "" /\ default_pattern p = ".*".
Proof.
  unfold default_pattern. destruct (String.eqb_spec p ""); auto.
Qed.

Lemma tv_error_None (i : nat) (title : string) (j : nat) (tv : TemplateVar) :
  tv_error i title j tv = None <-> tv_ok tv.
Proof.
  unfold tv_error, tv_ok.
  destruct (String.eqb_spec (TVPath tv) ""), (String.eqb_spec (URLAppend tv) "");
    split; try discriminate; try tauto; auto.
Qed.

Lemma validate_templateVars_error (i : nat) (title : string) (j : nat)
    (tvs : list TemplateVar) :
  validate_templateVars i title j tvs
  = first_error (imap (fun k => tv_error i title (j + k)) tvs).
Proof.
  revert j. induction tvs as [|tv rest IH]; intros j; [reflexivity|].
  rewrite imap_cons. cbn [validate_templateVars first_error].
  unfold tv_error at 1. rewrite Nat.add_0_r.
  destruct (String.eqb (TVPath tv) ""); [reflexivity|].
  destruct (String.eqb (URLAppend tv) ""); [reflexivity|].
  rewrite IH. f_equal. apply imap_ext. intros k x _. simpl.
  rewrite Nat.add_succ_r. reflexivity.
Qed.

Lemma validate_templateVars_error_0 (i : nat) (title : string)
    (tvs : list TemplateVar) :
  validate_templateVars i title 0 tvs
  = first_error (imap (tv_error i title) tvs).
Proof. rewrite validate_templateVars_error. reflexivity. Qed.

Section Validation.
Context `{RegexpPkg}.

Lemma pattern_state_only_refl (c : Condition) : pattern_state_only c c.
Proof. unfold pattern_state_only. tauto. Qed.

Lemma cond_error_None (i : nat) (title : string) (j : nat) (c : Condition) :
  cond_error i title j c = None <-> cond_ok c.
Proof.
  unfold cond_error, cond_ok.
  destruct (String.eqb_spec (Path c) "") as [Hp|Hp].
  - split; [discriminate|]. intros [Hne _]. contradiction.
  - destruct (Compile (anchorPattern (default_pattern (KeyPattern c)))) as [kre|].
    + destruct (Compile (anchorPattern (default_pattern (ValuePattern c))))
        as [vre|].
      * split; [|reflexivity]. intros _. repeat split; eauto.
      * split; [discriminate|]. intros (_ & _ & [? [=]]).
    + split; [discriminate|]. intros (_ & [? [=]] & _).
Qed.

(** The body of the condition loop returns the condition's error, ... *)
Lemma validate_condition_error (i : nat) (title : string) (j : nat)
    (c : Condition) :
  (validate_condition i title j c).2 = cond_error i title j c.
Proof.
  unfold validate_condition, cond_error.
  destruct (String.eqb (Path c) ""); [reflexivity|]. simpl.
  destruct (Compile (anchorPattern (default_pattern (KeyPattern c))));
    [|reflexivity]. simpl.
  destruct (Compile (anchorPattern (default_pattern (ValuePattern c))));
    reflexivity.
Qed.

(** ... leaves a well-formed condition defaulted and compiled, ... *)
Lemma validate_condition_ok (i : nat) (title : string) (j : nat)
    (c : Condition) :
  cond_error i title j c = None ->
  (validate_condition i title j c).1 = compiled_condition c.
Proof.
  unfold validate_condition, cond_error, compiled_condition.
  destruct (String.eqb (Path c) ""); [discriminate|]. simpl.
  destruct (Compile (anchorPattern (default_pattern (KeyPattern c))));
    [|discriminate]. simpl.
  destruct (Compile (anchorPattern (default_pattern (ValuePattern c))));
    [|discriminate].
  reflexivity.
Qed.

(** ... and touches nothing but the pattern state. *)
Lemma validate_condition_frame (i : nat) (title : string) (j : nat)
    (c : Condition) :
  pattern_state_only c (validate_condition i title j c).1.
Proof.
  unfold validate_condition, pattern_state_only.
  destruct (String.eqb (Path c) ""); simpl; [tauto|].
  pose proof (default_pattern_cases (KeyPattern c)) as Hk.
  pose proof (default_pattern_cases (ValuePattern c)) as Hv.
  destruct (Compile (anchorPattern (default_pattern (KeyPattern c)))) eqn:Ek;
    simpl.
  - destruct (Compile (anchorPattern (default_pattern (ValuePattern c))))
      eqn:Ev; simpl; repeat split; auto; tauto.
  - repeat split; auto; tauto.
Qed.

Lemma validate_conditions_error (i : nat) (title : string) (j : nat)
    (conds : list Condition) :
  (validate_conditions i title j conds).2
  = first_error (imap (fun k => cond_error i title (j + k)) conds).
Proof.
  revert j. induction conds as [|c rest IH]; intros j; [reflexivity|].
  rewrite imap_cons. cbn [validate_conditions first_error].
  rewrite Nat.add_0_r, <- validate_condition_error.
  destruct (validate_condition i title j c) as [c' [e|]]; [reflexivity|].
  specialize (IH (S j)).
  destruct (validate_conditions i title (S j) rest) as [rest' e'].
  simpl in *. rewrite IH. f_equal. apply imap_ext. intros k x _. simpl.
  rewrite Nat.add_succ_r. reflexivity.
Qed.

Lemma validate_conditions_error_0 (i : nat) (title : string)
    (conds : list Condition) :
  (validate_conditions i title 0 conds).2
  = first_error (imap (cond_error i title) conds).
Proof. rewrite validate_conditions_error. reflexivity. Qed.

Lemma validate_conditions_ok (i : nat) (title : string) (j : nat)
    (conds : list Condition) :
  (validate_conditions i title j conds).2 = None ->
  (validate_conditions i title j conds).1 = map compiled_condition conds.
Proof.
  revert j. induction conds as [|c rest IH]; intros j; [reflexivity|].
  cbn [validate_conditions].
  pose proof (validate_condition_error i title j c) as He.
  pose proof (validate_condition_ok i title j c) as Hok.
  destruct (validate_condition i title j c) as [c' [e|]]; [discriminate|].
  specialize (IH (S j)).
  destruct (validate_conditions i title (S j) rest) as [rest' e'].
  simpl in *. intros ->. rewrite Hok, IH by auto. reflexivity.
Qed.

Lemma validate_conditions_frame (i : nat) (title : string) (j : nat)
    (conds : list Condition) :
  Forall2 pattern_state_only conds (validate_conditions i title j conds).1.
Proof.
  revert j. induction conds as [|c rest IH]; intros j; [constructor|].
  cbn [validate_conditions].
  pose proof (validate_condition_frame i title j c) as Hc.
  destruct (validate_condition i title j c) as [c' [e|]]; simpl in *.
  - constructor; [exact Hc|].
    apply Forall_Forall2_diag, Forall_forall.
    intros c0 _. apply pattern_state_only_refl.
  - specialize (IH (S j)).
    destruct (validate_conditions i title (S j) rest) as [rest' e'].
    constructor; assumption.
Qed.

Lemma erase_pattern_state_only (conds conds' : list Condition) :
  Forall2 pattern_state_only conds conds' ->
  map erase_condition conds' = map erase_condition conds.
Proof.
  induction 1 as [|c c' rest rest' (Hp & Hi & _) _ IH]; simpl; [reflexivity|].
  unfold erase_condition at 1 3. rewrite Hp, Hi, IH. reflexivity.
Qed.

Lemma conditions_error_None (i : nat) (title : string) (conds : list Condition) :
  first_error (imap (cond_error i title) conds) = None
  <-> Forall cond_ok conds.
Proof.
  rewrite first_error_None, imap_None, Forall_lookup.
  split; intros Hall k c Hk; apply (cond_error_None i title k c);
    eapply Hall; exact Hk.
Qed.

Lemma templateVars_error_None (i : nat) (title : string)
    (tvs : list TemplateVar) :
  first_error (imap (tv_error i title) tvs) = None <-> Forall tv_ok tvs.
Proof.
  rewrite first_error_None, imap_None, Forall_lookup.
  split; intros Hall k tv Hk; apply (tv_error_None i title k tv);
    eapply Hall; exact Hk.
Qed.

Lemma item_error_None (i : nat) (item : MenuItem) :
  item_error i item = None <-> item_ok item.
Proof.
  unfold item_error, item_ok.
  destruct (String.eqb_spec (Title item) "") as [Ht|Ht];
    [split; [discriminate|tauto]|].
  destruct (String.eqb_spec (URL item) "") as [Hu|Hu];
    [split; [discriminate|tauto]|].
  rewrite <- (conditions_error_None i (Title item)).
  rewrite <- (templateVars_error_None i (Title item)).
  destruct (first_error (imap (cond_error i (Title item))
                           (Conditions (Filters item)))).
  - split; [discriminate|]. intros (_ & _ & [=] & _).
  - tauto.
Qed.

Lemma validate_item_error (i : nat) (item : MenuItem) :
  (validate_item i item).2 = item_error i item.
Proof.
  unfold validate_item, item_error.
  destruct (String.eqb (Title item) ""); [reflexivity|].
  destruct (String.eqb (URL item) ""); [reflexivity|].
  pose proof (validate_conditions_error_0 i (Title item)
                (Conditions (Filters item))) as He.
  destruct (validate_conditions i (Title item) 0 (Conditions (Filters item)))
    as [conds e].
  simpl in He. rewrite <- He.
  destruct e; simpl; [reflexivity|].
  apply validate_templateVars_error_0.
Qed.

Lemma validate_item_ok (i : nat) (item : MenuItem) :
  item_error i item = None -> (validate_item i item).1 = compiled_item item.
Proof.
  intros Hok. pose proof (validate_item_error i item) as He.
  rewrite Hok in He. revert He.
  unfold validate_item, compiled_item.
  destruct (String.eqb (Title item) ""); [discriminate|].
  destruct (String.eqb (URL item) ""); [discriminate|].
  pose proof (validate_conditions_ok i (Title item) 0
                (Conditions (Filters item))) as Hc.
  destruct (validate_conditions i (Title item) 0 (Conditions (Filters item)))
    as [conds e].
  destruct e; simpl in *; [discriminate|].
  intros _. rewrite Hc by reflexivity. reflexivity.
Qed.

Lemma validate_item_frame (i : nat) (item : MenuItem) :
  erase_item (validate_item i item).1 = erase_item item
  /\ Forall2 pattern_state_only (Conditions (Filters item))
       (Conditions (Filters (validate_item i item).1)).
Proof.
  assert (Forall2 pattern_state_only (Conditions (Filters item))
            (Conditions (Filters item))) as Hrefl.
  { apply Forall_Forall2_diag, Forall_forall.
    intros c _. apply pattern_state_only_refl. }
  unfold validate_item.
  destruct (String.eqb (Title item) ""); [auto|].
  destruct (String.eqb (URL item) ""); [auto|].
  pose proof (validate_conditions_frame i (Title item) 0
                (Conditions (Filters item))) as Hc.
  destruct (validate_conditions i (Title item) 0 (Conditions (Filters item)))
    as [conds e].
  simpl in Hc.
  assert (erase_item (set_Conditions item conds) = erase_item item) as He.
  { unfold erase_item. simpl. rewrite (erase_pattern_state_only _ _ Hc).
    reflexivity. }
  destruct e; simpl; auto.
Qed.

Lemma validate_items_error (i : nat) (items : list MenuItem) :
  (validate_items i items).2
  = first_error (imap (fun k => item_error (i + k)) items).
Proof.
  revert i. induction items as [|item rest IH]; intros i; [reflexivity|].
  rewrite imap_cons. cbn [validate_items first_error].
  rewrite Nat.add_0_r, <- validate_item_error.
  destruct (validate_item i item) as [item' [e|]]; [reflexivity|].
  specialize (IH (S i)).
  destruct (validate_items (S i) rest) as [rest' e'].
  simpl in *. rewrite IH. f_equal. apply imap_ext. intros k x _. simpl.
  rewrite Nat.add_succ_r. reflexivity.
Qed.

(** Where the loop over the items stops: the items before are compiled,
    the failing item has only its pattern state changed, the items after
    are untouched. *)
Lemma validate_items_error_0 (items : list MenuItem) :
  (validate_items 0 items).2 = first_error (imap item_error items).
Proof. rewrite validate_items_error. reflexivity. Qed.

Lemma validate_items_split (i : nat) (items : list MenuItem) :
  match (validate_items i items).2 with
  | None => (validate_items i items).1 = map compiled_item items
  | Some e =>
      exists pre item post item',
        items = (pre ++ item :: post)%list
        /\ Forall item_ok pre /\ ~ item_ok item
        /\ (validate_items i items).1
           = (map compiled_item pre ++ item' :: post)%list
        /\ erase_item item' = erase_item item
        /\ item_error (i + length pre) item = Some e
  end.
Proof.
  revert i. induction items as [|item rest IH]; intros i; [reflexivity|].
  cbn [validate_items].
  pose proof (validate_item_error i item) as He.
  pose proof (validate_item_ok i item) as Hok.
  pose proof (validate_item_frame i item) as [Hfr _].
  destruct (validate_item i item) as [item' [e|]]; simpl in *.
  - exists [], item, rest, item'. simpl. rewrite Nat.add_0_r.
    repeat split; auto.
    intros Hitem. apply (item_error_None i) in Hitem. congruence.
  - specialize (IH (S i)).
    destruct (validate_items (S i) rest) as [rest' [e'|]]; simpl in *.
    + destruct IH as (pre & it & post & it' & -> & Hpre & Hit & -> & Her & Hie).
      exists (item :: pre), it, post, it'. simpl.
      rewrite Nat.add_succ_r. rewrite Hok by auto.
      repeat split; auto.
      constructor; [|exact Hpre]. apply (item_error_None i). auto.
    + rewrite Hok, IH by auto. reflexivity.
Qed.

Lemma validate_items_frame (i : nat) (items : list MenuItem) :
  Forall2
    (fun it it' =>
       erase_item it' = erase_item it
       /\ Forall2 pattern_state_only (Conditions (Filters it))
            (Conditions (Filters it')))
    items (validate_items i items).1.
Proof.
  revert i. induction items as [|item rest IH]; intros i; [constructor|].
  cbn [validate_items].
  pose proof (validate_item_frame i item) as Hfr.
  destruct (validate_item i item) as [item' [e|]]; simpl in *.
  - constructor; [exact Hfr|].
    apply Forall_Forall2_diag, Forall_forall. intros it _. split; [reflexivity|].
    apply Forall_Forall2_diag, Forall_forall.
    intros c _. apply pattern_state_only_refl.
  - specialize (IH (S i)).
    destruct (validate_items (S i) rest) as [rest' e'].
    constructor; assumption.
Qed.

Lemma erase_items_frame (items items' : list MenuItem) :
  Forall2
    (fun it it' =>
       erase_item it' = erase_item it
       /\ Forall2 pattern_state_only (Conditions (Filters it))
            (Conditions (Filters it')))
    items items' ->
  map erase_item items' = map erase_item items.
Proof.
  induction 1 as [|it it' l l' [Hit _] _ IH]; simpl; [reflexivity|].
  rewrite Hit, IH. reflexivity.
Qed.

Lemma compiled_item_compiled (item : MenuItem) :
  item_ok item ->
  Forall compiled (Conditions (Filters (compiled_item item))).
Proof.
  intros (_ & _ & Hconds & _). simpl.
  apply Forall_fmap. eapply Forall_impl; [exact Hconds|].
  intros c (_ & Hk & Hv). split; assumption.
Qed.

(** C6: [ValidateConfig] returns the first error in order -- no items;
    then, item by item: empty title, empty url, the conditions in order
    (empty path, key pattern, value pattern, each pattern defaulted to
    [.*] when omitted, then anchored, then compiled), then the template
    variables in order (empty path, empty urlAppend) -- and it returns
    nil exactly when there is an item and every item passes all of these
    checks. *)
Theorem ValidateConfig_first_error (cfg : Config) :
  (ValidateConfig cfg).2 = config_error cfg
  /\ ((ValidateConfig cfg).2 = None
      <-> MenuItems cfg <> [] /\ Forall item_ok (MenuItems cfg))
  /\ (MenuItems cfg = [] -> (ValidateConfig cfg).2 = Some ErrNoMenuItems)
  /\ (forall pre item post,
        MenuItems cfg = (pre ++ item :: post)%list ->
        Forall item_ok pre -> ~ item_ok item ->
        (ValidateConfig cfg).2 = item_error (length pre) item
        /\ is_Some (item_error (length pre) item)).
Proof.
  assert ((ValidateConfig cfg).2 = config_error cfg) as Herr.
  { unfold ValidateConfig, config_error.
    destruct (MenuItems cfg) as [|item rest] eqn:E; [reflexivity|].
    cbn [length Nat.eqb].
    pose proof (validate_items_error_0 (item :: rest)) as He.
    destruct (validate_items 0 (item :: rest)) as [items' e].
    exact He. }
  split; [exact Herr|]. rewrite Herr. unfold config_error.
  split; [|split].
  - destruct (MenuItems cfg) as [|item rest].
    + split; [discriminate|]. intros [Hne _]. exfalso. apply Hne. reflexivity.
    + rewrite first_error_None, imap_None, Forall_lookup. split.
      * intros Hall. split; [discriminate|].
        intros k it Hk. apply (item_error_None k). eapply Hall. exact Hk.
      * intros [_ Hall] k it Hk. apply item_error_None. eapply Hall. exact Hk.
  - intros ->. reflexivity.
  - intros pre item post -> Hpre Hitem.
    assert (is_Some (item_error (length pre) item)) as Hsome.
    { destruct (item_error (length pre) item) eqn:E; [eauto|].
      apply item_error_None in E. contradiction. }
    split; [|exact Hsome].
    assert (first_error (imap item_error (pre ++ item :: post))
            = item_error (length pre) item) as Hfirst.
    { rewrite imap_app, first_error_app.
      - rewrite imap_cons, Nat.add_0_r. destruct Hsome as [e ->]. reflexivity.
      - apply imap_None. intros k it Hk. apply item_error_None.
        rewrite Forall_lookup in Hpre. eapply Hpre. exact Hk. }
    destruct pre; exact Hfirst.
Qed.

(** C10: [ValidateConfig] changes nothing but the pattern state of the
    conditions: the configuration without that state is the same before
    and after, with or without an error; a pattern source changes only
    from empty to [.*], a compiled pattern only to the compilation of
    the anchored source.  After a successful call every condition is
    defaulted and compiled; after an error the items before the failing
    one are, and the items after it are untouched. *)
Theorem ValidateConfig_frame (cfg : Config) :
  erase_config (ValidateConfig cfg).1 = erase_config cfg
  /\ Forall2
       (fun it it' =>
          Forall2 pattern_state_only (Conditions (Filters it))
            (Conditions (Filters it')))
       (MenuItems cfg) (MenuItems (ValidateConfig cfg).1)
  /\ ((ValidateConfig cfg).2 = None ->
      MenuItems (ValidateConfig cfg).1 = map compiled_item (MenuItems cfg)
      /\ Forall (fun it => Forall compiled (Conditions (Filters it)))
           (MenuItems (ValidateConfig cfg).1))
  /\ (forall e, (ValidateConfig cfg).2 = Some e ->
        MenuItems cfg = [] /\ (ValidateConfig cfg).1 = cfg
        \/ exists pre item post item',
             MenuItems cfg = (pre ++ item :: post)%list
             /\ Forall item_ok pre /\ ~ item_ok item
             /\ MenuItems (ValidateConfig cfg).1
                = (map compiled_item pre ++ item' :: post)%list
             /\ erase_item item' = erase_item item).
Proof.
  unfold ValidateConfig, erase_config.
  destruct (MenuItems cfg) as [|item rest] eqn:E.
  - cbn [length Nat.eqb fst snd]. rewrite E.
    split; [reflexivity|]. split; [constructor|]. split; [discriminate|].
    intros e0 _. left. split; reflexivity.
  - cbn [length Nat.eqb].
    pose proof (validate_items_frame 0 (item :: rest)) as Hfr.
    pose proof (validate_items_split 0 (item :: rest)) as Hsp.
    pose proof (validate_items_error_0 (item :: rest)) as Her.
    destruct (validate_items 0 (item :: rest)) as [items' e].
    cbn [fst snd MenuItems] in *.
    repeat apply conj.
    + apply (erase_items_frame _ _ Hfr).
    + eapply Forall2_impl; [exact Hfr|]. intros it it' [_ Hc]. exact Hc.
    + intros ->. split; [exact Hsp|]. rewrite Hsp.
      symmetry in Her. apply first_error_None in Her.
      pose proof (proj1 (imap_None item_error (item :: rest)) Her) as Hall.
      apply Forall_fmap, Forall_lookup. intros k it Hk.
      apply compiled_item_compiled. apply (item_error_None k).
      eapply Hall. exact Hk.
    + intros e0 ->. right.
      destruct Hsp as (pre & it & post & it' & Hitems & Hpre & Hit & Hout & Hfr' & _).
      exists pre, it, post, it'. auto.
Qed.

End Validation.

Lemma ValidateConfig_first_error_witness :
  (ValidateConfig Examples.brokenConfig).2
  = Some (ErrInvalidValuePattern 1 "second" 1 "(unclosed")
  /\ (ValidateConfig Examples.noItems).2 = Some ErrNoMenuItems.
Proof.
  split.
  - destruct (ValidateConfig_first_error Examples.brokenConfig)
      as (_ & _ & _ & Hfirst).
    destruct (Hfirst
                [ Examples.menu_item "first" "http://a"
                    [ Examples.cond "metadata.labels" "app" "" true ] [] ]
                (Examples.menu_item "second" "http://b"
                   [ Examples.cond "status.phase" "" "Running" false;
                     Examples.cond "metadata.labels" "ok" "(unclosed" false;
                     Examples.cond "" "" "" false ]
                   [ {| TVPath := ""; URLAppend := "" |} ])
                [ Examples.menu_item "" "" [] [] ] eq_refl) as [-> _].
    + repeat constructor; try discriminate; eexists; reflexivity.
    + intros (_ & _ & Hconds & _).
      inversion Hconds as [|c1 l1 _ Hrest]; subst.
      inversion Hrest as [|c2 l2 (_ & _ & [re Hre]) _]; subst.
      discriminate Hre.
    + reflexivity.
  - apply (ValidateConfig_first_error Examples.noItems). reflexivity.
Defined.

Lemma ValidateConfig_frame_witness :
  ((ValidateConfig Examples.endToEnd).2 = None
   /\ MenuItems (ValidateConfig Examples.endToEnd).1
      = map compiled_item (MenuItems Examples.endToEnd))
  /\ ((ValidateConfig Examples.brokenConfig).2
      = Some (ErrInvalidValuePattern 1 "second" 1 "(unclosed")
      /\ exists pre item post item',
           MenuItems Examples.brokenConfig = (pre ++ item :: post)%list
           /\ Forall item_ok pre /\ ~ item_ok item
           /\ MenuItems (ValidateConfig Examples.brokenConfig).1
              = (map compiled_item pre ++ item' :: post)%list
           /\ erase_item item' = erase_item item)
  /\ erase_config (ValidateConfig Examples.brokenConfig).1
     = erase_config Examples.brokenConfig.
Proof.
  split; [|split].
  - split; [reflexivity|].
    apply (ValidateConfig_frame Examples.endToEnd). reflexivity.
  - split; [reflexivity|].
    destruct (ValidateConfig_frame Examples.brokenConfig)
      as (_ & _ & _ & Herr).
    destruct (Herr _ eq_refl) as [[Hnil _] | Hsplit];
      [discriminate Hnil|exact Hsplit].
  - apply (ValidateConfig_frame Examples.brokenConfig).
Defined.

(** After the error in [brokenConfig]: per item and condition, the pattern
    sources and whether each pattern is compiled.  The first item is
    defaulted and compiled, the failing condition has its key pattern
    compiled but not its value pattern, and what follows is as it was. *)
Example ValidateConfig_partial_state :
  map (fun it =>
         (Title it,
          map (fun c => (KeyPattern c, ValuePattern c,
                         bool_decide (is_Some (keyRe c)),
                         bool_decide (is_Some (valueRe c))))
            (Conditions (Filters it))))
    (MenuItems (ValidateConfig Examples.brokenConfig).1)
  = [ ("first", [ ("app", ".*", true, true) ]);
      ("second", [ (".*", "Running", true, true);
                   ("ok", "(unclosed", true, false);
                   ("", "", false, false) ]);
      ("", []) ].
Proof. vm_compute. reflexivity. Qed.

(** ** [colorForKey] *)

(** The hash stays a [uint32]. *)
Lemma FNV_Write_uint32 (hash : Z) (data : string) :
  (0 <= hash < 2 ^ 32)%Z -> (0 <= FNV.Write hash data < 2 ^ 32)%Z.
Proof.
  revert hash. induction data as [|c rest IH]; intros hash Hh; simpl.
  - exact Hh.
  - apply IH. apply Z.mod_pos_bound. lia.
Qed.

(** The published test vectors of FNV-1a. *)
Example FNV_test_vectors :
  FNV.Sum32 (FNV.Write FNV.New32a "") = 0x811c9dc5%Z
  /\ FNV.Sum32 (FNV.Write FNV.New32a "a") = 0xe40c292c%Z
  /\ FNV.Sum32 (FNV.Write FNV.New32a "foobar") = 0xbf9cf968%Z.
Proof. repeat split; vm_compute; reflexivity. Qed.

(** [colorForKey] never indexes outside [labelColors]: for every key the
    hash, reduced modulo the length of the table, selects one of its ten
    colors. *)
Theorem colorForKey_in_range (key : string) :
  exists color, colorForKey key = Some color /\ color ∈ labelColors.
Proof.
  unfold colorForKey, FNV.Sum32.
  pose proof (FNV_Write_uint32 FNV.New32a key) as Hh.
  assert (0 <= FNV.New32a < 2 ^ 32)%Z as H0
    by (unfold FNV.New32a, FNV.offset32; lia).
  specialize (Hh H0).
  set (h := FNV.Write FNV.New32a key) in *.
  assert (Z.to_nat (h mod Z.of_nat (length labelColors))
          < length labelColors)%nat as Hlt.
  { pose proof (Z.mod_pos_bound h (Z.of_nat (length labelColors))) as Hm.
    change (length labelColors) with 10%nat in *. lia. }
  apply lookup_lt_is_Some_2 in Hlt as [color Hc].
  exists color. split; [exact Hc|].
  eapply list_elem_of_lookup_2. exact Hc.
Qed.

(** ** A pod without data: [NewPodData], [FetchPodJSON], [main] *)

(** No path resolves on a pod without data. *)
Lemma ResolvePath_no_data (pd : PodData) (path : string) :
  Parsed pd = ∅ -> ResolvePath pd path = None.
Proof.
  intros Hp. unfold ResolvePath. rewrite Hp.
  pose proof (GoStringsFacts.Split_nonempty path ".") as Hne.
  destruct (GoStrings.Split path ".") as [|seg rest]; [contradiction|].
  simpl. rewrite lookup_empty. reflexivity.
Qed.

Section NoData.
Context `{RegexpPkg} `{GoRuntime}.

(** A condition whose path does not resolve consults no pattern. *)
Lemma Evaluate_unresolved (c : Condition) (pd : PodData) :
  ResolvePath pd (Path c) = None -> Evaluate c (Some pd) = Some (Invert c).
Proof.
  intros Hr. unfold Evaluate. simpl. rewrite Hr. simpl.
  destruct (Invert c); reflexivity.
Qed.

Lemma all_pass_no_data (conds : list Condition) (pd : PodData) :
  Parsed pd = ∅ -> all_pass conds (Some pd) = Some (forallb Invert conds).
Proof.
  intros Hp. induction conds as [|c rest IH]; [reflexivity|].
  cbn [all_pass forallb].
  rewrite (Evaluate_unresolved c pd (ResolvePath_no_data pd _ Hp)). simpl.
  destruct (Invert c); simpl; [exact IH|reflexivity].
Qed.

Lemma filter_loop_no_data (filtered items : list MenuItem) (pd : PodData) :
  Parsed pd = ∅ ->
  filter_loop filtered items (Some pd)
  = Some (filtered ++ filter (fun it => all_inverted it = true) items)%list.
Proof.
  intros Hp. revert filtered.
  induction items as [|item rest IH]; intros filtered.
  - simpl. rewrite app_nil_r. reflexivity.
  - cbn [filter_loop]. unfold MatchesPod.
    rewrite (all_pass_no_data _ pd Hp). simpl.
    change (forallb Invert (Conditions (Filters item)))
      with (all_inverted item).
    rewrite filter_cons.
    destruct (decide (all_inverted item = true)) as [E|E].
    + rewrite E, IH, <- app_assoc. reflexivity.
    + apply not_true_is_false in E. rewrite E. apply IH.
Qed.

Lemma resolve_no_data (tv : TemplateVar) (pd : PodData) :
  Parsed pd = ∅ -> resolve tv (Some pd) = "".
Proof.
  intros Hp. unfold resolve. rewrite (ResolvePath_no_data pd _ Hp). reflexivity.
Qed.

Lemma ResolveURL_no_data (item : MenuItem) (pd : PodData) :
  Parsed pd = ∅ -> ResolveURL item (Some pd) = URL item.
Proof.
  intros Hp. unfold ResolveURL. generalize (URL item).
  induction (TemplateVars item) as [|tv rest IH]; intros url; [reflexivity|].
  simpl. unfold append_templateVar at 2.
  rewrite (resolve_no_data tv pd Hp). simpl. apply IH.
Qed.

(** On a pod without data no path resolves, so a condition is true
    exactly when it is inverted, whether or not its patterns are
    compiled: filtering keeps the items all of whose conditions are
    inverted, and every URL is the configured one. *)
Theorem FilterMenuItems_no_data (items : list MenuItem) (pd : PodData) :
  Parsed pd = ∅ ->
  (forall c, Evaluate c (Some pd) = Some (Invert c))
  /\ (forall item, MatchesPod item (Some pd) = Some (all_inverted item))
  /\ FilterMenuItems items (Some pd)
     = Some (filter (fun it => all_inverted it = true) items)
  /\ (forall item, ResolveURL item (Some pd) = URL item).
Proof.
  intros Hp. split; [|split; [|split]].
  - intros c. apply Evaluate_unresolved, ResolvePath_no_data, Hp.
  - intros item. apply all_pass_no_data, Hp.
  - apply (filter_loop_no_data [] items pd Hp).
  - intros item. apply ResolveURL_no_data, Hp.
Qed.

End NoData.

(** [NewPodData] returns nil exactly for the empty name; otherwise a pod
    with the name and the namespace given and no data: no path resolves
    on it. *)
Theorem NewPodData_fresh (name namespace : string) :
  (NewPodData name namespace = None <-> name = "")
  /\ (forall pd, NewPodData name namespace = Some pd ->
        Name pd = name /\ Namespace pd = namespace /\ RawJSON pd = ""
        /\ Parsed pd = ∅
        /\ forall path, ResolvePath pd path = None).
Proof.
  unfold NewPodData. destruct (String.eqb_spec name "") as [->|Hne].
  - split; [tauto|]. discriminate.
  - split; [split; [discriminate|contradiction]|].
    intros pd [= <-]. simpl. repeat split.
    intros path. apply ResolvePath_no_data. reflexivity.
Qed.

Section FetchFacts.
Context `{Host}.

(** A fetch that fails leaves the parsed data alone; no fetch changes
    the name or the namespace. *)
Lemma FetchPodJSON_error_Parsed (p : PodData) (err : FetchError) :
  (FetchPodJSON p).2 = Some err -> Parsed (FetchPodJSON p).1 = Parsed p.
Proof.
  unfold FetchPodJSON.
  destruct (Output "kubectl" (kubectl_args p)) as [[e stderr]|out].
  - destruct (negb (String.eqb (TrimSpace stderr) "")); reflexivity.
  - destruct (Unmarshal out); [reflexivity|discriminate].
Qed.

Lemma FetchPodJSON_names (p : PodData) :
  Name (FetchPodJSON p).1 = Name p
  /\ Namespace (FetchPodJSON p).1 = Namespace p.
Proof.
  unfold FetchPodJSON.
  destruct (Output "kubectl" (kubectl_args p)) as [[e stderr]|out].
  - destruct (negb (String.eqb (TrimSpace stderr) "")); split; reflexivity.
  - destruct (Unmarshal out); split; reflexivity.
Qed.


Context `{RegexpPkg} `{GoRuntime}.

(** [main] when the pod cannot be fetched.  Without a pod name there is
    no pod context.  With one, a failed fetch leaves a pod without data,
    and the menu then shows the items all of whose conditions are
    inverted, with their configured URLs. *)
Theorem main_pod_fetch_failed (pod namespace : string) :
  ((main_pod pod namespace).1 = None <-> pod = "")
  /\ (forall pd err items,
        main_pod pod namespace = (Some pd, Some err) ->
        Name pd = pod /\ Namespace pd = namespace /\ Parsed pd = ∅
        /\ FilterMenuItems items (Some pd)
           = Some (filter (fun it => all_inverted it = true) items)
        /\ forall item, ResolveURL item (Some pd) = URL item).
Proof.
  unfold main_pod, NewPodData.
  destruct (String.eqb_spec pod "") as [->|Hne].
  - split; [tauto|]. discriminate.
  - set (p := {| Name := pod; Namespace := namespace;
                 RawJSON := ""; Parsed := ∅ |}).
    pose proof (FetchPodJSON_names p) as (Hn & Hns).
    pose proof (FetchPodJSON_error_Parsed p) as Hparsed.
    destruct (FetchPodJSON p) as [p' e]. simpl in *.
    split; [split; [discriminate|contradiction]|].
    intros pd err items [= <- ->].
    specialize (Hparsed err eq_refl).
    split; [exact Hn|]. split; [exact Hns|]. split; [exact Hparsed|].
    split.
    + apply (filter_loop_no_data [] items p' Hparsed).
    + intros item. apply ResolveURL_no_data, Hparsed.
Qed.

End FetchFacts.

(** ** [Labels] *)

(** A string with the separator in it splits into at least two segments. *)
Lemma Split_two (s : string) (sep : ascii) :
  GoStrings.ContainsByte s sep = true ->
  exists seg1 seg2 rest, GoStrings.Split s sep = seg1 :: seg2 :: rest.
Proof.
  induction s as [|c s IH]; simpl; [discriminate|].
  destruct (Ascii.eqb c sep) eqn:E; simpl.
  - intros _. pose proof (GoStringsFacts.Split_nonempty s sep) as Hne.
    destruct (GoStrings.Split s sep) as [|seg segs]; [contradiction|]. eauto.
  - intros Hc. destruct (IH Hc) as (seg1 & seg2 & rest & ->). eauto.
Qed.

(** Resolving [path.k] is resolving [path] and walking on along [k]. *)
Lemma ResolvePath_below (pd : PodData) (path k : string) :
  ResolvePath pd (path ++ "." ++ k)
  = ResolvePath pd path ≫= fun v => walk v (GoStrings.Split k ".").
Proof.
  unfold ResolvePath.
  change (path ++ "." ++ k) with (path ++ String "." k).
  rewrite GoStringsFacts.Split_app. apply walk_app.
Qed.

(** Below a map whose values are not maps, as the labels and the
    annotations of a pod are, a key with a dot in it cannot be addressed:
    the path is split at every dot, so it looks for a nested map. *)
Theorem ResolvePath_dotted_key (pd : PodData) (path k : string)
    (m : gmap string value) :
  ResolvePath pd path = Some (VMap m) ->
  map_Forall (fun _ v => is_map v = false) m ->
  GoStrings.ContainsByte k "." = true ->
  ResolvePath pd (path ++ "." ++ k) = None.
Proof.
  intros Hp Hflat Hdot. rewrite ResolvePath_below, Hp. simpl.
  destruct (Split_two k "." Hdot) as (seg1 & seg2 & rest & ->). simpl.
  destruct (m !! seg1) as [v|] eqn:E; [|reflexivity].
  apply Hflat in E. destruct v; try reflexivity. discriminate.
Qed.

Section LabelsFacts.
Context `{GoRuntime}.

(** The label a path addresses is the label [Labels] has: for a key
    without a dot, looking the key up in [Labels()] is resolving
    [metadata.labels.<key>] and stringifying what is found. *)
Theorem Labels_lookup (pd : PodData) (k : string) :
  GoStrings.ContainsByte k "." = false ->
  Labels pd !! k = stringify <$> ResolvePath pd ("metadata.labels." ++ k).
Proof.
  intros Hdot.
  change ("metadata.labels." ++ k) with ("metadata.labels" ++ "." ++ k).
  rewrite ResolvePath_below, (GoStringsFacts.Split_single _ _ Hdot).
  unfold Labels.
  destruct (ResolvePath pd "metadata.labels") as [[| | | | |m]|]; simpl;
    try apply lookup_empty.
  rewrite lookup_fmap. destruct (m !! k); reflexivity.
Qed.

Context `{RegexpPkg}.

(** A condition on [metadata.labels] matches what [Labels] shows: when
    the labels are a map (or absent, or null), the condition holds, before
    inversion, exactly if some label of [Labels()] has a key matching the
    key pattern and a text matching the value pattern. *)
Theorem Evaluate_Labels (c : Condition) (pd : PodData) (kre vre : Regexp) :
  Path c = "metadata.labels" ->
  keyRe c = Some kre -> valueRe c = Some vre ->
  match ResolvePath pd "metadata.labels" with
  | Some v => v = VNull \/ exists m, v = VMap m
  | None => True
  end ->
  exists base : bool,
    Evaluate c (Some pd) = Some (if Invert c then negb base else base)
    /\ (base = true <->
        exists k s, Labels pd !! k = Some s
                    /\ MatchString kre k = true /\ MatchString vre s = true).
Proof.
  intros Hpath Hk Hv Hshape. unfold Evaluate, Labels. simpl. rewrite Hpath.
  destruct (ResolvePath pd "metadata.labels") as [v|].
  - destruct Hshape as [->|[m ->]].
    + exists false. split; [reflexivity|]. split; [discriminate|].
      intros (k & s & Hl & _). rewrite lookup_empty in Hl. discriminate.
    + destruct (matchMap_compiled c kre vre m Hk Hv) as (b & -> & Hb).
      exists b. split; [reflexivity|]. rewrite Hb. split.
      * intros (k & v & Hm & Hmk & Hmv). exists k, (stringify v).
        rewrite lookup_fmap, Hm. auto.
      * intros (k & s & Hl & Hmk & Hmv). rewrite lookup_fmap in Hl.
        destruct (m !! k) as [v|] eqn:E; [|discriminate].
        injection Hl as <-. eauto.
  - exists false. split; [reflexivity|]. split; [discriminate|].
    intros (k & s & Hl & _). rewrite lookup_empty in Hl. discriminate.
Qed.

End LabelsFacts.

(** ** [MatchesPod] and [FilterMenuItems], continued *)

Section Filtering.
Context `{RegexpPkg} `{GoRuntime}.

(** The order of the conditions of an item does not matter, nor does
    listing a condition twice: two items with compiled conditions that
    are the same up to order and repetition match the same pods. *)
Theorem MatchesPod_any_order (item item' : MenuItem) (pd : PodData) :
  Forall compiled (Conditions (Filters item)) ->
  (forall c,
     c ∈ Conditions (Filters item) <-> c ∈ Conditions (Filters item')) ->
  MatchesPod item (Some pd) = MatchesPod item' (Some pd).
Proof.
  intros Hc Hsame.
  assert (Forall compiled (Conditions (Filters item'))) as Hc'.
  { apply Forall_forall. intros c Hin. apply Hsame in Hin.
    revert c Hin. apply Forall_forall. exact Hc. }
  unfold MatchesPod.
  destruct (all_pass_compiled _ pd Hc) as (b & -> & Hb).
  destruct (all_pass_compiled _ pd Hc') as (b' & -> & Hb').
  f_equal. apply eq_true_iff_eq. rewrite Hb, Hb'.
  split; intros Hall c Hin; apply Hall, Hsame, Hin.
Qed.

(** The loop returns the items it keeps, and returns a list of kept items
    as it is. *)
Lemma filter_loop_kept (items out : list MenuItem) (pd : option PodData) :
  filter_loop [] items pd = Some out -> out = filter (kept pd) items.
Proof.
  revert out. induction items as [|item rest IH]; intros out.
  - simpl. intros [= <-]. reflexivity.
  - cbn [filter_loop]. rewrite filter_cons.
    destruct (decide (kept pd item)) as [Hk|Hk]; destruct pd as [p|];
      unfold kept in Hk.
    + rewrite Hk. simpl. rewrite filter_loop_acc.
      destruct (filter_loop [] rest (Some p)) as [out'|]; [|discriminate].
      simpl. intros [= <-]. f_equal. apply IH. reflexivity.
    + rewrite Hk. simpl. rewrite filter_loop_acc.
      destruct (filter_loop [] rest None) as [out'|]; [|discriminate].
      simpl. intros [= <-]. f_equal. apply IH. reflexivity.
    + destruct (MatchesPod item (Some p)) as [[|]|]; simpl;
        [contradiction| |discriminate].
      apply IH.
    + apply Nat.eqb_neq in Hk. rewrite Hk. apply IH.
Qed.

Lemma filter_loop_all_kept (items : list MenuItem) (pd : option PodData) :
  Forall (kept pd) items -> filter_loop [] items pd = Some items.
Proof.
  induction 1 as [|item rest Hk _ IH]; [reflexivity|].
  cbn [filter_loop]. destruct pd as [p|]; unfold kept in Hk; rewrite Hk; simpl;
    rewrite filter_loop_acc, IH; reflexivity.
Qed.

(** Whenever [FilterMenuItems] returns, its result is exactly the items
    its loop keeps -- with a pod the items that match it, without one the
    items without conditions -- in the order of the input; filtering the
    result again changes nothing. *)
Theorem FilterMenuItems_exact (items out : list MenuItem)
    (pd : option PodData) :
  FilterMenuItems items pd = Some out ->
  out = filter (kept pd) items
  /\ (forall item, item ∈ out <-> item ∈ items /\ kept pd item)
  /\ FilterMenuItems out pd = Some out.
Proof.
  unfold FilterMenuItems. intros Hout.
  apply filter_loop_kept in Hout. subst out.
  split; [reflexivity|]. split.
  - intros item. rewrite list_elem_of_filter. tauto.
  - apply filter_loop_all_kept. apply Forall_forall.
    intros item Hin. apply list_elem_of_filter in Hin. tauto.
Qed.

End Filtering.

(** ** [ResolveURL], continued *)

(** A string is a prefix of what is appended to it. *)
Lemma prefix_append (a b : string) : String.prefix a (a ++ b) = true.
Proof.
  induction a as [|c a IH].
  - destruct b; reflexivity.
  - change (String c a ++ b) with (String c (a ++ b)). cbn [String.prefix].
    destruct (Ascii.ascii_dec c c); [exact IH|contradiction].
Qed.

Lemma length_append (a b : string) :
  String.length (a ++ b) = (String.length a + String.length b)%nat.
Proof.
  induction a as [|c a IH]; [reflexivity|].
  change (String c a ++ b) with (String c (a ++ b)). simpl. rewrite IH.
  reflexivity.
Qed.

Section URLs.
Context `{RegexpPkg} `{GoRuntime}.

(** [ResolveURL] only appends: the configured URL is a prefix of the
    result for every pod and every list of template variables, so nothing
    in the configured URL, not even [$VALUE], is ever rewritten; without
    template variables the result is the configured URL. *)
Theorem ResolveURL_extends_URL (item : MenuItem) (pd : option PodData) :
  GoStrings.HasPrefix (ResolveURL item pd) (URL item) = true
  /\ (String.length (URL item) <= String.length (ResolveURL item pd))%nat
  /\ (TemplateVars item = [] -> ResolveURL item pd = URL item).
Proof.
  unfold ResolveURL, GoStrings.HasPrefix. rewrite fold_append_templateVar.
  split; [apply prefix_append|]. split.
  - rewrite length_append. lia.
  - intros ->. simpl. apply append_empty_r.
Qed.

End URLs.

(** ** [ValidateConfig] and [LoadConfig] *)

Section Loading.
Context `{RegexpPkg}.

(** No item has an error exactly when every item is well-formed. *)
Lemma items_error_None (items : list MenuItem) :
  first_error (imap item_error items) = None <-> Forall item_ok items.
Proof.
  rewrite first_error_None, imap_None, Forall_lookup.
  split; intros Hall k it Hk; apply (item_error_None k it);
    eapply Hall; exact Hk.
Qed.

(** A validation succeeds exactly on well-formed items, and leaves them
    defaulted and compiled. *)
Lemma ValidateConfig_None (cfg : Config) :
  (ValidateConfig cfg).2 = None <->
  MenuItems cfg <> [] /\ Forall item_ok (MenuItems cfg).
Proof.
  unfold ValidateConfig.
  destruct (MenuItems cfg) as [|item rest] eqn:E.
  - simpl. split; [discriminate|]. intros [Hne _]. contradiction.
  - cbn [length Nat.eqb].
    pose proof (validate_items_error_0 (item :: rest)) as Her.
    destruct (validate_items 0 (item :: rest)) as [items' e].
    cbn [fst snd] in *. rewrite Her, items_error_None.
    split; [intros Hok; split; [discriminate|exact Hok]|tauto].
Qed.

Lemma ValidateConfig_ok (cfg : Config) :
  (ValidateConfig cfg).2 = None ->
  (ValidateConfig cfg).1 = {| MenuItems := map compiled_item (MenuItems cfg) |}.
Proof.
  unfold ValidateConfig.
  destruct (MenuItems cfg) as [|item rest] eqn:E; [discriminate|].
  cbn [length Nat.eqb].
  pose proof (validate_items_split 0 (item :: rest)) as Hsp.
  destruct (validate_items 0 (item :: rest)) as [items' e].
  cbn [fst snd] in *. intros ->. rewrite Hsp. reflexivity.
Qed.

(** Defaulting and compiling twice is defaulting and compiling once. *)
Lemma default_pattern_idempotent (p : string) :
  default_pattern (default_pattern p) = default_pattern p.
Proof.
  unfold default_pattern. destruct (String.eqb p "") eqn:E; [reflexivity|].
  rewrite E. reflexivity.
Qed.

Lemma compiled_condition_idempotent (c : Condition) :
  compiled_condition (compiled_condition c) = compiled_condition c.
Proof.
  unfold compiled_condition. simpl.
  rewrite !default_pattern_idempotent. reflexivity.
Qed.

Lemma compiled_item_idempotent (item : MenuItem) :
  compiled_item (compiled_item item) = compiled_item item.
Proof.
  unfold compiled_item, set_Conditions. simpl. do 2 f_equal.
  rewrite <- list_fmap_compose. apply list_fmap_ext.
  intros k c _. apply compiled_condition_idempotent.
Qed.

Lemma compiled_item_ok (item : MenuItem) :
  item_ok item -> item_ok (compiled_item item).
Proof.
  intros (Ht & Hu & Hc & Htv). unfold item_ok. simpl.
  split; [exact Ht|]. split; [exact Hu|]. split; [|exact Htv].
  apply Forall_fmap. eapply Forall_impl; [exact Hc|].
  intros c (Hp & Hk & Hv). unfold cond_ok. simpl.
  rewrite !default_pattern_idempotent. auto.
Qed.

(** Validating a configuration that has been validated changes nothing:
    it succeeds again and leaves the same patterns and the same compiled
    expressions. *)
Theorem ValidateConfig_idempotent (cfg : Config) :
  (ValidateConfig cfg).2 = None ->
  ValidateConfig (ValidateConfig cfg).1 = ((ValidateConfig cfg).1, None).
Proof.
  intros Hok. rewrite (ValidateConfig_ok cfg Hok).
  apply ValidateConfig_None in Hok as (Hne & Hitems).
  set (cfg' := {| MenuItems := map compiled_item (MenuItems cfg) |}).
  assert ((ValidateConfig cfg').2 = None) as Hagain.
  { apply ValidateConfig_None. simpl. split.
    - destruct (MenuItems cfg); [contradiction|discriminate].
    - apply Forall_fmap. eapply Forall_impl; [exact Hitems|].
      intros it. apply compiled_item_ok. }
  pose proof (ValidateConfig_ok cfg' Hagain) as Hstate.
  destruct (ValidateConfig cfg') as [cfg'' e].
  simpl in *. subst e cfg''. f_equal. unfold cfg'. f_equal.
  rewrite <- list_fmap_compose. apply list_fmap_ext.
  intros k it _. apply compiled_item_idempotent.
Qed.

Context `{GoRuntime} `{Host} `{!ConfigJSON}.

(** [LoadConfig] returns a configuration only after it has read the
    file, decoded it and validated it: the result then has items, all
    well-formed, defaulted and compiled, so that filtering them never
    meets a missing pattern.  On every error the result is the zero
    configuration, never a partly validated one. *)
Theorem LoadConfig_validated (path : string) :
  match (LoadConfig path).2 with
  | None =>
      exists data raw,
        ReadFile path = inr data /\ Unmarshal_Config data = inr raw
        /\ MenuItems raw <> [] /\ Forall item_ok (MenuItems raw)
        /\ MenuItems (LoadConfig path).1 = map compiled_item (MenuItems raw)
        /\ Forall (fun it => Forall compiled (Conditions (Filters it)))
             (MenuItems (LoadConfig path).1)
        /\ forall pd,
             is_Some (FilterMenuItems (MenuItems (LoadConfig path).1) pd)
  | Some err =>
      MenuItems (LoadConfig path).1 = []
      /\ match err with
         | ErrReadConfig e => ReadFile path = inl e
         | ErrParseConfig e =>
             exists data, ReadFile path = inr data
                          /\ Unmarshal_Config data = inl e
         | ErrInvalidConfig e =>
             exists data raw, ReadFile path = inr data
                              /\ Unmarshal_Config data = inr raw
                              /\ (ValidateConfig raw).2 = Some e
         end
  end.
Proof.
  unfold LoadConfig.
  destruct (ReadFile path) as [e|data] eqn:Er; [simpl; auto|].
  destruct (Unmarshal_Config data) as [e|raw] eqn:Eu; [simpl; eauto|].
  pose proof (ValidateConfig_ok raw) as Hok.
  pose proof (ValidateConfig_None raw) as Hnone.
  destruct (ValidateConfig raw) as [cfg [e|]] eqn:Ev; cbn [fst snd] in *.
  - split; [reflexivity|]. exists data, raw. rewrite Ev. auto.
  - destruct (proj1 Hnone eq_refl) as (Hne & Hitems).
    rewrite (Hok eq_refl). cbn [MenuItems].
    assert (Forall (fun it => Forall compiled (Conditions (Filters it)))
              (map compiled_item (MenuItems raw))) as Hc.
    { apply Forall_fmap. eapply Forall_impl; [exact Hitems|].
      intros it. apply compiled_item_compiled. }
    exists data, raw. repeat (split; [auto; fail|]).
    intros pd. apply filter_loop_total. right. exact Hc.
Qed.

End Loading.

(** ** Induction on values *)

(** A value is larger than the values it holds. *)
Lemma value_size_VMap (m : gmap string value) :
  value_size (VMap m)
  = S (map_fold (fun _ child n => value_size child + n)%nat 0%nat m).
Proof. reflexivity. Qed.

Lemma value_size_lookup (m : gmap string value) (k : string) (v : value) :
  m !! k = Some v -> (value_size v < value_size (VMap m))%nat.
Proof.
  intros Hk. rewrite value_size_VMap.
  rewrite (map_fold_delete_L _ _ k v m); [lia| |exact Hk].
  intros. lia.
Qed.

Lemma value_size_elem (l : list value) (v : value) :
  v ∈ l -> (value_size v < value_size (VArr l))%nat.
Proof.
  change (value_size (VArr l))
    with (S (foldr (fun child n => value_size child + n)%nat 0%nat l)).
  induction 1 as [v l|v w l _ IH]; simpl; lia.
Qed.

(** Induction on values: a property of the scalars that passes from the
    elements to the slice and from the entries to the map holds of every
    value. *)
Lemma value_ind' (P : value -> Prop) :
  (forall v, is_scalar v = true -> P v) ->
  (forall l, Forall P l -> P (VArr l)) ->
  (forall m, map_Forall (fun _ => P) m -> P (VMap m)) ->
  forall v, P v.
Proof.
  intros Hs Ha Hm v.
  remember (value_size v) as n eqn:En. revert v En.
  induction (lt_wf n) as [n _ IH]. intros v ->.
  assert (forall w, (value_size w < value_size v)%nat -> P w) as IH'.
  { intros w Hw. eapply IH; [exact Hw|reflexivity]. }
  clear IH.
  destruct v as [|b|f|s|l|m]; try (apply Hs; reflexivity).
  - apply Ha, Forall_forall. intros w Hw. apply IH', value_size_elem, Hw.
  - apply Hm. intros k w Hw. apply IH'. eapply value_size_lookup, Hw.
Qed.

(** ** [FlattenPaths] *)

Module GoSortFacts.
Import GoSort.

(** The order on strings is total, antisymmetric and transitive. *)
Lemma string_compare_refl (s : string) : String.compare s s = Eq.
Proof.
  induction s as [|c s IH]; simpl; [reflexivity|].
  unfold Ascii.compare. rewrite N.compare_refl. exact IH.
Qed.

Lemma string_compare_trans (c : comparison) (s1 s2 s3 : string) :
  String.compare s1 s2 = c -> String.compare s2 s3 = c ->
  String.compare s1 s3 = c.
Proof.
  revert s2 s3. induction s1 as [|a1 s1 IH]; intros [|a2 s2] [|a3 s3]; simpl;
    try congruence.
  unfold Ascii.compare.
  destruct (N.compare_spec (N_of_ascii a1) (N_of_ascii a2)) as [E12|L12|L12];
    destruct (N.compare_spec (N_of_ascii a2) (N_of_ascii a3)) as [E23|L23|L23];
    intros H1 H2; try congruence.
  - rewrite E12, E23, N.compare_refl. eapply IH; eassumption.
  - rewrite E12, (proj2 (N.compare_lt_iff _ _) L23). exact H2.
  - rewrite E12, (proj2 (N.compare_gt_iff _ _) L23). exact H2.
  - rewrite <- E23, (proj2 (N.compare_lt_iff _ _) L12). exact H1.
  - rewrite (proj2 (N.compare_lt_iff _ _) (N.lt_trans _ _ _ L12 L23)).
    exact H1.
  - rewrite <- E23, (proj2 (N.compare_gt_iff _ _) L12). exact H1.
  - rewrite (proj2 (N.compare_gt_iff _ _) (N.lt_trans _ _ _ L23 L12)).
    exact H1.
Qed.

Lemma string_le_total : Total string_le.
Proof. intros a b. apply String.leb_total. Qed.

Lemma string_le_antisym : AntiSymm (=) string_le.
Proof. intros a b. apply String.leb_antisym. Qed.

Lemma string_le_trans : Transitive string_le.
Proof.
  intros a b c. unfold string_le, String.leb.
  destruct (String.compare a b) eqn:Eab; [| |discriminate];
    destruct (String.compare b c) eqn:Ebc; try discriminate; intros _ _.
  - rewrite (string_compare_trans Eq a b c Eab Ebc). reflexivity.
  - apply String.compare_eq_iff in Eab. subst b. rewrite Ebc. reflexivity.
  - apply String.compare_eq_iff in Ebc. subst c. rewrite Eab. reflexivity.
  - rewrite (string_compare_trans Lt a b c Eab Ebc). reflexivity.
Qed.

#[local] Existing Instance string_le_total.
#[local] Existing Instance string_le_antisym.
#[local] Existing Instance string_le_trans.

(** [sort.Strings] returns the sorted arrangement of its argument, which
    is the same for every arrangement of the argument. *)
Lemma Strings_Sorted (a : list string) : Sorted string_le (Strings a).
Proof. apply Sorted_merge_sort. apply _. Qed.

Lemma Strings_Permutation (a : list string) : Strings a ≡ₚ a.
Proof. apply merge_sort_Permutation. Qed.

Lemma Strings_unique (a b : list string) : a ≡ₚ b -> Strings a = Strings b.
Proof.
  intros Hab. apply (Sorted_unique string_le); try apply Strings_Sorted.
  rewrite !Strings_Permutation. exact Hab.
Qed.

End GoSortFacts.

Section Flatten.
Context `{GoRuntime}.

(** The three cases of [flattenRecurse]. *)
Lemma flattenRecurse_VMap (prefix : string) (m : gmap string value)
    (out : list string) :
  flattenRecurse prefix (VMap m) out
  = foldr (uncurry (flatten_entry prefix)) out (map_to_list m).
Proof.
  rewrite <- map_fold_foldr. reflexivity.
Qed.

Lemma flattenRecurse_VArr (prefix : string) (l : list value)
    (out : list string) :
  flattenRecurse prefix (VArr l) out = flatten_elements prefix 0 l out.
Proof. reflexivity. Qed.

Lemma flattenRecurse_scalar (prefix : string) (v : value) (out : list string) :
  is_scalar v = true ->
  flattenRecurse prefix v out
  = (out ++ [(prefix ++ " = " ++ stringify v)%string])%list.
Proof. destruct v; try discriminate; reflexivity. Qed.

(** The lines are appended to the slice, whatever it holds. *)
Lemma flattenRecurse_acc (v : value) :
  forall prefix out,
    flattenRecurse prefix v out = (out ++ flattenRecurse prefix v [])%list.
Proof.
  induction v as [v Hv|l IH|m IH] using value_ind'; intros prefix out.
  - rewrite !(flattenRecurse_scalar _ _ _ Hv). reflexivity.
  - rewrite !flattenRecurse_VArr. generalize 0%nat. revert out.
    induction IH as [|child rest Hc _ IHrest]; intros out i; simpl.
    + rewrite app_nil_r. reflexivity.
    + rewrite IHrest, (IHrest (flattenRecurse _ _ [])), Hc.
      rewrite <- app_assoc. reflexivity.
  - rewrite !flattenRecurse_VMap.
    assert (Forall (fun kv => forall prefix out,
                      flattenRecurse prefix kv.2 out
                      = (out ++ flattenRecurse prefix kv.2 [])%list)
              (map_to_list m)) as Hall.
    { apply Forall_forall. intros [k v] Hkv.
      apply elem_of_map_to_list in Hkv. exact (IH k v Hkv). }
    induction Hall as [|[k v] rest Hc _ IHrest]; simpl.
    + rewrite app_nil_r. reflexivity.
    + unfold flatten_entry at 1 3. simpl in Hc.
      rewrite Hc, IHrest, (Hc _ (foldr _ _ _)).
      rewrite <- app_assoc. reflexivity.
Qed.

Lemma flatten_elements_acc (prefix : string) (i : nat) (l : list value)
    (out : list string) :
  flatten_elements prefix i l out
  = (out ++ flatten_elements prefix i l [])%list.
Proof.
  revert i out. induction l as [|child rest IH]; intros i out; simpl.
  - rewrite app_nil_r. reflexivity.
  - rewrite IH, (IH _ (flattenRecurse _ _ [])), flattenRecurse_acc.
    rewrite <- app_assoc. reflexivity.
Qed.

(** The lines of a map are the lines of its entries. *)
Lemma flattenRecurse_entries (prefix : string) (m : gmap string value) :
  flattenRecurse prefix (VMap m) []
  ≡ₚ map_to_list m ≫= fun kv => flatten_entry prefix kv.1 kv.2 [].
Proof.
  rewrite flattenRecurse_VMap.
  induction (map_to_list m) as [|[k v] rest IH]; simpl; [reflexivity|].
  unfold flatten_entry at 1. rewrite flattenRecurse_acc, IH.
  apply Permutation_app_comm.
Qed.

(** Whatever the order in which the maps are ranged over, the lines are
    the same up to their order. *)
Lemma flattens_Permutation :
  (forall prefix v out out',
     flattens prefix v out out' ->
     out' ≡ₚ (out ++ flattenRecurse prefix v [])%list)
  /\ (forall prefix kvs out out',
        flattens_entries prefix kvs out out' ->
        out' ≡ₚ (out ++ (kvs ≫= fun kv => flatten_entry prefix kv.1 kv.2 []))%list)
  /\ (forall prefix i l out out',
        flattens_elements prefix i l out out' ->
        out' ≡ₚ (out ++ flatten_elements prefix i l [])%list).
Proof.
  apply flattens_mutind.
  - intros prefix m kvs out out' Hperm _ IH.
    rewrite IH, flattenRecurse_entries, Hperm. reflexivity.
  - intros prefix l out out' _ IH. rewrite IH. reflexivity.
  - intros prefix v out Hv.
    rewrite (flattenRecurse_scalar _ _ [] Hv). reflexivity.
  - intros prefix out. simpl. rewrite app_nil_r. reflexivity.
  - intros prefix k child rest out out1 out2 _ IH1 _ IH2.
    rewrite IH2, IH1. simpl. rewrite <- app_assoc. reflexivity.
  - intros prefix i out. simpl. rewrite app_nil_r. reflexivity.
  - intros prefix i child rest out out1 out2 _ IH1 _ IH2.
    rewrite IH2, IH1. simpl.
    rewrite (flatten_elements_acc _ _ _ (flattenRecurse _ _ [])).
    rewrite <- app_assoc. reflexivity.
Qed.

(** The traversal of the model is one of them. *)
Lemma flattenRecurse_flattens (v : value) :
  forall prefix out, flattens prefix v out (flattenRecurse prefix v out).
Proof.
  induction v as [v Hv|l IH|m IH] using value_ind'; intros prefix out.
  - rewrite (flattenRecurse_scalar _ _ _ Hv). constructor. exact Hv.
  - constructor. rewrite flattenRecurse_VArr. generalize 0%nat. revert out.
    induction IH as [|child rest Hc _ IHrest]; intros out i; simpl.
    + constructor.
    + econstructor; [apply Hc|apply IHrest].
  - rewrite flattenRecurse_VMap.
    apply (flattens_map prefix m (reverse (map_to_list m)));
      [apply reverse_Permutation|].
    assert (Forall (fun kv => forall prefix out,
                      flattens prefix kv.2 out (flattenRecurse prefix kv.2 out))
              (map_to_list m)) as Hall.
    { apply Forall_forall. intros [k v] Hkv.
      apply elem_of_map_to_list in Hkv. exact (IH k v Hkv). }
    rewrite <- (reverse_involutive (map_to_list m)) at 2.
    apply Forall_reverse in Hall. revert out.
    induction Hall as [|[k v] rest Hc _ IHrest]; intros out.
    + constructor.
    + rewrite reverse_cons, foldr_snoc.
      econstructor; [apply Hc|]. apply IHrest.
Qed.

(** The result of [FlattenPaths] does not depend on the order in which
    Go ranges over the maps of the pod: every traversal, sorted, gives the
    list the model gives, and that list is sorted. *)
Theorem FlattenPaths_any_order (p : PodData) (out : list string) :
  flattens "" (VMap (Parsed p)) [] out ->
  GoSort.Strings out = FlattenPaths p
  /\ Sorted GoSort.string_le (FlattenPaths p)
  /\ FlattenPaths p ≡ₚ out.
Proof.
  intros Hrun. apply (proj1 flattens_Permutation) in Hrun. simpl in Hrun.
  unfold FlattenPaths. split; [|split].
  - apply GoSortFacts.Strings_unique, Hrun.
  - apply GoSortFacts.Strings_Sorted.
  - rewrite GoSortFacts.Strings_Permutation, Hrun. reflexivity.
Qed.

End Flatten.

(** A path is its first segment followed by the others, a dot before
    each. *)
Lemma Join_cons (seg : string) (rest : list string) :
  GoStrings.Join (seg :: rest) "."
  = seg ++ concat_strings (map (String.append ".") rest).
Proof.
  revert seg. induction rest as [|seg' rest IH]; intros seg.
  - simpl. symmetry. apply append_empty_r.
  - change (GoStrings.Join (seg :: seg' :: rest) ".")
      with (seg ++ "." ++ GoStrings.Join (seg' :: rest) ".").
    rewrite IH. simpl. rewrite <- !append_assoc. reflexivity.
Qed.

Section Listed.
Context `{GoRuntime}.

(** The lines of an entry are among the lines of the map. *)
Lemma flattenRecurse_lookup (prefix : string) (m : gmap string value)
    (k : string) (child : value) (line : string) :
  m !! k = Some child ->
  line ∈ flattenRecurse (child_path prefix k) child [] ->
  line ∈ flattenRecurse prefix (VMap m) [].
Proof.
  intros Hk Hline. rewrite flattenRecurse_entries.
  apply list_elem_of_bind. exists (k, child). split; [exact Hline|].
  apply elem_of_map_to_list. exact Hk.
Qed.

(** Below a non-empty prefix, the scalar a walk reaches is listed under
    the prefix extended by the segments. *)
Lemma walk_listed (segs : list string) :
  forall prefix cur v,
    segs = [] \/ prefix <> "" ->
    walk cur segs = Some v -> is_scalar v = true ->
    (prefix ++ concat_strings (map (String.append ".") segs)
       ++ " = " ++ stringify v)
    ∈ flattenRecurse prefix cur [].
Proof.
  induction segs as [|seg rest IH]; intros prefix cur v Hp Hw Hv.
  - simpl in Hw. injection Hw as ->.
    rewrite (flattenRecurse_scalar _ _ _ Hv). simpl.
    apply list_elem_of_singleton. reflexivity.
  - destruct Hp as [[=]|Hp]. simpl in Hw.
    destruct cur as [| | | | |m]; try discriminate.
    destruct (m !! seg) as [next|] eqn:E; [|discriminate].
    apply (flattenRecurse_lookup prefix m seg next _ E).
    assert (child_path prefix seg = prefix ++ "." ++ seg) as ->.
    { unfold child_path. destruct (String.eqb_spec prefix ""); [contradiction|].
      reflexivity. }
    change (concat_strings (map (String.append ".") (seg :: rest)))
      with (("." ++ seg) ++ concat_strings (map (String.append ".") rest)).
    rewrite (append_assoc ("." ++ seg)), <- (append_assoc prefix).
    apply IH; [|exact Hw|exact Hv].
    right. destruct prefix; [contradiction|discriminate].
Qed.

(** [FlattenPaths] lists what [ResolvePath] finds: a path that does not
    begin with a dot and that resolves to a scalar has its line, the path
    and the text of the scalar, in the list. *)
Theorem FlattenPaths_lists_resolved (p : PodData) (path : string) (v : value) :
  GoStrings.HasPrefix path "." = false ->
  ResolvePath p path = Some v -> is_scalar v = true ->
  (path ++ " = " ++ stringify v) ∈ FlattenPaths p.
Proof.
  intros Hdot Hr Hv. unfold FlattenPaths.
  rewrite GoSortFacts.Strings_Permutation.
  unfold ResolvePath in Hr.
  pose proof (GoStringsFacts.Join_Split path ".") as Hj.
  destruct (GoStrings.Split path ".") as [|seg rest] eqn:Es.
  { exfalso. exact (GoStringsFacts.Split_nonempty path "." Es). }
  simpl in Hr. destruct (Parsed p !! seg) as [next|] eqn:E; [|discriminate].
  apply (flattenRecurse_lookup "" _ seg next _ E).
  change (child_path "" seg) with seg.
  rewrite Join_cons in Hj. rewrite <- Hj.
  rewrite (append_assoc seg).
  apply walk_listed; [|exact Hr|exact Hv].
  destruct rest as [|seg' rest]; [left; reflexivity|right].
  intros ->. rewrite <- Hj in Hdot.
  change ("" ++ concat_strings (map (String.append ".") (seg' :: rest)))
    with (String "." (seg' ++ concat_strings (map (String.append ".") rest)))
    in Hdot.
  unfold GoStrings.HasPrefix in Hdot. cbn [String.prefix] in Hdot.
  destruct (Ascii.ascii_dec "." "."); [|contradiction].
  destruct (seg' ++ _); discriminate.
Qed.

End Listed.

(** ** [stringify]: numbers with a fraction *)

Module Float64Fractions.
Import Float64 Float64Facts.

#[local] Open Scope Z_scope.

(** Shifting right never lowers the exponent. *)
Lemma shr_exponent_ge (mrs : shr_record) (e n : Z) : e <= snd (shr mrs e n).
Proof. destruct n; cbn [shr snd]; lia. Qed.

(** Rounding never lowers the exponent. *)
Lemma binary_round_aux_exponent_ge (s : bool) (q : positive) (e : Z) :
  match binary_round_aux prec emax s (Z.pos q) e loc_Exact with
  | S754_finite _ _ e' => e <= e'
  | _ => True
  end.
Proof.
  unfold binary_round_aux, shr_fexp.
  pose proof (shr_exponent_ge (shr_record_of_loc (Z.pos q) loc_Exact) e
                (fexp prec emax (Zdigits2 (Z.pos q) + e) - e)) as H1.
  destruct (shr (shr_record_of_loc (Z.pos q) loc_Exact) e _) as [mrs' e'].
  cbn [snd] in H1.
  set (m1 := round_nearest_even (shr_m mrs') (loc_of_shr_record mrs')).
  pose proof (shr_exponent_ge (shr_record_of_loc m1 loc_Exact) e'
                (fexp prec emax (Zdigits2 m1 + e') - e')) as H2.
  destruct (shr (shr_record_of_loc m1 loc_Exact) e' _) as [mrs'' e''].
  cbn [snd] in H2.
  destruct (shr_m mrs''); try exact I.
  destruct (e'' <=? emax - prec); [lia|exact I].
Qed.

(** A float with a non-negative exponent, and a mantissa shifted left by
    as much as its exponent is negative, are integral. *)
Lemma is_integral_nonneg (s : bool) (m : positive) (e : Z) :
  0 <= e -> is_integral (S754_finite s m e) = true.
Proof.
  intros He. unfold is_integral. apply Z.eqb_eq.
  change (Z.shiftl (Z.shiftl (Z.pos m) e) (- e))
    with (Z.shiftr (Z.shiftl (Z.pos m) e) e).
  rewrite Z.shiftr_shiftl_l, Z.sub_diag, Z.shiftl_0_r by lia. reflexivity.
Qed.

Lemma is_integral_shifted (s : bool) (p k : positive) :
  is_integral (S754_finite s (Pos.iter xO p k) (Z.neg k)) = true.
Proof.
  unfold is_integral. apply Z.eqb_eq. rewrite <- shiftl_pos_iter.
  change (Z.shiftl (Z.shiftl (Z.pos p) (Z.pos k)) (Z.neg k))
    with (Z.shiftr (Z.shiftl (Z.pos p) (Z.pos k)) (Z.pos k)).
  rewrite Z.shiftr_shiftl_l, Z.sub_diag, Z.shiftl_0_r by lia. reflexivity.
Qed.

(** Rounding an integer gives an integral float. *)
Lemma binary_round_integral (s : bool) (p : positive) :
  match binary_round prec emax s p 0 with
  | S754_finite s' m e => is_integral (S754_finite s' m e) = true
  | _ => True
  end.
Proof.
  unfold binary_round.
  set (D := Z.pos (digits2_pos p)).
  assert (fexp prec emax (D + 0) = D - prec) as ->
    by (unfold fexp, emin, prec, emax; subst D; lia).
  unfold shl_align.
  destruct (D - prec - 0) as [|k|k] eqn:Ek.
  - pose proof (binary_round_aux_exponent_ge s p 0) as Hge.
    destruct (binary_round_aux _ _ _ _ _ _); try exact I.
    apply is_integral_nonneg, Hge.
  - pose proof (binary_round_aux_exponent_ge s p 0) as Hge.
    destruct (binary_round_aux _ _ _ _ _ _); try exact I.
    apply is_integral_nonneg, Hge.
  - assert (D - prec = Z.neg k) as -> by lia.
    rewrite binary_round_aux_canonical; [apply is_integral_shifted|].
    unfold bounded, canonical_mantissa. apply andb_true_iff. split.
    + apply Z.eqb_eq. rewrite digits2_pos_iter. fold D.
      unfold fexp, emin, prec, emax in *. lia.
    + apply Z.leb_le. unfold prec, emax. lia.
Qed.

(** [float64(i)] has an integral value. *)
Lemma float64_of_int64_integral (i : Z) :
  match float64_of_int64 i with
  | S754_finite s m e => is_integral (S754_finite s m e) = true
  | _ => True
  end.
Proof.
  unfold float64_of_int64. destruct i as [|p|p]; cbn [binary_normalize].
  - exact I.
  - apply binary_round_integral.
  - apply binary_round_integral.
Qed.

(** Two finite floats that compare equal are the same float. *)
Lemma eqb_finite (s : bool) (m : positive) (e : Z) (g : float64) :
  eqb (S754_finite s m e) g = true -> g = S754_finite s m e.
Proof.
  unfold eqb, SFeqb, SFcompare.
  destruct g as [s'|s'| |s' m' e']; try (destruct s; discriminate);
    try (destruct s, s'; discriminate).
  destruct s, s'; try discriminate;
    destruct (Z.compare_spec e e') as [->|?|?]; try discriminate;
    change (Pos.compare_cont Eq m m') with (Pos.compare m m');
    destruct (Pos.compare_spec m m') as [->|?|?]; try discriminate;
    reflexivity.
Qed.

(** The test [val == float64(int64(val))] fails on every float with a
    fraction. *)
Lemma eqb_float64_of_int64_fraction (f : float64) (i : Z) :
  is_float64 f = true -> is_integral f = false ->
  eqb f (float64_of_int64 i) = false.
Proof.
  intros Hf Hi. destruct f as [s|s| |s m e]; try discriminate.
  destruct (eqb (S754_finite s m e) (float64_of_int64 i)) eqn:E; [|reflexivity].
  apply eqb_finite in E. pose proof (float64_of_int64_integral i) as Hint.
  rewrite E in Hint. congruence.
Qed.

End Float64Fractions.

(** A number with a fraction is printed by [%g], on every runtime: it is
    never equal to the conversion of an [int64], whatever [int64(val)]
    yields. *)
Theorem stringify_fraction `{GoRuntime} (f : float64) :
  Float64.is_float64 f = true -> Float64.is_integral f = false ->
  stringify (VNum f) = fmt_g f /\ stringify (VNum f) <> "".
Proof.
  intros Hf Hi. unfold stringify.
  rewrite (Float64Fractions.eqb_float64_of_int64_fraction f _ Hf Hi).
  split; [reflexivity|apply fmt_g_nonempty].
Qed.

(** ** [anchorPattern] *)

#[local] Existing Instance RE2.engine.

(** [TestAnchorPattern]. *)
Example TestAnchorPattern :
  anchorPattern "app" = "^app$"
  /\ anchorPattern ".*" = "^.*$"
  /\ anchorPattern "app.*" = "^app.*$"
  /\ anchorPattern "^already" = "^already$"
  /\ anchorPattern "already$" = "^already$"
  /\ anchorPattern "^both$" = "^both$".
Proof. repeat split. Qed.

(** On a pattern without operators the anchored form matches the whole
    candidate only (the tests "implicit anchoring prevents substring
    match"). *)
Example anchorPattern_literal :
  exists r,
    Compile (anchorPattern "app") = Some r
    /\ MatchString r "app" = true
    /\ MatchString r "myapp" = false
    /\ MatchString r "application" = false.
Proof. eexists. repeat split. Qed.

(** The two ends are checked independently: the [^] that has just been
    prepended does not count as a [$]. *)
Lemma HasSuffix_after_anchor (p : string) (c : ascii) :
  Ascii.eqb "^" c = false ->
  GoStrings.HasSuffix ("^" ++ p) (String c "")
  = GoStrings.HasSuffix p (String c "").
Proof.
  intros Hc. change ("^" ++ p) with (String "^" p).
  rewrite GoStringsFacts.HasSuffix_cons. destruct p; [|reflexivity].
  rewrite Hc. reflexivity.
Qed.

(** [anchorPattern] adds [^] in front unless the source starts with it,
    and [$] behind unless the source ends with it. *)
Lemma anchorPattern_ends (p : string) :
  anchorPattern p
  = (if GoStrings.HasPrefix p "^" then "" else "^") ++ p
    ++ (if GoStrings.HasSuffix p "$" then "" else "$").
Proof.
  unfold anchorPattern. destruct (GoStrings.HasPrefix p "^") eqn:Ep;
    cbn [negb].
  - destruct (GoStrings.HasSuffix p "$"); cbn [negb]; [|reflexivity].
    symmetry. apply append_empty_r.
  - rewrite HasSuffix_after_anchor by reflexivity.
    destruct (GoStrings.HasSuffix p "$"); cbn [negb].
    + rewrite append_empty_r. reflexivity.
    + rewrite append_assoc. reflexivity.
Qed.

Lemma anchorPattern_anchored (p : string) :
  GoStrings.HasPrefix (anchorPattern p) "^" = true
  /\ GoStrings.HasSuffix (anchorPattern p) "$" = true.
Proof.
  unfold anchorPattern. destruct (GoStrings.HasPrefix p "^") eqn:Ep;
    cbn [negb].
  - destruct (GoStrings.HasSuffix p "$") eqn:Es; cbn [negb].
    + auto.
    + split; [apply GoStringsFacts.HasPrefix_app; exact Ep|].
      apply GoStringsFacts.HasSuffix_app_last.
  - rewrite HasSuffix_after_anchor by reflexivity.
    destruct (GoStrings.HasSuffix p "$") eqn:Es; cbn [negb].
    + split; [apply GoStringsFacts.HasPrefix_cons|].
      rewrite HasSuffix_after_anchor by reflexivity. exact Es.
    + split; [|apply GoStringsFacts.HasSuffix_app_last].
      apply GoStringsFacts.HasPrefix_app. apply GoStringsFacts.HasPrefix_cons.
Qed.

(** Anchors are never duplicated: anchoring a pattern that [anchorPattern]
    has anchored changes nothing. *)
Lemma anchorPattern_idempotent (p : string) :
  anchorPattern (anchorPattern p) = anchorPattern p.
Proof.
  destruct (anchorPattern_anchored p) as [Hp Hs].
  unfold anchorPattern at 1. rewrite Hp. cbn [negb]. rewrite Hs. reflexivity.
Qed.

(** Continuations that agree give the same answer. *)
Lemma accepts_ext (r : RE2.re) (bot : bool) (s : string)
    (k k' : bool -> string -> bool) :
  (forall b t, k b t = k' b t) ->
  RE2.accepts r bot s k = RE2.accepts r bot s k'.
Proof.
  revert bot s k k'.
  induction r as [| c | | | | r1 IH1 r2 IH2 | r1 IH1 r2 IH2
                 | r1 IH1 | r1 IH1 | r1 IH1];
    intros bot s k k' Hk; cbn [RE2.accepts].
  - apply Hk.
  - destruct s; [reflexivity|]. rewrite Hk. reflexivity.
  - destruct s; [reflexivity|]. rewrite Hk. reflexivity.
  - rewrite Hk. reflexivity.
  - rewrite Hk. reflexivity.
  - apply IH1. intros b t. apply IH2. exact Hk.
  - rewrite (IH1 _ _ _ _ Hk), (IH2 _ _ _ _ Hk). reflexivity.
  - generalize (String.length s) as n. intros n. revert bot s.
    induction n as [|n IHn]; intros bot s.
    + rewrite Hk. reflexivity.
    + rewrite Hk. f_equal. apply IH1. intros b t. rewrite IHn. reflexivity.
  - apply IH1. intros b0 t0.
    generalize (String.length t0) as n. intros n. revert b0 t0.
    induction n as [|n IHn]; intros b0 t0.
    + rewrite Hk. reflexivity.
    + rewrite Hk. f_equal. apply IH1. intros b t. rewrite IHn. reflexivity.
  - rewrite (IH1 _ _ _ _ Hk), Hk. reflexivity.
Qed.

Lemma search_BeginText_later (r : RE2.re) (s : string) :
  RE2.search (RE2.Cat RE2.BeginText r) false s = false.
Proof. induction s as [|c s IH]; [reflexivity|]. cbn. exact IH. Qed.

(** Anchors around the pattern as a whole, [^(?:p)$], do what the
    documentation promises: the text contains a match exactly when the
    whole text is a match of [p]. *)
Lemma anchored_group_full_match (r : RE2.re) (s : string) :
  RE2.match_string (RE2.Cat RE2.BeginText (RE2.Cat r RE2.EndText)) s
  = RE2.full_match r s.
Proof.
  unfold RE2.match_string, RE2.full_match.
  assert (RE2.match_here (RE2.Cat RE2.BeginText (RE2.Cat r RE2.EndText)) true s
          = RE2.accepts r true s (fun _ t => String.eqb t "")) as Hhere.
  { unfold RE2.match_here. cbn [RE2.accepts andb]. apply accepts_ext.
    intros b t. cbn [RE2.accepts]. apply andb_true_r. }
  destruct s as [|c s]; cbn [RE2.search]; rewrite Hhere.
  - apply orb_false_r.
  - rewrite search_BeginText_later. apply orb_false_r.
Qed.

(** A plain byte is parsed as a literal. *)
Lemma parse_loop_plain_byte (c : ascii) (s : string) (cur : RE2.frame)
    (stack : list RE2.frame) (rep : RE2.rep_state) :
  RE2.is_plain c = true ->
  RE2.parse_loop (String c s) cur stack rep
  = RE2.parse_loop s (RE2.push_item (RE2.Lit c) cur) stack RE2.NoRep.
Proof.
  unfold RE2.is_plain. intros Hc. apply negb_true_iff in Hc.
  repeat (apply orb_false_iff in Hc as [Hc ?]).
  cbn [RE2.parse_loop].
  repeat match goal with H : _ = false |- _ => rewrite H; clear H end.
  reflexivity.
Qed.

Lemma parse_loop_plain (p rest : string) (cur : RE2.frame)
    (stack : list RE2.frame) (rep : RE2.rep_state) :
  RE2.all_plain p = true ->
  RE2.parse_loop (p ++ rest) cur stack rep
  = RE2.parse_loop rest (RE2.push_literal p cur) stack
      (match p with EmptyString => rep | _ => RE2.NoRep end).
Proof.
  revert cur rep. induction p as [|c p IH]; intros cur rep Hp.
  - reflexivity.
  - cbn [RE2.all_plain] in Hp. apply andb_true_iff in Hp as [Hc Hp].
    change (String c p ++ rest) with (String c (p ++ rest)).
    rewrite (parse_loop_plain_byte c _ _ _ _ Hc), (IH _ _ Hp).
    destruct p; reflexivity.
Qed.

Lemma push_literal_frame (p : string) (f : RE2.frame) (tail : RE2.re) :
  RE2.alts (RE2.push_literal p f) = RE2.alts f
  /\ RE2.wrap (RE2.items (RE2.push_literal p f)) tail
     = RE2.wrap (RE2.items f) (RE2.literal p tail).
Proof.
  revert f tail. induction p as [|c p IH]; intros f tail;
    [split; reflexivity|].
  cbn [RE2.push_literal RE2.literal].
  destruct (IH (RE2.push_item (RE2.Lit c) f) tail) as [-> ->].
  split; reflexivity.
Qed.

Lemma accepts_literal (p s : string) (bot : bool) :
  RE2.accepts (RE2.literal p RE2.EndText) bot s (fun _ _ => true)
  = String.eqb s p.
Proof.
  revert s bot.
  induction p as [|c p IH]; intros s bot; cbn [RE2.literal RE2.accepts].
  - rewrite andb_true_r. reflexivity.
  - destruct s as [|c' s]; [reflexivity|].
    rewrite IH. cbn [String.eqb]. rewrite Ascii.eqb_sym. reflexivity.
Qed.

Lemma all_plain_no_anchor (p : string) :
  RE2.all_plain p = true ->
  GoStrings.HasPrefix p "^" = false /\ GoStrings.HasSuffix p "$" = false.
Proof.
  intros Hp. split.
  - destruct p as [|c p]; [reflexivity|].
    cbn [RE2.all_plain] in Hp. apply andb_true_iff in Hp as [Hc _].
    unfold RE2.is_plain in Hc. apply negb_true_iff in Hc.
    repeat (apply orb_false_iff in Hc as [Hc ?]).
    unfold GoStrings.HasPrefix. cbn [String.prefix].
    destruct (Ascii.ascii_dec "^" c) as [<-|]; [discriminate|reflexivity].
  - induction p as [|c p IH]; [reflexivity|].
    cbn [RE2.all_plain] in Hp. apply andb_true_iff in Hp as [Hc Hp].
    rewrite GoStringsFacts.HasSuffix_cons. destruct p; [|exact (IH Hp)].
    unfold RE2.is_plain in Hc. apply negb_true_iff in Hc.
    repeat (apply orb_false_iff in Hc as [Hc ?]). assumption.
Qed.

(** Exact match by default: on a source of plain bytes the anchored
    pattern compiles and matches the source itself and nothing else. *)
Lemma anchorPattern_plain_exact (p : string) :
  RE2.all_plain p = true ->
  exists r, Compile (anchorPattern p) = Some r
            /\ forall s, MatchString r s = String.eqb s p.
Proof.
  intros Hp. destruct (all_plain_no_anchor p Hp) as [Hpre Hsuf].
  rewrite anchorPattern_ends, Hpre, Hsuf.
  exists (RE2.Cat RE2.BeginText (RE2.literal p RE2.EndText)). split.
  - cbn [Compile RE2.engine]. unfold RE2.parse.
    change ("^" ++ p ++ "$") with (String "^" (p ++ "$")).
    change (RE2.parse_loop (String "^" (p ++ "$")) RE2.empty_frame []
              RE2.NoRep)
      with (RE2.parse_loop (p ++ "$")
              (RE2.push_item RE2.BeginText RE2.empty_frame) [] RE2.NoRep).
    rewrite (parse_loop_plain p "$" _ _ _ Hp).
    assert (forall f rep,
              RE2.parse_loop "$" f [] rep
              = Some (RE2.close_frame (RE2.push_item RE2.EndText f))) as ->
      by reflexivity.
    f_equal. unfold RE2.close_frame.
    cbn [RE2.push_item RE2.alts RE2.items RE2.concat_items].
    destruct (push_literal_frame p
                (RE2.push_item RE2.BeginText RE2.empty_frame) RE2.EndText)
      as [Ha Hi].
    rewrite Ha, Hi. reflexivity.
  - intros s. cbn [MatchString RE2.engine]. unfold RE2.match_string.
    assert (RE2.match_here (RE2.Cat RE2.BeginText (RE2.literal p RE2.EndText))
              true s = String.eqb s p) as Hhere
      by (unfold RE2.match_here; cbn [RE2.accepts andb];
          apply accepts_literal).
    destruct s as [|c s]; cbn [RE2.search]; rewrite Hhere.
    + apply orb_false_r.
    + rewrite search_BeginText_later. apply orb_false_r.
Qed.

(** The grouped form of the same pattern matches whole candidates only. *)
Example anchored_group_alternation :
  exists r,
    Compile "^(?:app|web)$" = Some r
    /\ MatchString r "app" = true
    /\ MatchString r "web" = true
    /\ MatchString r "application" = false
    /\ MatchString r "my-web" = false.
Proof. eexists. repeat split. Qed.

(** C4 fails on the code.  [anchorPattern] puts [^] and [$] around the
    source text without grouping it, so on a top-level alternation the
    anchors bind to the first and the last alternative only:
    [app|web] becomes [^app|web$], which matches every candidate that
    starts with [app] or ends with [web], while the pattern itself
    matches [app] and [web] only.  A source that ends in an escaped
    dollar, [a\$], is taken for anchored and gets no [$]. *)
Theorem anchorPattern_alternation_matches_substring :
  anchorPattern "app|web" = "^app|web$"
  /\ (exists r,
        Compile (anchorPattern "app|web") = Some r
        /\ MatchString r "application" = true
        /\ MatchString r "my-web" = true)
  /\ (exists r0,
        RE2.parse "app|web" = Some r0
        /\ RE2.full_match r0 "app" = true
        /\ RE2.full_match r0 "web" = true
        /\ RE2.full_match r0 "application" = false
        /\ RE2.full_match r0 "my-web" = false)
  /\ Examples.evaluate (Examples.cond "metadata.labels" "app|web" "" false)
       Examples.podApplication = Some true
  /\ anchorPattern "a\$" = "^a\$"
  /\ (exists r,
        Compile (anchorPattern "a\$") = Some r
        /\ MatchString r "a$b" = true).
Proof.
  split; [reflexivity|]. split; [eexists; repeat split|].
  split; [eexists; repeat split|]. split; [reflexivity|].
  split; [reflexivity|]. eexists. repeat split.
Qed.

(** ** The further properties at the pods of the tests *)

Lemma NewPodData_fresh_witness :
  NewPodData "" "prod" = None
  /\ exists pd,
       NewPodData "web-1" "prod" = Some pd
       /\ Name pd = "web-1" /\ Namespace pd = "prod"
       /\ ResolvePath pd "metadata.name" = None.
Proof.
  split.
  - apply (NewPodData_fresh "" "prod"). reflexivity.
  - eexists. split; [reflexivity|].
    destruct (NewPodData_fresh "web-1" "prod") as [_ Hfresh].
    destruct (Hfresh _ eq_refl) as (Hn & Hns & _ & _ & Hr). auto.
Defined.

Lemma FilterMenuItems_no_data_witness :
  Parsed Examples.podNoData = ∅
  /\ (exists out,
        FilterMenuItems (MenuItems Examples.brokenConfig)
          (Some Examples.podNoData) = Some out
        /\ map Title out = ["first"; ""])
  /\ Evaluate (Examples.cond "metadata.labels" "app" "" true)
       (Some Examples.podNoData) = Some true.
Proof.
  split; [reflexivity|].
  destruct (FilterMenuItems_no_data (MenuItems Examples.brokenConfig)
              Examples.podNoData eq_refl) as (Heval & _ & Hfilter & _).
  split.
  - eexists. split; [exact Hfilter|]. vm_compute. reflexivity.
  - apply Heval.
Defined.

Lemma main_pod_fetch_failed_witness :
  exists pd,
    @main_pod Examples.kubectl_down "web-1" "prod"
    = (Some pd,
       Some (@ErrKubectlStderr Examples.kubectl_down "exit status 1"
               "Unable to connect to the server"))
    /\ Name pd = "web-1" /\ Parsed pd = ∅
    /\ (exists out,
          FilterMenuItems (MenuItems Examples.brokenConfig) (Some pd) = Some out
          /\ map Title out = ["first"; ""])
    /\ (@main_pod Examples.kubectl_down "" "prod").1 = None.
Proof.
  eexists. split; [vm_compute; reflexivity|].
  destruct (@main_pod_fetch_failed Examples.kubectl_down _ amd64 "web-1" "prod")
    as [_ Hfailed].
  destruct (Hfailed _ _ (MenuItems Examples.brokenConfig) eq_refl)
    as (Hn & _ & Hp & Hfilter & _).
  split; [exact Hn|]. split; [exact Hp|]. split.
  - eexists. split; [exact Hfilter|]. vm_compute. reflexivity.
  - apply (@main_pod_fetch_failed Examples.kubectl_down _ amd64 "" "prod").
    reflexivity.
Defined.

Lemma ResolvePath_dotted_key_witness :
  exists m,
    ResolvePath Examples.podNginxProd "metadata.annotations" = Some (VMap m)
    /\ m !! "prometheus.io/scrape" = Some (VStr "true")
    /\ map_Forall (fun _ v => is_map v = false) m
    /\ GoStrings.ContainsByte "prometheus.io/scrape" "." = true
    /\ ResolvePath Examples.podNginxProd
         "metadata.annotations.prometheus.io/scrape" = None.
Proof.
  eexists. split; [reflexivity|]. split; [reflexivity|].
  assert (map_Forall (fun _ v => is_map v = false)
            (list_to_map [ ("prometheus.io/scrape", VStr "true");
                           ("prometheus.io/port", VStr "9090") ]
             : gmap string value)) as Hflat.
  { apply map_Forall_to_list. vm_compute. repeat constructor. }
  split; [exact Hflat|]. split; [reflexivity|].
  apply (ResolvePath_dotted_key Examples.podNginxProd "metadata.annotations"
           "prometheus.io/scrape" _ eq_refl Hflat eq_refl).
Defined.

Lemma Labels_lookup_witness :
  GoStrings.ContainsByte "app" "." = false
  /\ Labels Examples.podNginxProd !! "app" = Some "nginx"
  /\ Labels Examples.podNginxProd !! "missing" = None.
Proof.
  split; [reflexivity|]. split.
  - rewrite (Labels_lookup Examples.podNginxProd "app" eq_refl). reflexivity.
  - rewrite (Labels_lookup Examples.podNginxProd "missing" eq_refl).
    reflexivity.
Defined.

Lemma Evaluate_Labels_witness :
  Path Examples.appNginx = "metadata.labels"
  /\ compiled Examples.appNginx
  /\ Labels Examples.podNginxProd !! "app" = Some "nginx"
  /\ Evaluate Examples.appNginx (Some Examples.podNginxProd) = Some true.
Proof.
  split; [reflexivity|]. split; [split; eexists; reflexivity|].
  split; [reflexivity|].
  destruct (Evaluate_Labels Examples.appNginx Examples.podNginxProd
              _ _ eq_refl eq_refl eq_refl) as (base & -> & Hbase).
  - vm_compute. right. eexists. reflexivity.
  - f_equal. change (Invert Examples.appNginx) with false. cbv iota.
    apply Hbase. exists "app", "nginx". repeat split; reflexivity.
Defined.

Lemma FilterMenuItems_exact_witness :
  FilterMenuItems
    [ Examples.nginxProdItem;
      Examples.menu_item "Always Visible" "https://google.com" [] [] ]
    (Some Examples.podRedisStaging)
  = Some [ Examples.menu_item "Always Visible" "https://google.com" [] [] ]
  /\ FilterMenuItems
       [ Examples.menu_item "Always Visible" "https://google.com" [] [] ]
       (Some Examples.podRedisStaging)
     = Some [ Examples.menu_item "Always Visible" "https://google.com" [] [] ]
  /\ [ Examples.menu_item "Always Visible" "https://google.com" [] [] ]
     = filter (kept (Some Examples.podRedisStaging))
         [ Examples.nginxProdItem;
           Examples.menu_item "Always Visible" "https://google.com" [] [] ].
Proof.
  assert (FilterMenuItems
            [ Examples.nginxProdItem;
              Examples.menu_item "Always Visible" "https://google.com" [] [] ]
            (Some Examples.podRedisStaging)
          = Some [ Examples.menu_item "Always Visible" "https://google.com"
                     [] [] ]) as Hout
    by reflexivity.
  split; [exact Hout|].
  destruct (FilterMenuItems_exact _ _ _ Hout) as (Hf & _ & Hi).
  split; [exact Hi|exact Hf].
Defined.

Lemma MatchesPod_any_order_witness :
  Forall compiled (Conditions (Filters Examples.nginxProdItem))
  /\ MatchesPod
       (Examples.menu_item "Nginx Prod Dashboard"
          "https://grafana.example.com/nginx"
          (reverse (Conditions (Filters Examples.nginxProdItem))) [])
       (Some Examples.podNginxProd)
     = MatchesPod Examples.nginxProdItem (Some Examples.podNginxProd).
Proof.
  assert (Forall compiled (Conditions (Filters Examples.nginxProdItem))) as Hc
    by (repeat constructor; eexists; reflexivity).
  split; [exact Hc|]. symmetry.
  apply (MatchesPod_any_order Examples.nginxProdItem _ Examples.podNginxProd Hc).
  intros c. simpl. symmetry. apply elem_of_reverse.
Defined.

Lemma ResolveURL_extends_URL_witness :
  TemplateVars (Examples.menu_item "Always Visible" "https://google.com" [] [])
  = []
  /\ ResolveURL (Examples.menu_item "Always Visible" "https://google.com" [] [])
       (Some Examples.podNginxProd)
     = "https://google.com".
Proof.
  split; [reflexivity|].
  apply (ResolveURL_extends_URL
           (Examples.menu_item "Always Visible" "https://google.com" [] [])
           (Some Examples.podNginxProd)).
  reflexivity.
Defined.

Lemma ValidateConfig_idempotent_witness :
  (ValidateConfig Examples.endToEnd).2 = None
  /\ ValidateConfig (ValidateConfig Examples.endToEnd).1
     = ((ValidateConfig Examples.endToEnd).1, None).
Proof.
  split; [reflexivity|].
  apply (ValidateConfig_idempotent Examples.endToEnd). reflexivity.
Defined.

Lemma FlattenPaths_any_order_witness :
  flattens "" (VMap (Parsed Examples.podSmall)) [] ["b.c = true"; "a = x"]
  /\ GoSort.Strings ["b.c = true"; "a = x"] = FlattenPaths Examples.podSmall
  /\ FlattenPaths Examples.podSmall = ["a = x"; "b.c = true"].
Proof.
  assert (flattens "" (VMap (Parsed Examples.podSmall)) []
            ["b.c = true"; "a = x"]) as Hrun.
  { apply (flattens_map "" _
             [ ("b", Examples.obj [ ("c", VBool true) ]); ("a", VStr "x") ]).
    - vm_compute. first [reflexivity | apply perm_swap].
    - eapply flattens_entries_cons.
      + apply (flattens_map "b" _ [ ("c", VBool true) ]).
        * vm_compute. reflexivity.
        * eapply flattens_entries_cons.
          -- apply (flattens_scalar "b.c" (VBool true) []). reflexivity.
          -- apply flattens_entries_nil.
      + eapply flattens_entries_cons.
        * apply (flattens_scalar "a" (VStr "x") ["b.c = true"]). reflexivity.
        * apply flattens_entries_nil. }
  split; [exact Hrun|].
  destruct (FlattenPaths_any_order Examples.podSmall _ Hrun) as (Hsort & _ & _).
  split; [exact Hsort|]. rewrite <- Hsort. vm_compute. reflexivity.
Defined.

Lemma FlattenPaths_lists_resolved_witness :
  GoStrings.HasPrefix "spec.priority" "." = false
  /\ ResolvePath Examples.podOddValues "spec.priority"
     = Some (VNum Float64.f8080)
  /\ "spec.priority = 8080" ∈ FlattenPaths Examples.podOddValues.
Proof.
  split; [reflexivity|]. split; [reflexivity|].
  apply (FlattenPaths_lists_resolved Examples.podOddValues "spec.priority"
           (VNum Float64.f8080)); reflexivity.
Defined.

Lemma stringify_fraction_witness :
  Float64.is_float64 Float64.two_and_a_half = true
  /\ Float64.is_integral Float64.two_and_a_half = false
  /\ stringify (VNum Float64.two_and_a_half) = "2.5".
Proof.
  split; [reflexivity|]. split; [reflexivity|].
  destruct (stringify_fraction Float64.two_and_a_half eq_refl eq_refl)
    as [-> _].
  reflexivity.
Defined.

Lemma anchorPattern_plain_exact_witness :
  RE2.all_plain "app" = true
  /\ exists r,
       Compile (anchorPattern "app") = Some r
       /\ MatchString r "app" = true
       /\ MatchString r "myapp" = false
       /\ MatchString r "application" = false.
Proof.
  split; [reflexivity|].
  destruct (anchorPattern_plain_exact "app" eq_refl) as (r & Hr & Hm).
  exists r. split; [exact Hr|]. rewrite !Hm. repeat split.
Defined.


#[local] Existing Instance Examples.cluster.
#[local] Existing Instance Examples.cluster_config.

Lemma LoadConfig_validated_witness :
  (exists data raw,
     ReadFile "config.json" = inr data
     /\ Unmarshal_Config data = inr raw
     /\ MenuItems raw <> [] /\ Forall item_ok (MenuItems raw)
     /\ MenuItems (LoadConfig "config.json").1
        = map compiled_item (MenuItems raw)
     /\ Forall (fun it => Forall compiled (Conditions (Filters it)))
          (MenuItems (LoadConfig "config.json").1)
     /\ forall pd,
          is_Some (FilterMenuItems (MenuItems (LoadConfig "config.json").1) pd))
  /\ MenuItems
       (@LoadConfig RE2.engine Examples.kubectl_down
          Examples.kubectl_down_config "config.json").1
     = [].
Proof.
  split.
  - pose proof (LoadConfig_validated "config.json") as Hload.
    assert ((LoadConfig "config.json").2 = None) as E
      by (vm_compute; reflexivity).
    rewrite E in Hload. exact Hload.
  - pose proof (@LoadConfig_validated _ amd64 _ Examples.kubectl_down_config
                  "config.json") as Hload.
    assert ((@LoadConfig RE2.engine Examples.kubectl_down
               Examples.kubectl_down_config "config.json").2
            = Some (@ErrReadConfig Examples.kubectl_down
                      "open config.json: no such file or directory"))
      as E by reflexivity.
    rewrite E in Hload. apply Hload.
Defined.

(** [main] on the host [cluster]: the pod is fetched and decoded. *)
Example main_pod_fetched :
  exists pd,
    main_pod "small" "default" = (Some pd, None)
    /\ Name pd = "small" /\ RawJSON pd = Examples.podSmallJSON
    /\ FlattenPaths pd = ["a = x"; "b.c = true"].
Proof. eexists. split; [vm_compute; reflexivity|]. repeat split. Qed.

(** ** The test suite of the repository, on the model *)

(** [TestConditionEvaluate_MapLabels]. *)
Example TestConditionEvaluate_MapLabels :
  map (fun c => Examples.evaluate c Examples.podNginxProd)
    [ Examples.cond "metadata.labels" "app" "" false;
      Examples.cond "metadata.labels" "app" "nginx" false;
      Examples.cond "metadata.labels" "app" "redis" false;
      Examples.cond "metadata.labels" "version" "" false;
      Examples.cond "metadata.labels" ".*" "" false;
      Examples.cond "metadata.labels" "te.*" "" false;
      Examples.cond "metadata.labels" ".*ea.*" "" false;
      Examples.cond "metadata.labels" "app" "ngi.*" false;
      Examples.cond "metadata.labels" "ap" "" false;
      Examples.cond "metadata.labels" "app" "ngi" false ]
  = map Some [ true; true; false; false; true; true; true; true; false; false ].
Proof. vm_compute. reflexivity. Qed.

(** [TestConditionEvaluate_MapAnnotations]. *)
Example TestConditionEvaluate_MapAnnotations :
  map (fun c => Examples.evaluate c Examples.podNginxProd)
    [ Examples.cond "metadata.annotations" "prometheus\.io/scrape" "" false;
      Examples.cond "metadata.annotations" "prometheus\.io/port" "9090" false;
      Examples.cond "metadata.annotations" "prometheus\.io/.*" "" false;
      Examples.cond "metadata.annotations" "vault\.hashicorp\.com/inject" ""
        false ]
  = map Some [ true; true; true; false ].
Proof. vm_compute. reflexivity. Qed.

(** [TestConditionEvaluate_Scalar]. *)
Example TestConditionEvaluate_Scalar :
  map (fun c => Examples.evaluate c Examples.podNginxProd)
    [ Examples.cond "status.phase" "" "Running" false;
      Examples.cond "status.phase" "" "Pending" false;
      Examples.cond "spec.nodeName" "" "prod-pool-.*" false;
      Examples.cond "spec.nodeName" "" "staging-.*" false;
      Examples.cond "spec.restartPolicy" "" "Always" false ]
  = map Some [ true; false; true; false; true ].
Proof. vm_compute. reflexivity. Qed.

(** [TestConditionEvaluate_Invert] and [TestConditionEvaluate_MissingPath]. *)
Example TestConditionEvaluate_Invert :
  map (fun c => Examples.evaluate c Examples.podNginxProd)
    [ Examples.cond "metadata.labels" "app" "" true;
      Examples.cond "metadata.labels" "version" "" true;
      Examples.cond "metadata.nonexistent" "" "" true;
      Examples.cond "status.phase" "" "Running" true;
      Examples.cond "status.phase" "" "Failed" true ]
  = map Some [ false; true; true; false; true ]
  /\ Examples.evaluate (Examples.cond "metadata.labels" "app" "" false)
       Examples.podNoLabels = Some false
  /\ Examples.evaluate (Examples.cond "metadata.labels" "app" "" true)
       Examples.podNoLabels = Some true.
Proof. vm_compute. repeat split. Qed.

(** Numbers, booleans, lists and an explicit null. *)
Example Evaluate_other_kinds :
  map (fun c => Examples.evaluate c Examples.podOddValues)
    [ Examples.cond "spec.priority" "" "8080" false;
      Examples.cond "spec.hostNetwork" "" "true" false;
      Examples.cond "metadata.finalizers" "" "c/d" false;
      Examples.cond "metadata.finalizers" "" "c" false;
      Examples.cond "metadata.deletionTimestamp" "" ".*" false;
      Examples.cond "metadata.deletionTimestamp" "" ".*" true ]
  = map Some [ true; true; true; false; false; true ].
Proof. vm_compute. reflexivity. Qed.

(** [TestValidateConfig_InvalidRegex] and
    [TestValidateConfig_DefaultPatterns]. *)
Example TestValidateConfig :
  (ValidateConfig
     {| MenuItems :=
          [ Examples.menu_item "test" "http://test"
              [ Examples.cond "metadata.labels" "[invalid" "" false ] [] ] |}).2
  = Some (ErrInvalidKeyPattern 0 "test" 0 "[invalid")
  /\ (KeyPattern <$> Examples.mustCompileCondition
                       (Examples.cond "metadata.labels" "" "" false))
     = Some ".*"
  /\ (ValuePattern <$> Examples.mustCompileCondition
                         (Examples.cond "metadata.labels" "" "" false))
     = Some ".*".
Proof. vm_compute. repeat split. Qed.

(** [TestLabelsConvenience]. *)
Example TestLabelsConvenience :
  Labels Examples.podNginxProd !! "app" = Some "nginx"
  /\ Labels Examples.podNginxProd !! "env" = Some "production"
  /\ size (Labels Examples.podNoLabels) = 0%nat.
Proof. vm_compute. repeat split. Qed.

(** [TestEndToEnd_MultiPodFilterAndResolve]. *)
Example TestEndToEnd :
  (ValidateConfig Examples.endToEnd).2 = None
  /\ (map Title <$> FilterMenuItems Examples.endToEndItems
                      (Some Examples.podNginxProd))
     = Some [ "Nginx Prod Dashboard"; "Any App Dashboard"; "Running Pods Only";
              "Prod Nodes"; "Always Visible" ]
  /\ (map (fun it => ResolveURL it (Some Examples.podNginxProd))
        <$> FilterMenuItems Examples.endToEndItems (Some Examples.podNginxProd))
     = Some [ "https://grafana.example.com/nginx";
              "https://grafana.example.com/apps?app=nginx";
              "https://example.com/running";
              "https://example.com/nodes?node=prod-pool-node-01";
              "https://google.com" ]
  /\ (map Title <$> FilterMenuItems Examples.endToEndItems
                      (Some Examples.podRedisStaging))
     = Some [ "Any App Dashboard"; "Running Pods Only"; "Always Visible" ]
  /\ (map Title <$> FilterMenuItems Examples.endToEndItems
                      (Some Examples.podNoLabels))
     = Some [ "Always Visible" ]
  /\ (map Title <$> FilterMenuItems Examples.endToEndItems None)
     = Some [ "Always Visible" ].
Proof. vm_compute. repeat split. Qed.
